(** * Smart-AI-dashboard: the ingestion, evaluation, deduplication and
      fan-out pipeline of the server

    The development embeds the server's reading pipeline: the helpers
    [toNumber], [withinAlertRange], [kindFromName], [unitFor], [nextValue],
    the [POST /api/reading] handler, the socket [connection] handler and
    the simulator [simulateOnce].  Around the pipeline it embeds the rest of
    the server: start-up ([ensureSchema], [seedSensorsIfEmpty], [boot]), the
    routes that read,
    [DELETE /api/alerts/clear], [GET /healthz], the origins CORS lets in and
    the accounts ([ensureUsers], [POST /api/login]); and, of the dashboard,
    the address and the throttle of the announcer.

    Modelling choices, fixed once for the whole file:
    - a finite JavaScript number is the rational it denotes ([Q]); [NaN] and
      the two infinities are the extra constructors of [jsnumber].  Where
      the source converts to a number or subtracts two numbers the result is
      rounded to the nearest double ([round_number]); comparisons are exact,
      as they are on doubles; the sums and products of the simulator
      ([nextValue]) are exact, and its result stands for the double of its
      two decimals;
    - a JavaScript string is a Rocq [string], read as its UTF-8 bytes;
    - the three PostgreSQL tables are lists of rows in insertion order, the
      [SERIAL] columns are explicit counters;
    - [pool.query], [io.emit], [socket.emit], [console.error], [Math.random]
      and [Date.now] act on one explicit [World]; a query can throw, which
      the [oracle] of the world decides, and time passes between queries by
      the delay the oracle gives; the database and the server read the same
      clock, in milliseconds;
    - one handler runs from start to end without another one interleaving.

    The first part holds the embedding, the second the vocabulary of the
    properties, the third the properties of the pipeline and their proofs,
    the fourth those of what is around it. *)

From Stdlib Require Import ZArith QArith Qabs Qround Qminmax Qpower Qfield.
From Stdlib Require Import Lqa Lia.
From Stdlib Require Import String Ascii Bool.
From stdpp Require Import base tactics option list sorting relations.

Set Default Proof Using "Type".
Open Scope string_scope.
Open Scope list_scope.
Open Scope Q_scope.

(** ** JavaScript numbers *)

Inductive jsnumber : Type :=
| Fin (q : Q)
| NaN
| PosInfinity
| NegInfinity.

(** [Number.isFinite(v)] *)
Definition Number_isFinite (v : jsnumber) : bool :=
  match v with
  | Fin _ => true
  | _ => false
  end.

(** Strict comparisons that return a [bool], as [<] and [>] do in the source. *)
Definition Qltb (x y : Q) : bool :=
  match x ?= y with
  | Lt => true
  | _ => false
  end.

Definition Qgtb (x y : Q) : bool := Qltb y x.

Infix "<?" := Qltb (at level 70, no associativity) : Q_scope.
Infix ">?" := Qgtb (at level 70, no associativity) : Q_scope.

(** ** JavaScript strings *)

(** [hay.includes(needle)] *)
Fixpoint includes (hay needle : string) : bool :=
  String.prefix needle hay ||
  match hay with
  | EmptyString => false
  | String _ rest => includes rest needle
  end.

Definition lower_ascii (c : ascii) : ascii :=
  let n := nat_of_ascii c in
  if (65 <=? n)%nat && (n <=? 90)%nat then ascii_of_nat (n + 32) else c.

(** [s.toLowerCase()].  Only the letters [A]..[Z] change; bytes of other
    code points stay.  The four needles of [kindFromName] are ASCII and no
    code point outside ASCII lowers to a run of ASCII letters that completes
    one of them, so [includes] after this function answers as the source. *)
Fixpoint toLowerCase (s : string) : string :=
  match s with
  | EmptyString => EmptyString
  | String c rest => String (lower_ascii c) (toLowerCase rest)
  end.

(** ** Thresholds and the evaluator *)

Record threshold : Type := { min : Q; max : Q }.

(** The object literal [THRESHOLDS], keys in source order. *)
Definition THRESHOLDS : list (string * threshold) :=
  [ ("Temperature Sensor 1", {| min := 18; max := 28 |});
    ("Humidity Sensor 1",    {| min := 30; max := 60 |});
    ("CO2 Sensor 1",         {| min := 0;  max := 800 |});
    ("Light Sensor 1",       {| min := 100; max := 700 |}) ].

(** [Object.keys(THRESHOLDS)] *)
Definition SENSOR_NAMES : list string := map fst THRESHOLDS.

(** The properties every object literal inherits from [Object.prototype];
    indexing with one of these names gives a function or an object, never
    [undefined]. *)
Definition Object_prototype_names : list string :=
  [ "constructor"; "__defineGetter__"; "__defineSetter__"; "hasOwnProperty";
    "__lookupGetter__"; "__lookupSetter__"; "isPrototypeOf";
    "propertyIsEnumerable"; "toString"; "valueOf"; "__proto__";
    "toLocaleString" ].

(** What [obj[name]] gives for an object literal whose own values have
    type [A]. *)
Inductive property (A : Type) : Type :=
| Undefined
| Own (a : A)
| Inherited.
Arguments Undefined {A}.
Arguments Own {A} a.
Arguments Inherited {A}.

Fixpoint assoc {A : Type} (name : string) (l : list (string * A)) : option A :=
  match l with
  | [] => None
  | (k, a) :: rest => if String.eqb k name then Some a else assoc name rest
  end.

Definition mem_string (name : string) (l : list string) : bool :=
  existsb (String.eqb name) l.

(** [obj[name]] *)
Definition get_property {A : Type} (obj : list (string * A)) (name : string)
  : property A :=
  match assoc name obj with
  | Some a => Own a
  | None => if mem_string name Object_prototype_names then Inherited else Undefined
  end.

(** [withinAlertRange(name, value)]; [None] is the source's [null].  For an
    inherited property [thr.max] and [thr.min] are [undefined], and both
    comparisons with [undefined] are false. *)
Definition withinAlertRange (name : string) (value : Q) : option string :=
  match get_property THRESHOLDS name with
  | Undefined => None
  | Inherited => None
  | Own thr =>
      if value >? max thr then Some "high"
      else if value <? min thr then Some "low"
      else None
  end.

(** ** Dedup configuration *)

Definition ALERT_COOLDOWN_MS : Z := 120000.

Definition ALERT_MIN_DELTA : list (string * Q) :=
  [ ("temperature", 5 # 10);
    ("humidity", 2);
    ("co2", 50);
    ("light", 30) ].

(** [kindFromName(n)] on a string; [n || ""] leaves a string as it is or
    replaces the empty one by itself. *)
Definition kindFromName (n : string) : string :=
  let n := toLowerCase n in
  if includes n "temp" then "temperature"
  else if includes n "humid" then "humidity"
  else if includes n "co2" then "co2"
  else if includes n "light" then "light"
  else "other".

(** [ALERT_MIN_DELTA[k] ?? 1]; a property inherited from [Object.prototype]
    is neither [null] nor [undefined], so [??] would keep it: no category
    name that [kindFromName] returns is such a property. *)
Definition minDeltaOf (k : string) : Q :=
  match assoc k ALERT_MIN_DELTA with
  | Some d => d
  | None => 1
  end.

(** ** [Number(x)] on the values a JSON body can carry *)

Definition bytes (l : list nat) : string :=
  fold_right (fun n s => String (ascii_of_nat n) s) EmptyString l.

(** The code points of [WhiteSpace] and [LineTerminator], in UTF-8:
    TAB LF VT FF CR SP, U+00A0, U+1680, U+2000..U+200A, U+2028, U+2029,
    U+202F, U+205F, U+3000, U+FEFF. *)
Definition whitespace : list string :=
  map bytes
    ([ [9]; [10]; [11]; [12]; [13]; [32]; [194; 160]; [225; 154; 128] ]
     ++ map (fun k => [226; 128; 128 + k]) (seq 0 11)
     ++ [ [226; 128; 168]; [226; 128; 169]; [226; 128; 175];
          [226; 129; 159]; [227; 128; 128]; [239; 187; 191] ])%nat.

Fixpoint drop_string (n : nat) (s : string) : string :=
  match n, s with
  | S k, String _ rest => drop_string k rest
  | _, _ => s
  end.

Fixpoint rev_string (s acc : string) : string :=
  match s with
  | EmptyString => acc
  | String c rest => rev_string rest (String c acc)
  end.

(** Drops the longest prefix of [s] made of the sequences in [codes]. *)
Fixpoint strip (codes : list string) (fuel : nat) (s : string) : string :=
  match fuel with
  | O => s
  | S k =>
      match find (fun c => String.prefix c s) codes with
      | Some c => strip codes k (drop_string (String.length c) s)
      | None => s
      end
  end.

(** [s.trim()] *)
Definition trim (s : string) : string :=
  let front := strip whitespace (String.length s) s in
  let back := map (fun c => rev_string c "") whitespace in
  rev_string (strip back (String.length front) (rev_string front "")) "".

Definition digit_value (c : ascii) : option Z :=
  let n := Z.of_nat (nat_of_ascii c) in
  if (48 <=? n)%Z && (n <=? 57)%Z then Some (n - 48)%Z
  else if (97 <=? n)%Z && (n <=? 102)%Z then Some (n - 87)%Z
  else if (65 <=? n)%Z && (n <=? 70)%Z then Some (n - 55)%Z
  else None.

(** Reads the longest run of digits of the base at the head of [s], on top
    of the value [acc]; returns the value, how many digits were read and
    the rest. *)
Fixpoint digits (base : Z) (s : string) (acc : Z) (count : nat)
  : Z * nat * string :=
  match s with
  | EmptyString => (acc, count, s)
  | String c rest =>
      match digit_value c with
      | Some d =>
          if (d <? base)%Z then digits base rest (acc * base + d)%Z (S count)
          else (acc, count, s)
      | None => (acc, count, s)
      end
  end.

Definition sign_of (s : string) : Z * string :=
  match s with
  | String "+" rest => (1%Z, rest)
  | String "-" rest => ((-1)%Z, rest)
  | _ => (1%Z, s)
  end.

(** The rest of a decimal literal: nothing, or a whole [ExponentPart]. *)
Definition exponent_part (s : string) : option Z :=
  match s with
  | EmptyString => Some 0%Z
  | String c rest =>
      if Ascii.eqb c "e" || Ascii.eqb c "E" then
        let (sg, rest) := sign_of rest in
        let '(v, n, rest) := digits 10 rest 0 0 in
        if negb (n =? 0)%nat && String.eqb rest "" then Some (sg * v)%Z else None
      else None
  end.

(** [StrUnsignedDecimalLiteral] without [Infinity]. *)
Definition unsigned_decimal (s : string) : option Q :=
  let '(ip, ni, r1) := digits 10 s 0 0 in
  match r1 with
  | String "." r2 =>
      let '(m, nf, r3) := digits 10 r2 ip 0 in
      if (ni + nf =? 0)%nat then None
      else
        match exponent_part r3 with
        | Some e => Some (inject_Z m * 10 ^ (e - Z.of_nat nf))
        | None => None
        end
  | _ =>
      if (ni =? 0)%nat then None
      else
        match exponent_part r1 with
        | Some e => Some (inject_Z ip * 10 ^ e)
        | None => None
        end
  end.

(** [0b], [0o] and [0x] literals. *)
Definition non_decimal (s : string) : option Q :=
  match s with
  | String "0" (String p rest) =>
      let base :=
        if Ascii.eqb p "b" || Ascii.eqb p "B" then Some 2%Z
        else if Ascii.eqb p "o" || Ascii.eqb p "O" then Some 8%Z
        else if Ascii.eqb p "x" || Ascii.eqb p "X" then Some 16%Z
        else None in
      match base with
      | Some b =>
          let '(v, n, rest) := digits b rest 0 0 in
          if negb (n =? 0)%nat && String.eqb rest "" then Some (inject_Z v)
          else None
      | None => None
      end
  | _ => None
  end.

(** The integer nearest to [p / r] for [0 < r], the even one of two
    nearest. *)
Definition round_half_even (p r : Z) : Z :=
  let f := (p / r)%Z in
  match (2 * (p mod r) ?= r)%Z with
  | Lt => f
  | Gt => (f + 1)%Z
  | Eq => if Z.even f then f else (f + 1)%Z
  end.

(** The [k] with [2^k <= n / d < 2^(k+1)], for positive [n] and [d]. *)
Definition binade (n d : Z) : Z :=
  let k := (Z.log2 n - Z.log2 d)%Z in
  if (d * 2 ^ Z.max k 0 <=? n * 2 ^ Z.max (- k) 0)%Z then k else (k - 1)%Z.

(** The double nearest to [q], the one of even significand of two nearest:
    53 bits of [q] are kept, fewer below [2^-1022], where the doubles are
    the multiples of [2^-1074]; the result is in lowest terms. *)
Definition nearest_double (q : Q) : Q :=
  let n := Z.abs (Qnum q) in
  let d := Zpos (Qden q) in
  if (n =? 0)%Z then 0
  else
    let e := Z.max (binade n d - 52) (-1074) in
    let m := round_half_even (n * 2 ^ Z.max (- e) 0) (d * 2 ^ Z.max e 0) in
    let r := Qred (inject_Z m * 2 ^ e) in
    if (Qnum q <? 0)%Z then - r else r.

(** Magnitudes from [2^1024 - 2^970] on round to an infinity. *)
Definition OVERFLOW : Q := inject_Z (2 ^ 1024 - 2 ^ 970).

(** The number value of the real [q]: IEEE 754 binary64, round to nearest,
    ties to even.  The sign of a zero is not kept. *)
Definition round_number (q : Q) : jsnumber :=
  if Qle_bool OVERFLOW (Qabs q)
  then if q <? 0 then NegInfinity else PosInfinity
  else Fin (nearest_double q).

(** [StringToNumber] of ECMAScript. *)
Definition StringToNumber (s : string) : jsnumber :=
  let text := trim s in
  if String.eqb text "" then Fin 0
  else
    match non_decimal text with
    | Some q => round_number q
    | None =>
        let (sg, body) := sign_of text in
        if String.eqb body "Infinity"
        then if (sg <? 0)%Z then NegInfinity else PosInfinity
        else
          match unsigned_decimal body with
          | Some q => round_number (inject_Z sg * q)
          | None => NaN
          end
    end.

(** The value of a key of the parsed JSON body.  [JUndefined] is an absent
    key.  [JNumber (Fin q)] is the number whose literal denotes [q]: the
    parser hands over its double.  [JObject] is an object without own
    [valueOf] and [toString] keys.  Arrays, and objects with such keys
    (on which [Number] calls them, or throws a [TypeError] when they are
    not functions), are outside this type. *)
Inductive jsvalue : Type :=
| JUndefined
| JNull
| JBool (b : bool)
| JNumber (x : jsnumber)
| JString (s : string)
| JObject.

(** [Number(n)] *)
Definition Number (n : jsvalue) : jsnumber :=
  match n with
  | JUndefined => NaN
  | JNull => Fin 0
  | JBool b => if b then Fin 1 else Fin 0
  | JNumber (Fin q) => round_number q
  | JNumber x => x
  | JString s => StringToNumber s
  | JObject => NaN
  end.

(** [toNumber(n)] *)
Definition toNumber (n : jsvalue) : Q :=
  let v := Number n in
  match v with
  | Fin q => q
  | _ => 0
  end.

(** [a - b] on numbers: the exact difference of two finite numbers, rounded. *)
Definition minus (a b : jsnumber) : jsnumber :=
  match a, b with
  | Fin x, Fin y => round_number (x - y)
  | NaN, _ | _, NaN => NaN
  | PosInfinity, PosInfinity | NegInfinity, NegInfinity => NaN
  | PosInfinity, _ | _, NegInfinity => PosInfinity
  | NegInfinity, _ | _, PosInfinity => NegInfinity
  end.

(** [Math.abs(a)] *)
Definition Math_abs (a : jsnumber) : jsnumber :=
  match a with
  | Fin x => Fin (Qabs x)
  | NaN => NaN
  | PosInfinity | NegInfinity => PosInfinity
  end.

(** [a < b] for a finite [b] *)
Definition less_than (a : jsnumber) (b : Q) : bool :=
  match a with
  | Fin x => x <? b
  | NegInfinity => true
  | NaN | PosInfinity => false
  end.

(** ** The store, the bus and the world *)

(** A row of [sensor_data]. *)
Record reading_row : Type := {
  rd_id : Z;
  rd_sensor_name : string;
  rd_value : Q;
  rd_unit : option string;
  rd_recorded_at : Z
}.

(** A row of [sensors]. *)
Record sensor_row : Type := {
  sn_id : Z;
  sn_name : string;
  sn_value : Q;
  sn_unit : option string;
  sn_updated_at : Z
}.

(** A row of [alerts]. *)
Record alert_row : Type := {
  al_id : Z;
  al_sensor_name : string;
  al_value : Q;
  al_status : string;
  al_triggered_at : Z
}.

(** The object sent with [sensor-alert] and, in a list, with [all-alerts]. *)
Record alert_msg : Type := {
  sensor : string;
  value : Q;
  status : string;
  time : Z
}.

Inductive event : Type :=
| sensor_updated (row : sensor_row)
| sensor_alert (a : alert_msg)
| alerts_cleared
| all_sensors (rows : list sensor_row)
| all_alerts (items : list alert_msg).

(** What a run leaves behind, oldest first: the writes of the queries, the
    messages put on the bus, the lines of [console.error], and the arrival
    of a socket, which socket.io registers before it calls the [connection]
    handler. *)
Inductive effect : Type :=
| sql_insert_sensor_data (row : reading_row)
| sql_upsert_sensors (row : sensor_row)
| sql_insert_alerts (row : alert_row)
| sql_delete_alerts
| io_emitted (e : event)
| socket_emitted (id : string) (e : event)
| socket_connected (id : string)
| console_error (msg : string).

(** What the environment decides for one [pool.query]: the time that has
    passed since the previous action and whether the query throws. *)
Record tick : Type := { delay : N; fails : bool }.

(** The three tables, the last value of each [SERIAL] sequence, the clock in
    milliseconds, what the environment will decide for the queries to come,
    the numbers [Math.random] will return, and the trace. *)
Record World : Type := {
  sensor_data : list reading_row;
  sensors : list sensor_row;
  alerts : list alert_row;
  sensor_data_seq : Z;
  sensors_seq : Z;
  alerts_seq : Z;
  clock : Z;
  oracle : list tick;
  entropy : list Q;
  trace : list effect
}.

(** A write to a table takes the next value of its sequence. *)
Definition write_sensor_data (f : list reading_row -> list reading_row) (w : World) :=
  {| sensor_data := f (sensor_data w); sensors := sensors w; alerts := alerts w;
     sensor_data_seq := sensor_data_seq w + 1; sensors_seq := sensors_seq w;
     alerts_seq := alerts_seq w; clock := clock w; oracle := oracle w;
     entropy := entropy w; trace := trace w |}.

Definition write_sensors (f : list sensor_row -> list sensor_row) (w : World) :=
  {| sensor_data := sensor_data w; sensors := f (sensors w); alerts := alerts w;
     sensor_data_seq := sensor_data_seq w; sensors_seq := sensors_seq w + 1;
     alerts_seq := alerts_seq w; clock := clock w; oracle := oracle w;
     entropy := entropy w; trace := trace w |}.

(** [bump] is 1 for an insert and 0 for [DELETE], which leaves the sequence
    where it is. *)
Definition write_alerts (f : list alert_row -> list alert_row) (bump : Z) (w : World) :=
  {| sensor_data := sensor_data w; sensors := sensors w; alerts := f (alerts w);
     sensor_data_seq := sensor_data_seq w; sensors_seq := sensors_seq w;
     alerts_seq := alerts_seq w + bump; clock := clock w; oracle := oracle w;
     entropy := entropy w; trace := trace w |}.

Definition set_clock_oracle (t : Z) (o : list tick) (w : World) :=
  {| sensor_data := sensor_data w; sensors := sensors w; alerts := alerts w;
     sensor_data_seq := sensor_data_seq w; sensors_seq := sensors_seq w;
     alerts_seq := alerts_seq w; clock := t; oracle := o;
     entropy := entropy w; trace := trace w |}.

Definition set_entropy (e : list Q) (w : World) :=
  {| sensor_data := sensor_data w; sensors := sensors w; alerts := alerts w;
     sensor_data_seq := sensor_data_seq w; sensors_seq := sensors_seq w;
     alerts_seq := alerts_seq w; clock := clock w; oracle := oracle w;
     entropy := e; trace := trace w |}.

(** Appends one effect to the trace. *)
Definition log (x : effect) (w : World) :=
  {| sensor_data := sensor_data w; sensors := sensors w; alerts := alerts w;
     sensor_data_seq := sensor_data_seq w; sensors_seq := sensors_seq w;
     alerts_seq := alerts_seq w; clock := clock w; oracle := oracle w;
     entropy := entropy w; trace := trace w ++ [x] |}.

(** *** The monad of the handlers: state and exceptions *)

Inductive outcome (A : Type) : Type :=
| Return (a : A)
| Throw (msg : string).
Arguments Return {A} a.
Arguments Throw {A} msg.

Definition M (A : Type) : Type := World -> outcome A * World.

Definition ret {A : Type} (a : A) : M A := fun w => (Return a, w).

Definition bind {A B : Type} (m : M A) (k : A -> M B) : M B :=
  fun w =>
    match m w with
    | (Return a, w') => k a w'
    | (Throw e, w') => (Throw e, w')
    end.

(** [try { body } catch (e) { handler }]: what [body] did before it threw
    stays done. *)
Definition try_catch {A : Type} (body : M A) (handler : string -> M A) : M A :=
  fun w =>
    match body w with
    | (Return a, w') => (Return a, w')
    | (Throw e, w') => handler e w'
    end.

Declare Scope monad_scope.
Delimit Scope monad_scope with monad.
Notation "x <- m ;; k" := (bind m (fun x => k))
  (at level 100, m at next level, right associativity) : monad_scope.
Notation "m ;; k" := (bind m (fun _ => k))
  (at level 100, right associativity) : monad_scope.
Open Scope monad_scope.

(** Leaves [x] in the trace. *)
Definition effect_ (x : effect) : M unit := fun w => (Return tt, log x w).

(** [io.emit(...)]: to every connected socket. *)
Definition io_emit (e : event) : M unit := effect_ (io_emitted e).

(** [socket.emit(...)]: to one socket. *)
Definition socket_emit (id : string) (e : event) : M unit :=
  effect_ (socket_emitted id e).

(** [Date.now()] and [new Date()] *)
Definition Date_now : M Z := fun w => (Return (clock w), w).

(** [Math.random()]; an exhausted source gives 0. *)
Definition Math_random : M Q :=
  fun w =>
    match entropy w with
    | [] => (Return 0, w)
    | r :: rest => (Return r, set_entropy rest w)
    end.

(** The head of the oracle; an exhausted oracle lets no time pass and no
    query throw. *)
Definition next_delay (o : list tick) : N :=
  match o with
  | [] => 0%N
  | t :: _ => delay t
  end.

Definition next_fails (o : list tick) : bool :=
  match o with
  | [] => false
  | t :: _ => fails t
  end.

(** The world once the next tick of the oracle is consumed. *)
Definition advance (w : World) : World :=
  set_clock_oracle (clock w + Z.of_N (next_delay (oracle w)))%Z
                   (tail (oracle w)) w.

(** [await pool.query(...)]: the next tick of the oracle moves the clock and
    decides whether the query throws; a query that throws changes no table.
    [run] is the statement, given the value of [NOW()]. *)
Definition pool_query {A : Type} (run : Z -> World -> A * World) : M A :=
  fun w =>
    let w1 := advance w in
    if next_fails (oracle w) then (Throw "query failed", w1)
    else let (a, w') := run (clock w1) w1 in (Return a, w').

(** *** The statements *)

(** The collation of the database, by which [ORDER BY name] compares. *)
Class Collation : Type := { name_le : string -> string -> bool }.

(** The collation [C]: strings compare byte by byte. *)
Definition bytewise : Collation := {| name_le := String.leb |}.

(** [INSERT INTO sensor_data (sensor_name, value, unit, recorded_at)
     VALUES ($1,$2,$3,NOW())] *)
Definition insert_sensor_data (name : string) (val : Q) (unit_ : option string)
  : M unit :=
  pool_query (fun now w =>
    let row := {| rd_id := sensor_data_seq w + 1; rd_sensor_name := name;
                  rd_value := val; rd_unit := unit_; rd_recorded_at := now |} in
    (tt, log (sql_insert_sensor_data row)
             (write_sensor_data (fun t => t ++ [row]) w))).

(** The row that [ON CONFLICT (name) DO UPDATE SET value, unit, updated_at]
    leaves in place of [old]. *)
Definition do_update (old new : sensor_row) : sensor_row :=
  {| sn_id := sn_id old; sn_name := sn_name old; sn_value := sn_value new;
     sn_unit := sn_unit new; sn_updated_at := sn_updated_at new |}.

(** The table after the upsert of [row], and the row [RETURNING *] gives. *)
Fixpoint upsert_row (row : sensor_row) (t : list sensor_row)
  : list sensor_row * sensor_row :=
  match t with
  | [] => ([row], row)
  | r :: rest =>
      if String.eqb (sn_name r) (sn_name row)
      then (do_update r row :: rest, do_update r row)
      else let (rest', out) := upsert_row row rest in (r :: rest', out)
  end.

(** [INSERT INTO sensors (name, value, unit, updated_at) VALUES ($1,$2,$3,NOW())
     ON CONFLICT (name) DO UPDATE SET ... RETURNING *]; the sequence of [id]
     advances on a conflict too. *)
Definition upsert_sensors (name : string) (val : Q) (unit_ : option string)
  : M sensor_row :=
  pool_query (fun now w =>
    let row := {| sn_id := sensors_seq w + 1; sn_name := name; sn_value := val;
                  sn_unit := unit_; sn_updated_at := now |} in
    let (t, out) := upsert_row row (sensors w) in
    (out, log (sql_upsert_sensors out) (write_sensors (fun _ => t) w))).

(** [a] comes before [b] in descending order of [triggered_at]. *)
Definition triggered_desc (a b : alert_row) : Prop :=
  (al_triggered_at b <= al_triggered_at a)%Z.

#[global] Instance triggered_desc_dec a b : Decision (triggered_desc a b).
Proof. unfold triggered_desc. apply _. Defined.

(** [ORDER BY triggered_at DESC].  SQL leaves the order of rows of equal
    time open; the properties below use only that the result is sorted and
    holds the same rows. *)
Definition order_by_triggered_at_desc (t : list alert_row) : list alert_row :=
  merge_sort triggered_desc t.

(** The rows of [SELECT value, status, triggered_at FROM alerts
     WHERE sensor_name=$1 ORDER BY triggered_at DESC LIMIT 1] *)
Definition last_alert_rows (name : string) (t : list alert_row)
  : list alert_row :=
  take 1 (order_by_triggered_at_desc
            (List.filter (fun a => String.eqb (al_sensor_name a) name) t)).

(** The query above. *)
Definition select_last_alert (name : string) : M (list alert_row) :=
  pool_query (fun _ w => (last_alert_rows name (alerts w), w)).

(** The constraint [CHECK (status IN ('low','high'))]. *)
Definition status_check (s : string) : bool :=
  String.eqb s "low" || String.eqb s "high".

(** [INSERT INTO alerts (sensor_name, value, status, triggered_at)
     VALUES ($1,$2,$3,NOW())]: a row that violates the constraint on
     [status] makes the query throw and is not added. *)
Definition insert_alerts (name : string) (val : Q) (st : string) : M unit :=
  fun w =>
    match
      pool_query (fun now w =>
        let row := {| al_id := alerts_seq w + 1; al_sensor_name := name;
                      al_value := val; al_status := st;
                      al_triggered_at := now |} in
        if status_check st
        then (true, log (sql_insert_alerts row)
                        (write_alerts (fun t => t ++ [row]) 1 w))
        else (false, write_alerts (fun t => t) 1 w)) w
    with
    | (Return true, w') => (Return tt, w')
    | (Return false, w') => (Throw "violates check constraint", w')
    | (Throw e, w') => (Throw e, w')
    end.

(** [SELECT ... FROM alerts ORDER BY triggered_at DESC LIMIT n] *)
Definition select_recent_alerts (n : nat) : M (list alert_row) :=
  pool_query (fun _ w => (take n (order_by_triggered_at_desc (alerts w)), w)).

(** [DELETE FROM alerts] *)
Definition delete_alerts : M unit :=
  pool_query (fun _ w =>
    (tt, log sql_delete_alerts (write_alerts (fun _ => []) 0 w))).

(** [SELECT value FROM sensors WHERE name=$1] *)
Definition select_sensor_value (name : string) : M (list Q) :=
  pool_query (fun _ w =>
    (map sn_value
         (List.filter (fun r => String.eqb (sn_name r) name) (sensors w)), w)).

(** [SELECT COUNT( * )::int AS c FROM sensors] *)
Definition count_sensors : M nat :=
  pool_query (fun _ w => (length (sensors w), w)).

Section WithCollation.
Context {collation : Collation}.

(** [a] comes before [b] in ascending order of [name]. *)
Definition by_name (a b : sensor_row) : Prop :=
  name_le (sn_name a) (sn_name b) = true.

#[global] Instance by_name_dec a b : Decision (by_name a b).
Proof. unfold by_name. apply _. Defined.

(** [getLatestSensors()]:
    [SELECT id, name, value, unit, updated_at FROM sensors ORDER BY name ASC] *)
Definition getLatestSensors : M (list sensor_row) :=
  pool_query (fun _ w => (merge_sort by_name (sensors w), w)).

End WithCollation.

(** ** The handlers *)

Inductive payload : Type :=
| row_json (row : sensor_row)
| error_json (error : string)
| message_json (message : string).

(** [res.status(code).json(payload)] *)
Record response : Type := { status_code : Z; json : payload }.

(** [req.body] of [POST /api/reading].  [body_name] is [None] when the key
    is absent or [null], and a string otherwise: a name of another type (a
    number, an array) is outside this type. *)
Record request_body : Type := {
  body_name : option string;
  body_value : jsvalue;
  body_unit : option string
}.

(** [!name] *)
Definition not_ (name : option string) : bool :=
  match name with
  | None => true
  | Some s => String.eqb s ""
  end.

(** [value === undefined] *)
Definition is_undefined (v : jsvalue) : bool :=
  match v with
  | JUndefined => true
  | _ => false
  end.

(** [unit || null] *)
Definition or_null (u : option string) : option string :=
  match u with
  | Some s => if String.eqb s "" then None else Some s
  | None => None
  end.

(** The two writes and the broadcast that open both [POST /api/reading]
    (after its validation) and the [try] of [simulateOnce]: the insert into
    [sensor_data], the upsert of [sensors], [io.emit("sensor-updated", ...)];
    the result is [up.rows[0]]. *)
Definition record_reading (name : string) (val : Q) (unit_ : option string)
  : M sensor_row :=
  insert_sensor_data name val unit_ ;;
  latest <- upsert_sensors name val unit_ ;;
  io_emit (sensor_updated latest) ;;
  ret latest.

(** The dedup gate, the block from [let shouldInsert = true] to the end of
    [if (lastRows.length)]; the source has it twice, word for word, in
    [POST /api/reading] and in [simulateOnce].  [Number(val)] is the double
    of the value; [last.value] comes back from its [NUMERIC] column as the
    decimal that was written, and [Number(last.value)] is its double. *)
Definition shouldInsert (name : string) (val : Q) (st : string)
  (lastRows : list alert_row) : M bool :=
  match lastRows with
  | [] => ret true
  | last :: _ =>
      let lastTs := al_triggered_at last in
      now <- Date_now ;;
      let sameStatus := String.eqb (al_status last) st in
      let k := kindFromName name in
      let minDelta := minDeltaOf k in
      let smallDelta :=
        less_than
          (Math_abs (minus (round_number val) (round_number (al_value last))))
          minDelta in
      let withinCooldown := (now - lastTs <? ALERT_COOLDOWN_MS)%Z in
      if sameStatus && smallDelta && withinCooldown then ret false
      else ret true
  end.

(** The alert branch, from [const status = withinAlertRange(...)] to the end
    of [if (status)]; also twice in the source. *)
Definition alert_branch (name : string) (val : Q) : M unit :=
  match withinAlertRange name val with
  | None => ret tt
  | Some st =>
      lastRows <- select_last_alert name ;;
      should <- shouldInsert name val st lastRows ;;
      if should : bool then
        insert_alerts name val st ;;
        now <- Date_now ;;
        io_emit (sensor_alert {| sensor := name; value := val;
                                 status := st; time := now |})
      else ret tt
  end.

(** What [POST /api/reading] (after its validation) and the [try] of
    [simulateOnce] both do with a name, a number and a unit: the source has
    this sequence twice, with [val] and [latest] in the handler and
    [candidate] and [row] in the simulator. *)
Definition ingest (name : string) (val : Q) (unit_ : option string)
  : M sensor_row :=
  latest <- record_reading name val unit_ ;;
  alert_branch name val ;;
  ret latest.

(** [app.post("/api/reading", ...)] *)
Definition post_reading (req : request_body) : M response :=
  try_catch
    (if not_ (body_name req) || is_undefined (body_value req)
     then ret {| status_code := 400;
                 json := error_json "name and value required" |}
     else
       let name := default "" (body_name req) in
       let val := toNumber (body_value req) in
       latest <- ingest name val (or_null (body_unit req)) ;;
       ret {| status_code := 201; json := row_json latest |})
    (fun e =>
       effect_ (console_error e) ;;
       ret {| status_code := 500; json := error_json "Internal server error" |}).

(** [app.delete("/api/alerts/clear", ...)], once [verifyToken] and
    [checkRole] have let the request through. *)
Definition delete_alerts_clear : M response :=
  try_catch
    (delete_alerts ;;
     io_emit alerts_cleared ;;
     ret {| status_code := 200; json := message_json "✅ All alerts cleared." |})
    (fun e =>
       effect_ (console_error e) ;;
       ret {| status_code := 500; json := error_json "Internal server error" |}).

(** The object [{ sensor, value, status, time }] built from a row of
    [alerts]. *)
Definition to_msg (a : alert_row) : alert_msg :=
  {| sensor := al_sensor_name a; value := al_value a; status := al_status a;
     time := al_triggered_at a |}.

Section Handlers.
Context {collation : Collation}.

(** [io.on("connection", ...)] for the socket [id]. *)
Definition on_connection (id : string) : M unit :=
  effect_ (socket_connected id) ;;
  try_catch
    (rows <- getLatestSensors ;;
     socket_emit id (all_sensors rows) ;;
     recent <- select_recent_alerts 50 ;;
     socket_emit id (all_alerts (map to_msg recent)))
    (fun e => effect_ (console_error "socket init error:")).

End Handlers.

(** ** The simulator *)

(** [unitFor(name)] *)
Definition unitFor (name : string) : option string :=
  if includes name "Temperature" then Some "°C"
  else if includes name "Humidity" then Some "%"
  else if includes name "CO2" then Some "ppm"
  else if includes name "Light" then Some "lux"
  else None.

(** [Number(x.toFixed(2))]: from [10^21] on [toFixed] prints the number as
    [String] does and [Number] reads it back; below, the digits are those of
    the integer nearest to [|x| * 100], the larger one on a tie, and the
    sign is put back. *)
Definition toFixed_2 (x : Q) : Q :=
  if Qle_bool (10 ^ 21) (Qabs x) then x
  else
    let n := Qfloor (Qabs x * 100 + (1 # 2)) in
    if x <? 0 then - (inject_Z n / 100) else inject_Z n / 100.

(** The constant [baseDrift] of [nextValue]. *)
Definition baseDrift (name : string) : Q :=
  if includes name "Temperature" then 12 # 10
  else if includes name "Humidity" then 4
  else if includes name "CO2" then 60
  else if includes name "Light" then 80
  else 1.

(** The constant [pSpike] of [nextValue]. *)
Definition pSpike (name : string) : Q :=
  if includes name "Temperature" then 35 # 100
  else if includes name "Humidity" then 25 # 100
  else if includes name "CO2" then 25 # 100
  else if includes name "Light" then 25 # 100
  else 1 # 10.

(** [nextValue(name, last, thr)] *)
Definition nextValue (name : string) (last : Q) (thr : threshold) : M Q :=
  let baseDrift := baseDrift name in
  let pSpike := pSpike name in
  r1 <- Math_random ;;
  let candidate := last + (r1 * 2 - 1) * baseDrift in
  r2 <- Math_random ;;
  candidate <-
    (if r2 <? pSpike then
       r3 <- Math_random ;;
       let towardsHigh := r3 <? (1 # 2) in
       r4 <- Math_random ;;
       ret (if towardsHigh
            then max thr + (r4 * baseDrift + baseDrift)
            else min thr - (r4 * baseDrift + baseDrift))
     else ret candidate) ;;
  let clampMin := min thr - baseDrift * 6 in
  let clampMax := max thr + baseDrift * 6 in
  let candidate := Qmax clampMin (Qmin clampMax candidate) in
  ret (toFixed_2 candidate).

(** The first half of the body of the loop of [simulateOnce]: the baseline
    is the value of the snapshot, or the midpoint of the bounds when there
    is no snapshot or the lookup throws; the candidate is [nextValue] of it. *)
Definition pick_candidate (name : string) (thr : threshold) : M Q :=
  let midpoint := (min thr + max thr) / 2 in
  latest <-
    try_catch
      (rows <- select_sensor_value name ;;
       ret (match rows with
            | v :: _ => v
            | [] => midpoint
            end))
      (fun _ => ret midpoint) ;;
  nextValue name latest thr.

(** The body of the loop of [simulateOnce] for one key of [THRESHOLDS] and
    its value. *)
Definition simulate_sensor (entry : string * threshold) : M unit :=
  let (name, thr) := entry in
  candidate <- pick_candidate name thr ;;
  let unit_ := unitFor name in
  try_catch
    (ingest name candidate unit_ ;;
     ret tt)
    (fun e => effect_ (console_error "simulation error:")).

(** [for (const x of l) { body }] *)
Fixpoint for_of {A : Type} (l : list A) (body : A -> M unit) : M unit :=
  match l with
  | [] => ret tt
  | x :: rest => body x ;; for_of rest body
  end.

(** [simulateOnce()]: [for (const name of SENSOR_NAMES)] with
    [thr = THRESHOLDS[name]] walks the entries of [THRESHOLDS]. *)
Definition simulateOnce : M unit := for_of THRESHOLDS simulate_sensor.

(** ** Start-up *)

Definition seeds : list (string * Q * string) :=
  [ ("Temperature Sensor 1", 22, "°C");
    ("Humidity Sensor 1", 45, "%");
    ("CO2 Sensor 1", 400, "ppm");
    ("Light Sensor 1", 500, "lux") ].

(** [seedSensorsIfEmpty()] *)
Definition seedSensorsIfEmpty : M unit :=
  c <- count_sensors ;;
  if (0 <? c)%nat then ret tt
  else
    for_of seeds (fun s =>
      let '(name, val, unit_) := s in
      upsert_sensors name val (Some unit_) ;;
      insert_sensor_data name val (Some unit_)).

(** One statement of [ensureSchema], a [CREATE TABLE IF NOT EXISTS] or a
    [CREATE INDEX IF NOT EXISTS]: a query that creates what is not there
    and changes no row. *)
Definition create_if_not_exists : M unit := pool_query (fun _ w => (tt, w)).

(** [ensureSchema()]: the tables [sensors] and [sensor_data], the index of
    [sensor_data], the table [alerts], the index of [alerts]. *)
Definition ensureSchema : M unit :=
  create_if_not_exists ;;
  create_if_not_exists ;;
  create_if_not_exists ;;
  create_if_not_exists ;;
  create_if_not_exists.

(** [process.env.ENABLE_SIM === "1"] *)
Definition enableSim (ENABLE_SIM : option string) : bool :=
  match ENABLE_SIM with
  | Some s => String.eqb s "1"
  | None => false
  end.

(** [boot()] with the [catch] on its promise, for the value of the
    environment variable [ENABLE_SIM].  What [console.log] prints is not
    traced.  The timer that [setInterval(simulateOnce, tickMs)] starts
    fires later: each firing is a request [simulator_tick]. *)
Definition boot (ENABLE_SIM : option string) : M unit :=
  try_catch
    (ensureSchema ;;
     seedSensorsIfEmpty ;;
     if enableSim ENABLE_SIM then simulateOnce else ret tt)
    (fun e => effect_ (console_error "Boot error:")).

(** ** The server as a machine *)

Inductive request : Type :=
| POST_api_reading (body : request_body)
| DELETE_api_alerts_clear
| socket_connection (id : string)
| simulator_tick
| server_boot (ENABLE_SIM : option string).

Section Machine.
Context {collation : Collation}.

Definition step (r : request) (w : World) : World :=
  match r with
  | POST_api_reading body => snd (post_reading body w)
  | DELETE_api_alerts_clear => snd (delete_alerts_clear w)
  | socket_connection id => snd (on_connection id w)
  | simulator_tick => snd (simulateOnce w)
  | server_boot ENABLE_SIM => snd (boot ENABLE_SIM w)
  end.

(** A run: requests handled one after the other. *)
Definition run (rs : list request) (w : World) : World :=
  fold_left (fun w r => step r w) rs w.

End Machine.

(** The world before the first request, given what the environment will
    decide. *)
Definition initial (t0 : Z) (o : list tick) (e : list Q) : World :=
  {| sensor_data := []; sensors := []; alerts := [];
     sensor_data_seq := 0; sensors_seq := 0; alerts_seq := 0;
     clock := t0; oracle := o; entropy := e; trace := [] |}.

(** ** Reading the trace *)

(** What was added to the trace between [w] and [w']. *)
Definition trace_since (w w' : World) : list effect :=
  drop (length (trace w)) (trace w').

(** The messages of the [sensor-alert] broadcasts, oldest first. *)
Fixpoint alert_events (t : list effect) : list alert_msg :=
  match t with
  | [] => []
  | io_emitted (sensor_alert a) :: rest => a :: alert_events rest
  | _ :: rest => alert_events rest
  end.

(** None of the next [n] queries throws. *)
Fixpoint no_fault (n : nat) (o : list tick) : bool :=
  match n with
  | O => true
  | S k => negb (next_fails o) && no_fault k (tail o)
  end.

(** The time the next [n] queries let pass. *)
Fixpoint elapsed (n : nat) (o : list tick) : Z :=
  match n with
  | O => 0
  | S k => Z.of_N (next_delay o) + elapsed k (tail o)
  end.

(** The events broadcast with [io.emit], oldest first. *)
Fixpoint emitted (t : list effect) : list event :=
  match t with
  | [] => []
  | io_emitted e :: rest => e :: emitted rest
  | _ :: rest => emitted rest
  end.

(** What the socket [id] is sent: nothing before it connects, then what is
    emitted to it and what is broadcast.  A socket that leaves is sent less;
    its departure is not in the trace. *)
Fixpoint received_from (id : string) (connected : bool) (t : list effect)
  : list event :=
  match t with
  | [] => []
  | socket_connected id' :: rest =>
      received_from id (connected || String.eqb id' id) rest
  | socket_emitted id' e :: rest =>
      if String.eqb id' id then e :: received_from id connected rest
      else received_from id connected rest
  | io_emitted e :: rest =>
      if connected then e :: received_from id connected rest
      else received_from id connected rest
  | _ :: rest => received_from id connected rest
  end.

Definition received (id : string) (t : list effect) : list event :=
  received_from id false t.

Definition is_alert_event (e : event) : bool :=
  match e with
  | sensor_alert _ => true
  | _ => false
  end.

(** The events that carry a change: an updated snapshot, a raised alert,
    the clearing of the alerts. *)
Definition is_delta (e : event) : bool :=
  match e with
  | sensor_updated _ | sensor_alert _ | alerts_cleared => true
  | _ => false
  end.

(** ** The routes that read *)

(** [res.json(rows)] with its default status 200, or
    [res.status(500).json({ error })].  The driver hands a [NUMERIC] column
    as decimal text; a row is modelled by the number it denotes. *)
Inductive rows_or_error (A : Type) : Type :=
| rows_json (rows : list A)
| rows_error (error : string).
Arguments rows_json {A} rows.
Arguments rows_error {A} error.

Record rows_response (A : Type) : Type := {
  rows_status : Z;
  rows_body : rows_or_error A
}.
Arguments rows_status {A} _.
Arguments rows_body {A} _.

(** The [catch] of the three routes. *)
Definition internal_error {A : Type} (e : string) : M (rows_response A) :=
  effect_ (console_error e) ;;
  ret {| rows_status := 500; rows_body := rows_error "Internal server error" |}.

Section ReadRoutes.
Context {collation : Collation}.

(** [app.get("/api/sensors", ...)] *)
Definition get_sensors : M (rows_response sensor_row) :=
  try_catch
    (rows <- getLatestSensors ;;
     ret {| rows_status := 200; rows_body := rows_json rows |})
    internal_error.

End ReadRoutes.

(** [app.get("/api/alerts", ...)] *)
Definition get_alerts : M (rows_response alert_row) :=
  try_catch
    (rows <- select_recent_alerts 200 ;;
     ret {| rows_status := 200; rows_body := rows_json rows |})
    internal_error.

(** [Math.min(a, b)] and [Math.max(a, b)] *)
Definition Math_min (a b : jsnumber) : jsnumber :=
  match a, b with
  | NaN, _ | _, NaN => NaN
  | NegInfinity, _ | _, NegInfinity => NegInfinity
  | PosInfinity, x | x, PosInfinity => x
  | Fin x, Fin y => Fin (Qmin x y)
  end.

Definition Math_max (a b : jsnumber) : jsnumber :=
  match a, b with
  | NaN, _ | _, NaN => NaN
  | PosInfinity, _ | _, PosInfinity => PosInfinity
  | NegInfinity, x | x, NegInfinity => x
  | Fin x, Fin y => Fin (Qmax x y)
  end.

(** Magnitudes up to [2^-1075] are read as the number 0. *)
Definition UNDERFLOW : Q := 1 / inject_Z (2 ^ 1075).

(** [x || d] on a number: [NaN] and 0 give way to [d]. *)
Definition or_number (x : jsnumber) (d : Q) : jsnumber :=
  match x with
  | NaN => Fin d
  | Fin q => if Qle_bool (Qabs q) UNDERFLOW then Fin d else Fin q
  | _ => x
  end.

(** A key of [req.query]: absent, or a string.  A key given more than once
    or with brackets is not modelled. *)
Definition query_value (v : option string) : jsvalue :=
  match v with
  | None => JUndefined
  | Some s => JString s
  end.

(** [Math.max(1, Math.min(720, Number(req.query.hours) || 24))] *)
Definition hours_of (hours : option string) : jsnumber :=
  Math_max (Fin 1) (Math_min (Fin 720) (or_number (Number (query_value hours)) 24)).

(** What [SELECT sensor_name, value, unit, recorded_at] keeps of a row. *)
Record reading_item : Type := {
  ri_sensor_name : string;
  ri_value : Q;
  ri_unit : option string;
  ri_recorded_at : Z
}.

Definition item_of (r : reading_row) : reading_item :=
  {| ri_sensor_name := rd_sensor_name r; ri_value := rd_value r;
     ri_unit := rd_unit r; ri_recorded_at := rd_recorded_at r |}.

(** [a] comes before [b] in ascending order of [recorded_at]. *)
Definition recorded_asc (a b : reading_row) : Prop :=
  (rd_recorded_at a <= rd_recorded_at b)%Z.

#[global] Instance recorded_asc_dec a b : Decision (recorded_asc a b).
Proof. unfold recorded_asc. apply _. Defined.

(** [recorded_at >= NOW() - INTERVAL 'h hours'], the clock being in
    milliseconds; the interval is taken exactly, where PostgreSQL keeps it
    to the microsecond. *)
Definition in_window (now : Z) (h : Q) (r : reading_row) : bool :=
  Qle_bool (inject_Z now - h * 3600000) (inject_Z (rd_recorded_at r)).

(** [AND sensor_name=$1], added when [sensor] is truthy. *)
Definition of_sensor (sensor : option string) (r : reading_row) : bool :=
  match sensor with
  | Some s => String.eqb (rd_sensor_name r) s
  | None => true
  end.

(** The query of [GET /api/readings]; the text of [hours] is part of the
    statement, and an interval that is not a number is refused. *)
Definition select_readings (hours : jsnumber) (sensor : option string)
  : M (list reading_item) :=
  match hours with
  | Fin h =>
      pool_query (fun now w =>
        (map item_of
             (merge_sort recorded_asc
                (List.filter (fun r => in_window now h r && of_sensor sensor r)
                             (sensor_data w))), w))
  | _ => fun w => (Throw "invalid input syntax for type interval", advance w)
  end.

(** [app.get("/api/readings", ...)] with [req.query.hours] and
    [req.query.sensor]. *)
Definition get_readings (hours sensor : option string)
  : M (rows_response reading_item) :=
  let hours := hours_of hours in
  let sensor := or_null sensor in
  try_catch
    (rows <- select_readings hours sensor ;;
     ret {| rows_status := 200; rows_body := rows_json rows |})
    internal_error.

(** ** The base address of the AI service and [GET /healthz] *)

Fixpoint all_slashes (s : string) : bool :=
  match s with
  | EmptyString => true
  | String c rest => Ascii.eqb c "/" && all_slashes rest
  end.

(** [s.replace(/\/+$/, "")]: the run of slashes that ends [s] goes. *)
Fixpoint strip_trailing_slashes (s : string) : string :=
  match s with
  | EmptyString => EmptyString
  | String c rest =>
      if all_slashes s then EmptyString
      else String c (strip_trailing_slashes rest)
  end.

(** What [fetch(url)] comes to: the promise rejects, or there is a response
    with its [ok], its [status] and, when the body parses as JSON, the
    object [r.json()] gives. *)
Inductive fetch_result : Type :=
| fetch_rejects
| fetch_response (ok : bool) (status : Z) (body : option string).

(** The key [ai] of the answer of [/healthz]. *)
Inductive ai_health : Type :=
| ai_json (body : string)
| ai_not_ok (status : Z)
| ai_missing
| ai_failed.

Inductive health : Type :=
| health_ok (now : Z) (ai : ai_health)
| health_error (error : string).

Record health_response : Type := { health_status : Z; health_body : health }.

(** The inner [try] of [/healthz].  [node_fetch] is what
    [await import("node-fetch")] gives, [None] when it rejects; the time the
    request to the AI service takes is not modelled. *)
Definition ai_ping (PY_AI_URL : option string)
  (node_fetch : option (string -> fetch_result)) : ai_health :=
  match node_fetch with
  | None => ai_failed
  | Some fetch =>
      let base := strip_trailing_slashes (default "" PY_AI_URL) in
      if String.eqb base "" then ai_missing
      else
        match fetch (base ++ "/ping")%string with
        | fetch_rejects => ai_failed
        | fetch_response ok status body =>
            if ok then
              match body with
              | Some j => ai_json j
              | None => ai_failed
              end
            else ai_not_ok status
        end
  end.

(** [app.get("/healthz", ...)] *)
Definition healthz (PY_AI_URL : option string)
  (node_fetch : option (string -> fetch_result)) : M health_response :=
  try_catch
    (dbNow <- pool_query (fun now w => (now, w)) ;;
     let ai := ai_ping PY_AI_URL node_fetch in
     ret {| health_status := 200; health_body := health_ok dbNow ai |})
    (fun e => ret {| health_status := 500; health_body := health_error e |}).

(** ** The announcer of the dashboard *)

Module IntelligenceAnnouncer.

(** [API_BASE], given [import.meta.env.VITE_API_BASE]. *)
Definition API_BASE (VITE_API_BASE : option string) : string :=
  match VITE_API_BASE with
  | Some e =>
      if String.eqb e "" then "http://localhost:5000"
      else
        let stripped := strip_trailing_slashes e in
        if String.eqb stripped "" then "http://localhost:5000" else stripped
  | None => "http://localhost:5000"
  end.

(** [lastVoiceRef.current] *)
Record voice : Type := { t : Z; key : string }.

Definition lastVoiceRef_initial : voice := {| t := 0; key := "" |}.

Definition MIN_INTERVAL : Z := 180000.

(** [announce(text)] with the props [facility] and [tts], what [isPaused()]
    and [Date.now()] give, and the ref: the ref it leaves and the text it
    hands to [speak], if any. *)
Definition announce (facility : string) (tts : bool) (paused : bool) (now : Z)
  (text : string) (last : voice) : voice * option string :=
  if negb tts || String.eqb text "" || paused then (last, None)
  else
    let k := (facility ++ ":" ++ text)%string in
    if (now - t last <? MIN_INTERVAL)%Z && String.eqb (key last) k
    then (last, None)
    else ({| t := now; key := k |}, Some text).

(** One call of [announce]: the props at that render and what the
    environment gives. *)
Record call : Type := {
  facility : string;
  tts : bool;
  paused : bool;
  now : Z;
  text : string
}.

(** The calls of [announce] one after the other on the same ref: the ref
    at the end and what was spoken, with its time and key, oldest first. *)
Fixpoint announce_all (calls : list call) (last : voice)
  : voice * list (Z * string) :=
  match calls with
  | [] => (last, [])
  | c :: rest =>
      let (last', spoken) :=
        announce (facility c) (tts c) (paused c) (now c) (text c) last in
      let (final, more) := announce_all rest last' in
      (final,
       match spoken with
       | Some _ => (now c, (facility c ++ ":" ++ text c)%string) :: more
       | None => more
       end)
  end.

End IntelligenceAnnouncer.

(** ** The origins that CORS lets in *)

(** [s.split(sep)] for a separator of one character. *)
Fixpoint split_on (sep : ascii) (s : string) : list string :=
  match s with
  | EmptyString => [EmptyString]
  | String c rest =>
      if Ascii.eqb c sep then EmptyString :: split_on sep rest
      else
        match split_on sep rest with
        | piece :: pieces => String c piece :: pieces
        | [] => [String c EmptyString]
        end
  end.

(** [allowedOrigins], given [process.env.CORS_ORIGIN]. *)
Definition allowedOrigins (CORS_ORIGIN : option string) : list string :=
  let configured :=
    match CORS_ORIGIN with
    | Some e => if String.eqb e "" then "http://localhost:5173" else e
    | None => "http://localhost:5173"
    end in
  map trim (split_on "," configured).

(** The [origin] callback handed to [cors]: [true] is [cb(null, true)] and
    [false] is [cb(new Error(...))].  [origin] is the header of the request,
    [None] when it has none. *)
Definition origin_allowed (CORS_ORIGIN origin : option string) : bool :=
  not_ origin || mem_string (default "" origin) (allowedOrigins CORS_ORIGIN).

(** ** The accounts *)

(** [ensureUsers] and [POST /api/login] work on the table [users] alone.
    [auth.js] is not among the sources: its functions [hashPassword],
    [comparePassword] and [generateToken] are parameters, each taken as what
    it returns or throws for its arguments. *)
Module Accounts.

(** A row of [users]. *)
Record user_row : Type := {
  us_id : Z;
  us_email : string;
  us_password_hash : string;
  us_role : string
}.

(** The table [users], [None] until it is created; the last value of its
    sequence; for each query to come whether it throws; the lines of
    [console.error]. *)
Record Store : Type := {
  users : option (list user_row);
  users_seq : Z;
  faults : list bool;
  console : list string
}.

Definition A (T : Type) : Type := Store -> outcome T * Store.

Definition ret {T : Type} (a : T) : A T := fun s => (Return a, s).

Definition bind {T U : Type} (m : A T) (k : T -> A U) : A U :=
  fun s =>
    match m s with
    | (Return a, s') => k a s'
    | (Throw e, s') => (Throw e, s')
    end.

Definition try_catch {T : Type} (body : A T) (handler : string -> A T) : A T :=
  fun s =>
    match body s with
    | (Return a, s') => (Return a, s')
    | (Throw e, s') => handler e s'
    end.

Declare Scope accounts_scope.
Notation "x <- m ;; k" := (bind m (fun x => k))
  (at level 100, m at next level, right associativity) : accounts_scope.
Notation "m ;; k" := (bind m (fun _ => k))
  (at level 100, right associativity) : accounts_scope.
Local Open Scope accounts_scope.

(** [await f(...)] for a function of [auth.js]. *)
Definition await {T : Type} (o : outcome T) : A T := fun s => (o, s).

(** [console.error(e)] *)
Definition console_error (e : string) : A unit :=
  fun s => (Return tt,
            {| users := users s; users_seq := users_seq s; faults := faults s;
               console := console s ++ [e] |}).

(** [await pool.query(...)]: the head of [faults] says whether the query
    throws; one that throws changes nothing. *)
Definition query {T : Type} (run : Store -> outcome T * Store) : A T :=
  fun s =>
    let s1 := {| users := users s; users_seq := users_seq s;
                 faults := tail (faults s); console := console s |} in
    match faults s with
    | true :: _ => (Throw "query failed", s1)
    | _ => run s1
    end.

(** [CREATE TABLE IF NOT EXISTS users (...)] *)
Definition create_users : A unit :=
  query (fun s =>
    (Return tt,
     {| users := Some (default [] (users s)); users_seq := users_seq s;
        faults := faults s; console := console s |})).

(** [SELECT ... FROM users WHERE email=$1] *)
Definition select_by_email (email : string) : A (list user_row) :=
  query (fun s =>
    match users s with
    | None => (Throw "relation does not exist", s)
    | Some t =>
        (Return (List.filter (fun u => String.eqb (us_email u) email) t), s)
    end).

(** [INSERT INTO users (email, password_hash, role) VALUES ($1,$2,$3)];
    [email] is [UNIQUE], and the sequence advances also when the row is
    refused.  The addresses the source inserts are shorter than the 100
    and the roles than the 20 characters of their columns. *)
Definition insert_user (email hash role : string) : A unit :=
  query (fun s =>
    match users s with
    | None => (Throw "relation does not exist", s)
    | Some t =>
        if existsb (fun u => String.eqb (us_email u) email) t
        then (Throw "duplicate key value",
              {| users := Some t; users_seq := users_seq s + 1;
                 faults := faults s; console := console s |})
        else (Return tt,
              {| users := Some (t ++ [ {| us_id := users_seq s + 1;
                                          us_email := email;
                                          us_password_hash := hash;
                                          us_role := role |} ]);
                 users_seq := users_seq s + 1;
                 faults := faults s; console := console s |})
    end).

Fixpoint for_of {T : Type} (l : list T) (body : T -> A unit) : A unit :=
  match l with
  | [] => ret tt
  | x :: rest => body x ;; for_of rest body
  end.

(** The array [defaults] of [ensureUsers]: email, password, role. *)
Definition defaults : list (string * string * string) :=
  [ ("admin@facility.com", "admin123", "admin");
    ("operator@facility.com", "operator123", "operator");
    ("viewer@facility.com", "viewer123", "viewer") ].

(** The answers of [POST /api/login]. *)
Inductive login_json : Type :=
| login_error (error : string)
| login_token (token role email : string).

Record login_response : Type := { login_status : Z; login_body : login_json }.

Section Auth.
Variable hashPassword : string -> outcome string.
Variable comparePassword : string -> string -> outcome bool.
Variable generateToken : user_row -> outcome string.

(** The body of the loop of [ensureUsers] for one of the defaults. *)
Definition ensure_default (u : string * string * string) : A unit :=
  let '(email, password, role) := u in
  existing <- select_by_email email ;;
  if (length existing =? 0)%nat then
    hashed <- await (hashPassword password) ;;
    insert_user email hashed role
  else ret tt.

(** [ensureUsers()] *)
Definition ensureUsers : A unit :=
  create_users ;;
  for_of defaults ensure_default.

(** [ensureUsers().catch(console.error)] *)
Definition ensureUsers_caught : A unit := try_catch ensureUsers console_error.

(** [app.post("/api/login", ...)]; [email] and [password] are the keys of
    the body, [None] when absent; values that are not strings are not
    modelled. *)
Definition login (email password : option string) : A login_response :=
  if not_ email || not_ password
  then ret {| login_status := 400;
              login_body := login_error "Email and password required" |}
  else
    try_catch
      (rows <- select_by_email (default "" email) ;;
       match rows with
       | [] => ret {| login_status := 404;
                      login_body := login_error "User not found" |}
       | user :: _ =>
           valid <- await (comparePassword (default "" password)
                                           (us_password_hash user)) ;;
           if negb valid
           then ret {| login_status := 401;
                       login_body := login_error "Invalid credentials" |}
           else
             token <- await (generateToken user) ;;
             ret {| login_status := 200;
                    login_body := login_token token (us_role user)
                                              (us_email user) |}
       end)
      (fun e =>
         console_error e ;;
         ret {| login_status := 500;
                login_body := login_error "Internal server error" |}).

End Auth.

End Accounts.

(** * The vocabulary of the properties *)

(** [x] is the finite number [q]. *)
Definition is_number (x : jsnumber) (q : Q) : Prop :=
  match x with
  | Fin q' => q' == q
  | _ => False
  end.

(** [2^k <= |q| < 2^(k+1)] *)
Definition in_binade (k : Z) (q : Q) : Prop :=
  2 ^ k <= Qabs q /\ Qabs q < 2 ^ (k + 1).

(** [m] is an integer nearest to [x], and the even one when two are. *)
Definition nearest_even (x : Q) (m : Z) : Prop :=
  Qabs (x - inject_Z m) <= 1 # 2
  /\ (Qabs (x - inject_Z m) == 1 # 2 -> Z.even m = true).

(** [x] is the double of the real [q], as IEEE 754 defines it for binary64
    with rounding to nearest, ties to even: zero for zero; otherwise [|q|]
    lies in one binade [2^k .. 2^(k+1)], is measured in units of
    [2^(k-52)], of [2^-1074] below [2^-1022], and rounded to a nearest
    whole number [m] of units, the even one of two; from [2^1024] on the
    result is the infinity of the sign of [q]. *)
Definition rounds_to (q : Q) (x : jsnumber) : Prop :=
  (q == 0 /\ is_number x 0)
  \/ exists k m : Z,
       let e := Z.max (k - 52) (-1074) in
       let r := inject_Z m * 2 ^ e in
       in_binade k q /\ nearest_even (Qabs q / 2 ^ e) m
       /\ ((r < 2 ^ 1024
            /\ ((0 < q /\ is_number x r) \/ (q < 0 /\ is_number x (- r))))
           \/ (2 ^ 1024 <= r
               /\ ((0 < q /\ x = PosInfinity) \/ (q < 0 /\ x = NegInfinity)))).

(** The twenty-six letters: each upper-case letter with its lower-case
    letter. *)
Definition letters : list (ascii * ascii) :=
  combine (list_ascii_of_string "ABCDEFGHIJKLMNOPQRSTUVWXYZ")
          (list_ascii_of_string "abcdefghijklmnopqrstuvwxyz").

(** [c] and [d] are the same character, or the two cases of one letter. *)
Definition same_letter (c d : ascii) : bool :=
  Ascii.eqb c d
  || existsb (fun l => (Ascii.eqb (fst l) c && Ascii.eqb (snd l) d)
                       || (Ascii.eqb (fst l) d && Ascii.eqb (snd l) c))
             letters.

(** [s] and [t] are the same string when the case of the letters is
    ignored. *)
Fixpoint same_ignoring_case (s t : string) : bool :=
  match s, t with
  | EmptyString, EmptyString => true
  | String c s', String d t' => same_letter c d && same_ignoring_case s' t'
  | _, _ => false
  end.

(** [v] is [null], a boolean, a number or a string. *)
Definition primitive (v : jsvalue) : bool :=
  match v with
  | JNull | JBool _ | JNumber _ | JString _ => true
  | JUndefined | JObject => false
  end.

(** [kw] occurs in [n] when the case of the letters is ignored: a substring
    of [n] is [kw] up to the case of its letters. *)
Definition mentions (n kw : string) : Prop :=
  exists pre mid post,
    n = (pre ++ mid ++ post)%string /\ same_ignoring_case mid kw = true.

(** The three tests of the gate on the row [last] it has looked up, as the
    gate computes them. *)
Definition repeats (name : string) (val : Q) (st : string) (now : Z)
  (last : alert_row) : Prop :=
  al_status last = st
  /\ less_than
       (Math_abs (minus (round_number val) (round_number (al_value last))))
       (minDeltaOf (kindFromName name)) = true
  /\ (now - al_triggered_at last < ALERT_COOLDOWN_MS)%Z.

(** The row and the message of an alert raised by an alert branch that
    starts in [w]: the insert into [alerts] is its second query. *)
Definition raised_row (name : string) (val : Q) (st : string) (w : World)
  : alert_row :=
  {| al_id := alerts_seq w + 1; al_sensor_name := name; al_value := val;
     al_status := st;
     al_triggered_at := clock w + elapsed 2 (oracle w) |}.

Definition raised_msg (name : string) (val : Q) (st : string) (w : World)
  : alert_msg :=
  {| sensor := name; value := val; status := st;
     time := clock w + elapsed 2 (oracle w) |}.

(** The row [INSERT INTO sensor_data] adds when it is the next query. *)
Definition reading_of (name : string) (val : Q) (unit_ : option string)
  (w : World) : reading_row :=
  {| rd_id := sensor_data_seq w + 1; rd_sensor_name := name; rd_value := val;
     rd_unit := unit_; rd_recorded_at := clock w + elapsed 1 (oracle w) |}.

(** The row the upsert proposes when it is the query after the next. *)
Definition snapshot_of (name : string) (val : Q) (unit_ : option string)
  (w : World) : sensor_row :=
  {| sn_id := sensors_seq w + 1; sn_name := name; sn_value := val;
     sn_unit := unit_; sn_updated_at := clock w + elapsed 2 (oracle w) |}.

(** The row the lookup returns passes the three tests at the time the gate
    runs, which is after the third query of the call. *)
Definition suppressed_by_prior (name : string) (val : Q) (st : string)
  (w : World) : Prop :=
  exists last,
    last_alert_rows name (alerts w) = [last]
    /\ repeats name val st (clock w + elapsed 3 (oracle w)) last.

(** The alert row and the message of a call that raises: the insert into
    [alerts] is the fourth query of the call. *)
Definition alert_of (name : string) (val : Q) (st : string) (w : World)
  : alert_row :=
  {| al_id := alerts_seq w + 1; al_sensor_name := name; al_value := val;
     al_status := st; al_triggered_at := clock w + elapsed 4 (oracle w) |}.

(** [w'] differs from [w] in the random source at most. *)
Definition only_entropy (w w' : World) : Prop :=
  sensor_data w' = sensor_data w /\ sensors w' = sensors w
  /\ alerts w' = alerts w /\ sensor_data_seq w' = sensor_data_seq w
  /\ sensors_seq w' = sensors_seq w /\ alerts_seq w' = alerts_seq w
  /\ clock w' = clock w /\ oracle w' = oracle w /\ trace w' = trace w.

(** Between [w], where the ingestion of [val] for [name] starts, and [w'],
    where the call ends: no alert row and no alert broadcast exactly when the
    prior alert makes the reading a repeat, and otherwise one row and one
    broadcast for this reading. *)
Definition gate_decides (name : string) (val : Q) (st : string)
  (w w' : World) : Prop :=
  ((alerts w' = alerts w /\ alert_events (trace_since w w') = [])
   <-> suppressed_by_prior name val st w)
  /\ (~ suppressed_by_prior name val st w ->
      alerts w' = alerts w ++ [alert_of name val st w]
      /\ alert_events (trace_since w w') = [to_msg (alert_of name val st w)]).

(** [last] is a most recent alert of the sensor: an alert of the sensor
    than which no alert of the sensor is more recent. *)
Definition most_recent (name : string) (t : list alert_row) (last : alert_row)
  : Prop :=
  In last t /\ al_sensor_name last = name
  /\ forall a, In a t -> al_sensor_name a = name ->
               (al_triggered_at a <= al_triggered_at last)%Z.

(** [d] is the difference of [x] and [y] in double-precision arithmetic: the
    exact difference of the double of [x] and the double of [y], rounded to
    a double; no finite number when one of the two overflows. *)
Definition double_difference (x y : Q) (d : jsnumber) : Prop :=
  exists a b,
    rounds_to x a /\ rounds_to y b
    /\ match a, b with
       | Fin a, Fin b => rounds_to (a - b) d
       | _, _ => Number_isFinite d = false
       end.

(** [d] is a finite number and [|d| < m]. *)
Definition magnitude_below (d : jsnumber) (m : Q) : Prop :=
  exists q, d = Fin q /\ Qabs q < m.

(** The conditions 2 to 4 of the decision rule on the prior alert [last],
    at the time [now], [d] being the difference of the two values. *)
Definition repeat_of (name st : string) (now : Z) (last : alert_row)
  (d : jsnumber) : Prop :=
  al_status last = st
  /\ magnitude_below d (minDeltaOf (kindFromName name))
  /\ (now - al_triggered_at last < ALERT_COOLDOWN_MS)%Z.

(** The prior alert [last] has another status than [st], or its value and
    [val], as the doubles they are, differ by the minimum delta of the
    category or more. *)
Definition flip_or_change (name : string) (val : Q) (st : string)
  (last : alert_row) : Prop :=
  al_status last <> st
  \/ exists a b,
       rounds_to val (Fin a) /\ rounds_to (al_value last) (Fin b)
       /\ minDeltaOf (kindFromName name) <= Qabs (a - b).

(** Between [w] and [w'] no alert is stored and none is broadcast. *)
Definition alert_suppressed (w w' : World) : Prop :=
  alerts w' = alerts w /\ alert_events (trace_since w w') = [].

(** Between [w], where the ingestion of [val] for [name] starts, and [w']
    the alert of this reading is stored and broadcast, and no other. *)
Definition alert_raised (name : string) (val : Q) (st : string)
  (w w' : World) : Prop :=
  alerts w' = alerts w ++ [alert_of name val st w]
  /\ alert_events (trace_since w w') = [to_msg (alert_of name val st w)].

(** The decision rule of the dedup gate for the reading [val] of [name],
    evaluated [st], between [w] and [w']: without a prior alert of the
    sensor the alert is raised; with one, there are a most recent prior
    alert and the difference of the two values such that the alert is
    suppressed exactly when the three conditions hold, at the time of the
    gate, which is after the third query; and raised when one fails. *)
Definition dedup_rule (name : string) (val : Q) (st : string)
  (w w' : World) : Prop :=
  ((forall a, In a (alerts w) -> al_sensor_name a <> name) ->
   alert_raised name val st w w')
  /\ ((exists a, In a (alerts w) /\ al_sensor_name a = name) ->
      exists last d,
        let now := (clock w + elapsed 3 (oracle w))%Z in
        most_recent name (alerts w) last
        /\ double_difference val (al_value last) d
        /\ (alert_suppressed w w' <-> repeat_of name st now last d)
        /\ (~ repeat_of name st now last d -> alert_raised name val st w w')).

(** The end-to-end scenarios: an empty store at time 1000, no failing query
    and no delay. *)
Definition temperature_request (v : Q) : request_body :=
  {| body_name := Some "Temperature Sensor 1";
     body_value := JNumber (Fin v);
     body_unit := Some "°C" |}.

(** Before scenario 1. *)
Definition scenario_0 : World := initial 1000 [] [].

(** After scenario 1: the reading 30 is recorded and has raised [high]. *)
Definition scenario_1 : World :=
  snd (post_reading (temperature_request 30) scenario_0).

(** What a call of [ingest] for [name] and [val] can have done between [w]
    and [w'], whatever the oracle decides: [o] is its outcome. *)
Inductive ingested (name : string) (val : Q) (w : World)
  : outcome sensor_row -> World -> Prop :=
| first_write_failed e w' :
    trace w' = trace w -> sensor_data w' = sensor_data w ->
    sensors w' = sensors w -> alerts w' = alerts w ->
    ingested name val w (Throw e) w'
| upsert_failed e r w' :
    trace w' = trace w ++ [sql_insert_sensor_data r] ->
    sensor_data w' = sensor_data w ++ [r] ->
    rd_sensor_name r = name -> rd_value r = val ->
    sensors w' = sensors w -> alerts w' = alerts w ->
    ingested name val w (Throw e) w'
| recorded_only o r row proposed w' :
    trace w' = trace w ++ [sql_insert_sensor_data r; sql_upsert_sensors row;
                           io_emitted (sensor_updated row)] ->
    sensor_data w' = sensor_data w ++ [r] ->
    rd_sensor_name r = name -> rd_value r = val ->
    sn_name proposed = name -> sn_value proposed = val ->
    upsert_row proposed (sensors w) = (sensors w', row) ->
    alerts w' = alerts w ->
    (o = Return row \/ (exists e, o = Throw e)
                       /\ exists st, withinAlertRange name val = Some st) ->
    ingested name val w o w'
| recorded_and_raised r row proposed a w' :
    trace w' = trace w ++ [sql_insert_sensor_data r; sql_upsert_sensors row;
                           io_emitted (sensor_updated row);
                           sql_insert_alerts a;
                           io_emitted (sensor_alert (to_msg a))] ->
    sensor_data w' = sensor_data w ++ [r] ->
    rd_sensor_name r = name -> rd_value r = val ->
    sn_name proposed = name -> sn_value proposed = val ->
    upsert_row proposed (sensors w) = (sensors w', row) ->
    alerts w' = alerts w ++ [a] ->
    al_sensor_name a = name -> al_value a = val ->
    withinAlertRange name val = Some (al_status a) ->
    ingested name val w (Return row) w'.

(** What the handlers broadcast: an updated snapshot, the clearing of the
    alerts, an alert whose status passes the check of the table. *)
Definition broadcastable (e : event) : Prop :=
  match e with
  | sensor_updated _ | alerts_cleared => True
  | sensor_alert m => status_check (status m) = true
  | _ => False
  end.

(** One change of the world by one primitive action.  [sock] is the socket
    whose [connection] handler is running, if any: only that handler emits
    to a single socket. *)
Inductive prim (sock : option string) : World -> World -> Prop :=
| prim_advance w : prim sock w (advance w)
| prim_entropy w e : prim sock w (set_entropy e w)
| prim_insert_reading w row :
    prim sock w (log (sql_insert_sensor_data row)
                     (write_sensor_data (fun t => t ++ [row]) w))
| prim_upsert w proposed :
    prim sock w (log (sql_upsert_sensors (snd (upsert_row proposed (sensors w))))
                     (write_sensors
                        (fun _ => fst (upsert_row proposed (sensors w))) w))
| prim_insert_alert w row :
    status_check (al_status row) = true ->
    prim sock w (log (sql_insert_alerts row)
                     (write_alerts (fun t => t ++ [row]) 1 w))
| prim_reject_alert w : prim sock w (write_alerts (fun t => t) 1 w)
| prim_delete w :
    prim sock w (log sql_delete_alerts (write_alerts (fun _ => []) 0 w))
| prim_broadcast w e :
    broadcastable e -> prim sock w (log (io_emitted e) w)
| prim_connected w id :
    sock = Some id -> prim sock w (log (socket_connected id) w)
| prim_socket w id e :
    sock = Some id -> is_delta e = false ->
    prim sock w (log (socket_emitted id e) w)
| prim_console w msg : prim sock w (log (console_error msg) w).

(** The computation [m] moves the world by primitive transitions only. *)
Definition moves (sock : option string) {A : Type} (m : M A) : Prop :=
  forall w, rtc (prim sock) w (snd (m w)).

(** The socket a request is the connection of. *)
Definition socket_of (r : request) : option string :=
  match r with
  | socket_connection id => Some id
  | _ => None
  end.

(** Every alert row has the status [low] or [high]. *)
Definition alerts_low_or_high (w : World) : Prop :=
  Forall (fun a => al_status a = "low" \/ al_status a = "high") (alerts w).

(** No two snapshots have the same name. *)
Definition names_unique (w : World) : Prop :=
  NoDup (map sn_name (sensors w)).

(** Every alert ever broadcast has the status [low] or [high]. *)
Definition broadcasts_low_or_high (w : World) : Prop :=
  Forall (fun m => status m = "low" \/ status m = "high")
         (alert_events (trace w)).

(** In the trace [t] every broadcast of an alert comes after the upsert of
    the snapshot of the same sensor and value and after the broadcast of
    that snapshot, in this order. *)
Definition update_before_alert (t : list effect) : Prop :=
  forall (i : nat) (m : alert_msg),
    t !! i = Some (io_emitted (sensor_alert m)) ->
    exists (j k : nat) (row : sensor_row),
      (j < k < i)%nat
      /\ t !! j = Some (sql_upsert_sensors row)
      /\ t !! k = Some (io_emitted (sensor_updated row))
      /\ sn_name row = sensor m /\ sn_value row = value m.

(** In the list of events [l] every alert comes after the updated snapshot
    of the same sensor and value. *)
Definition alert_follows_update (l : list event) : Prop :=
  forall (i : nat) (m : alert_msg),
    l !! i = Some (sensor_alert m) ->
    exists (k : nat) (row : sensor_row),
      (k < i)%nat /\ l !! k = Some (sensor_updated row)
      /\ sn_name row = sensor m /\ sn_value row = value m.

(** The effects [t] of one call are in order: in the trace, and in what any
    socket, connected or not when the call starts, receives of them. *)
Definition ordered_call (t : list effect) : Prop :=
  update_before_alert t
  /\ forall (id : string) (connected : bool),
       alert_follows_update (received_from id connected t).

(** An effect that sends nothing but a broadcast of the handlers to the
    socket [id]. *)
Definition foreign (id : string) (x : effect) : Prop :=
  match x with
  | socket_emitted id' _ | socket_connected id' => id' <> id
  | io_emitted e => broadcastable e
  | _ => True
  end.

(** ** Frames and outcomes of whole calls *)

(** Every call of [m] ends in a world that [R] relates to the one it
    started in. *)
Definition preserves (R : World -> World -> Prop) {A : Type} (m : M A) : Prop :=
  forall w, R w (snd (m w)).

(** [m] never throws. *)
Definition returns {A : Type} (m : M A) : Prop :=
  forall w, exists a, fst (m w) = Return a.

(** The three tables of [w'] are those of [w]. *)
Definition same_tables (w w' : World) : Prop :=
  sensor_data w' = sensor_data w /\ sensors w' = sensors w
  /\ alerts w' = alerts w.

(** Between [w] and [w'] nothing was broadcast with [io.emit]. *)
Definition no_broadcast (w w' : World) : Prop :=
  exists t, trace w' = trace w ++ t /\ emitted t = [].

(** The readings of [w] are still there in [w'], in their places; what was
    added comes after them. *)
Definition readings_kept (w w' : World) : Prop :=
  exists added, sensor_data w' = sensor_data w ++ added.

(** The same for the alerts. *)
Definition alerts_kept (w w' : World) : Prop :=
  exists added, alerts w' = alerts w ++ added.

(** The snapshots of [w] are still there in [w'], each with its [id] and its
    name and in its place; new sensors come after them. *)
Definition snapshots_kept (w w' : World) : Prop :=
  exists added,
    map (fun r => (sn_id r, sn_name r)) (sensors w')
    = map (fun r => (sn_id r, sn_name r)) (sensors w) ++ added.

(** What [for (const s of seeds)] writes for one seed. *)
Definition seed_fields (s : string * Q * string) : string * Q * option string :=
  let '(name, val, unit_) := s in (name, val, Some unit_).

Definition reading_fields (r : reading_row) : string * Q * option string :=
  (rd_sensor_name r, rd_value r, rd_unit r).

Definition snapshot_fields (r : sensor_row) : string * Q * option string :=
  (sn_name r, sn_value r, sn_unit r).

(** A reading of a configured sensor whose value lies in the interval to
    which [nextValue] clamps for that sensor. *)
Definition within_clamp (r : reading_row) : Prop :=
  exists thr,
    In (rd_sensor_name r, thr) THRESHOLDS
    /\ min thr - baseDrift (rd_sensor_name r) * 6 <= rd_value r
    /\ rd_value r <= max thr + baseDrift (rd_sensor_name r) * 6.

(** The string of [k] slashes. *)
Fixpoint slashes (k : nat) : string :=
  match k with
  | O => EmptyString
  | S n => String "/" (slashes n)
  end.

(** What [ai_ping] makes of the answer of the AI service. *)
Definition ai_of_reply (r : fetch_result) : ai_health :=
  match r with
  | fetch_rejects | fetch_response true _ None => ai_failed
  | fetch_response true _ (Some j) => ai_json j
  | fetch_response false status _ => ai_not_ok status
  end.

(** [es.join(",")] *)
Fixpoint join_commas (es : list string) : string :=
  match es with
  | [] => EmptyString
  | [e] => e
  | e :: rest => (e ++ "," ++ join_commas rest)%string
  end.

Fixpoint no_comma (s : string) : bool :=
  match s with
  | EmptyString => true
  | String c rest => negb (Ascii.eqb c ",") && no_comma rest
  end.

(** The string of [k] spaces. *)
Fixpoint spaces (k : nat) : string :=
  match k with
  | O => EmptyString
  | S n => String " " (spaces n)
  end.

(** [o] is not empty and neither starts nor ends with white space. *)
Definition tidy (o : string) : bool :=
  negb (String.eqb o "")
  && match find (fun c => String.prefix c o) whitespace,
           find (fun c => String.prefix c (rev_string o ""))
                (map (fun c => rev_string c "") whitespace) with
     | None, None => true
     | _, _ => false
     end.

(** [CORS_ORIGIN] written as the origins of [ps], each after its number of
    spaces, with commas between them. *)
Definition written (ps : list (nat * string)) : string :=
  join_commas (map (fun p => (spaces (fst p) ++ snd p)%string) ps).

(** None of the next [n] queries on the accounts throws. *)
Definition no_faults (n : nat) (fs : list bool) : bool :=
  forallb negb (take n fs).

(** A row that [ensureUsers] has made from one of its defaults. *)
Definition seeded_by (hashPassword : string -> outcome string)
  (u : Accounts.user_row) : Prop :=
  exists password,
    In (Accounts.us_email u, password, Accounts.us_role u) Accounts.defaults
    /\ hashPassword password = Return (Accounts.us_password_hash u).

(** The ticks of the oracle that a call has consumed account for the way it
    ended: it returned and none of them made a query throw, or it threw at
    the last of them. *)
Definition accounts_for {A : Type} (used : list tick) (o : outcome A) : Prop :=
  match o with
  | Return _ => Forall (fun t => fails t = false) used
  | Throw _ =>
      exists pre t,
        used = pre ++ [t] /\ Forall (fun t => fails t = false) pre
        /\ fails t = true
  end.

(** [m] makes at most [n] queries and throws exactly when one of them
    does. *)
Definition spends (n : nat) {A : Type} (m : M A) : Prop :=
  forall w,
    exists used,
      oracle w = used ++ oracle (snd (m w))
      /\ (length used <= n)%nat
      /\ accounts_for used (fst (m w)).

(** The rows of the [INSERT INTO alerts] statements of [t], oldest first. *)
Fixpoint alert_inserts (t : list effect) : list alert_row :=
  match t with
  | [] => []
  | sql_insert_alerts a :: rest => a :: alert_inserts rest
  | _ :: rest => alert_inserts rest
  end.

(** Between [w] and [w'] the alerts broadcast are those stored, in the
    same order. *)
Definition stored_as_broadcast (w w' : World) : Prop :=
  exists t,
    trace w' = trace w ++ t
    /\ alert_events t = map to_msg (alert_inserts t).

(** The same, and the rows stored are what was added to the table. *)
Definition stored_and_kept (w w' : World) : Prop :=
  exists t,
    trace w' = trace w ++ t
    /\ alerts w' = alerts w ++ alert_inserts t
    /\ alert_events t = map to_msg (alert_inserts t).

(** * Properties *)

(** ** Numbers and strings *)

Lemma Qltb_lt (x y : Q) : (x <? y) = true <-> x < y.
Proof.
  unfold Qltb. rewrite Qlt_alt.
  destruct (x ?= y); split; congruence.
Qed.

Lemma Qltb_ge (x y : Q) : (x <? y) = false <-> y <= x.
Proof.
  rewrite <- not_true_iff_false, Qltb_lt. split.
  - apply Qnot_lt_le.
  - apply Qle_not_lt.
Qed.

Lemma Qgtb_gt (x y : Q) : (x >? y) = true <-> y < x.
Proof. apply Qltb_lt. Qed.

Lemma Qgtb_le (x y : Q) : (x >? y) = false <-> x <= y.
Proof. apply Qltb_ge. Qed.

(** ** Rounding to the nearest double *)

Lemma pow2_pos k : 0 < 2 ^ k.
Proof. apply Qpower_0_lt. reflexivity. Qed.

Lemma pow2_Z k : (0 <= k)%Z -> inject_Z (2 ^ k) == 2 ^ k.
Proof. intros H. now rewrite Zpower_Qpower. Qed.

Lemma pow2_le a b : (a <= b)%Z -> 2 ^ a <= 2 ^ b.
Proof. intros H. apply Qpower_le_compat_l; [exact H|discriminate]. Qed.

Lemma pow2_lt a b : (a < b)%Z -> 2 ^ a < 2 ^ b.
Proof. intros H. apply Qpower_lt_compat_l; [exact H|reflexivity]. Qed.

Lemma pow2_lt_inv a b : 2 ^ a < 2 ^ b -> (a < b)%Z.
Proof. intros H. apply (Qpower_lt_compat_l_inv 2); [exact H|reflexivity]. Qed.

Lemma pow2_add a b : 2 ^ (a + b) == 2 ^ a * 2 ^ b.
Proof. apply Qpower_plus. discriminate. Qed.

Lemma pow2_opp a : 2 ^ (- a) == / 2 ^ a.
Proof. apply Qpower_opp. Qed.

Lemma inject_Z_pos (d : Z) : (0 < d)%Z -> 0 < inject_Z d.
Proof. intros H. change 0 with (inject_Z 0). now rewrite <- Zlt_Qlt. Qed.

(** Scaling a fraction by a power of two, in integers. *)
Lemma scale_spec (n d e : Z) :
  (0 < d)%Z ->
  inject_Z (n * 2 ^ Z.max (- e) 0) / inject_Z (d * 2 ^ Z.max e 0)
  == inject_Z n / inject_Z d / 2 ^ e.
Proof.
  intros Hd.
  pose proof (inject_Z_pos d Hd) as Hd'.
  pose proof (pow2_pos e) as He. pose proof (pow2_pos (- e)) as Hne.
  destruct (Z.le_ge_cases 0 e) as [H|H].
  - rewrite (Z.max_r (- e) 0), (Z.max_l e 0) by lia.
    rewrite Z.pow_0_r, Z.mul_1_r, inject_Z_mult, pow2_Z by lia.
    field. split; lra.
  - rewrite (Z.max_l (- e) 0), (Z.max_r e 0) by lia.
    rewrite Z.pow_0_r, Z.mul_1_r, inject_Z_mult, pow2_Z by lia.
    rewrite pow2_opp. field. split; lra.
Qed.

Lemma frac_ge_pow2 (n d k : Z) :
  (0 < d)%Z ->
  2 ^ k <= inject_Z n / inject_Z d
  <-> (d * 2 ^ Z.max k 0 <= n * 2 ^ Z.max (- k) 0)%Z.
Proof.
  intros Hd.
  assert (Hs : (0 < d * 2 ^ Z.max k 0)%Z).
  { apply Z.mul_pos_pos; [exact Hd|]. apply Z.pow_pos_nonneg; lia. }
  pose proof (inject_Z_pos _ Hs) as Hs'. pose proof (pow2_pos k) as Hk.
  pose proof (inject_Z_pos _ Hd) as Hd'.
  rewrite Zle_Qle.
  assert (E : inject_Z n / inject_Z d
              == inject_Z (n * 2 ^ Z.max (- k) 0) / inject_Z (d * 2 ^ Z.max k 0)
                 * 2 ^ k).
  { rewrite scale_spec by exact Hd. field. split; lra. }
  rewrite E. split; intros H.
  - apply (Qmult_le_r _ _ (2 ^ k)); [exact Hk|].
    apply (Qmult_le_r _ _ (/ inject_Z (d * 2 ^ Z.max k 0))).
    { now apply Qinv_lt_0_compat. }
    assert (E1 : inject_Z (d * 2 ^ Z.max k 0) * 2 ^ k
                 * / inject_Z (d * 2 ^ Z.max k 0) == 2 ^ k) by (field; lra).
    rewrite E1. unfold Qdiv in H. lra.
  - assert (1 <= inject_Z (n * 2 ^ Z.max (- k) 0) / inject_Z (d * 2 ^ Z.max k 0)).
    { apply Qle_shift_div_l; [exact Hs'|]. lra. }
    nra.
Qed.

Lemma binade_spec (n d : Z) :
  (0 < n)%Z -> (0 < d)%Z ->
  2 ^ binade n d <= inject_Z n / inject_Z d
  /\ inject_Z n / inject_Z d < 2 ^ (binade n d + 1).
Proof.
  intros Hn Hd.
  pose proof (inject_Z_pos _ Hd) as Hd'. pose proof (inject_Z_pos _ Hn) as Hn'.
  destruct (Z.log2_spec n Hn) as [Hn1 Hn2].
  destruct (Z.log2_spec d Hd) as [Hd1 Hd2].
  pose proof (Z.log2_nonneg n) as Hln. pose proof (Z.log2_nonneg d) as Hld.
  rewrite Zle_Qle, pow2_Z in Hn1, Hd1 by lia.
  rewrite Zlt_Qlt, pow2_Z in Hn2, Hd2 by lia.
  replace (Z.succ (Z.log2 n)) with (Z.log2 n + 1)%Z in Hn2 by lia.
  replace (Z.succ (Z.log2 d)) with (Z.log2 d + 1)%Z in Hd2 by lia.
  set (k := (Z.log2 n - Z.log2 d)%Z).
  assert (Hup : inject_Z n / inject_Z d < 2 ^ (k + 1)).
  { apply Qlt_shift_div_r; [exact Hd'|].
    replace (Z.log2 n + 1)%Z with (k + 1 + Z.log2 d)%Z in Hn2 by (unfold k; lia).
    rewrite pow2_add in Hn2. pose proof (pow2_pos (k + 1)). nra. }
  assert (Hlo : 2 ^ (k - 1) <= inject_Z n / inject_Z d).
  { apply Qle_shift_div_l; [exact Hd'|].
    replace (Z.log2 n) with (k - 1 + (Z.log2 d + 1))%Z in Hn1 by (unfold k; lia).
    rewrite pow2_add in Hn1. pose proof (pow2_pos (k - 1)). nra. }
  unfold binade. fold k.
  destruct (Z.leb_spec (d * 2 ^ Z.max k 0) (n * 2 ^ Z.max (- k) 0)) as [H|H].
  - split; [|exact Hup]. now apply frac_ge_pow2.
  - split; [exact Hlo|]. replace (k - 1 + 1)%Z with k by lia.
    apply Qnot_le_lt. intros Hc. apply (frac_ge_pow2 n d k Hd) in Hc. lia.
Qed.

Lemma nearest_even_eq (x y : Q) (m : Z) :
  x == y -> nearest_even x m -> nearest_even y m.
Proof. unfold nearest_even. intros E. now rewrite E. Qed.

(** The nearest integer, in integers. *)
Lemma nearest_even_Z (p r m : Z) :
  (0 < r)%Z ->
  nearest_even (inject_Z p / inject_Z r) m
  <-> (2 * Z.abs (p - m * r) <= r
       /\ (2 * Z.abs (p - m * r) = r -> Z.even m = true))%Z.
Proof.
  intros Hr. pose proof (inject_Z_pos _ Hr) as Hr'.
  assert (E : Qabs (inject_Z p / inject_Z r - inject_Z m)
              == inject_Z (Z.abs (p - m * r)) / inject_Z r).
  { assert (E1 : inject_Z p / inject_Z r - inject_Z m
                 == inject_Z (p - m * r) * / inject_Z r).
    { unfold Z.sub. rewrite inject_Z_plus, inject_Z_opp, inject_Z_mult.
      field. lra. }
    rewrite E1, Qabs_Qmult, (Qabs_pos (/ inject_Z r)).
    - unfold Qdiv. apply Qmult_comp; [|reflexivity].
      unfold Qabs, inject_Z. reflexivity.
    - apply Qlt_le_weak. now apply Qinv_lt_0_compat. }
  unfold nearest_even. rewrite E.
  assert (Hle : inject_Z (Z.abs (p - m * r)) / inject_Z r <= 1 # 2
                <-> (2 * Z.abs (p - m * r) <= r)%Z).
  { rewrite Zle_Qle, inject_Z_mult. split; intros H.
    - apply (Qmult_le_r _ _ (inject_Z r)) in H; [|exact Hr'].
      assert (E2 : inject_Z (Z.abs (p - m * r)) / inject_Z r * inject_Z r
                   == inject_Z (Z.abs (p - m * r))) by (field; lra).
      rewrite E2 in H. change (inject_Z 2) with 2. lra.
    - apply Qle_shift_div_r; [exact Hr'|]. change (inject_Z 2) with 2 in H. lra. }
  assert (Heq : inject_Z (Z.abs (p - m * r)) / inject_Z r == 1 # 2
                <-> (2 * Z.abs (p - m * r) = r)%Z).
  { rewrite <- (inject_Z_injective (2 * _)%Z r), inject_Z_mult.
    change (inject_Z 2) with 2. split; intros H.
    - assert (E2 : inject_Z (Z.abs (p - m * r))
                   == inject_Z (Z.abs (p - m * r)) / inject_Z r * inject_Z r)
        by (field; lra).
      rewrite E2, H. lra.
    - assert (E2 : inject_Z (Z.abs (p - m * r))
                   == inject_Z (Z.abs (p - m * r)) / inject_Z r * inject_Z r)
        by (field; lra).
      set (y := inject_Z (Z.abs (p - m * r)) / inject_Z r) in *. nra. }
  rewrite Hle, Heq. reflexivity.
Qed.

Lemma round_half_even_spec (p r : Z) :
  (0 < r)%Z -> nearest_even (inject_Z p / inject_Z r) (round_half_even p r).
Proof.
  intros Hr. apply nearest_even_Z; [exact Hr|].
  unfold round_half_even.
  pose proof (Z.div_mod p r ltac:(lia)) as Hp.
  pose proof (Z.mod_pos_bound p r Hr) as Hm.
  set (f := (p / r)%Z) in *. set (x := (p mod r)%Z) in *.
  destruct (Z.compare_spec (2 * x) r) as [Hc|Hc|Hc].
  - destruct (Z.even f) eqn:He.
    + split; [nia|]. intros _. exact He.
    + split; [nia|]. intros _. rewrite Z.even_add, He. reflexivity.
  - split; [nia|]. intros H. exfalso. nia.
  - split; [nia|]. intros H. exfalso. nia.
Qed.

Lemma Qabs_le_both (x y : Q) : Qabs x <= y -> - y <= x /\ x <= y.
Proof. apply Qabs_Qle_condition. Qed.

Lemma nearest_even_ge (x : Q) (m N : Z) :
  nearest_even x m -> inject_Z N <= x -> (N <= m)%Z.
Proof.
  intros [H _] Hx. apply Qabs_le_both in H as [_ H].
  destruct (Z.le_gt_cases N m) as [|Hc]; [assumption|exfalso].
  assert (m + 1 <= N)%Z as Hc' by lia.
  rewrite Zle_Qle, inject_Z_plus in Hc'. change (inject_Z 1) with 1 in Hc'. lra.
Qed.

Lemma nearest_even_le (x : Q) (m N : Z) :
  nearest_even x m -> x <= inject_Z N -> (m <= N)%Z.
Proof.
  intros [H _] Hx. apply Qabs_le_both in H as [H _].
  destruct (Z.le_gt_cases m N) as [|Hc]; [assumption|exfalso].
  assert (N + 1 <= m)%Z as Hc' by lia.
  rewrite Zle_Qle, inject_Z_plus in Hc'. change (inject_Z 1) with 1 in Hc'. lra.
Qed.

Lemma nearest_even_lt_half (x : Q) (m N : Z) :
  nearest_even x m -> x < inject_Z N - (1 # 2) -> (m < N)%Z.
Proof.
  intros [H _] Hx. apply Qabs_le_both in H as [H _].
  destruct (Z.lt_ge_cases m N) as [|Hc]; [assumption|exfalso].
  rewrite Zle_Qle in Hc. lra.
Qed.

Lemma nearest_even_ge_half (x : Q) (m N : Z) :
  nearest_even x m -> Z.even N = true -> inject_Z N - (1 # 2) <= x -> (N <= m)%Z.
Proof.
  intros [H He] HN Hx. pose proof H as H'. apply Qabs_le_both in H' as [_ H'].
  destruct (Z.le_gt_cases N m) as [|Hc]; [assumption|exfalso].
  assert (m + 1 <= N)%Z as Hc' by lia.
  rewrite Zle_Qle, inject_Z_plus in Hc'. change (inject_Z 1) with 1 in Hc'.
  assert (N - 1 <= m)%Z as Hm.
  { rewrite Zle_Qle. unfold Z.sub. rewrite inject_Z_plus, inject_Z_opp.
    change (inject_Z 1) with 1. lra. }
  assert (m = N - 1)%Z as -> by lia.
  assert (Z.even (N - 1) = true) as Hodd.
  { apply He. rewrite Qabs_pos by lra.
    unfold Z.sub. rewrite inject_Z_plus, inject_Z_opp in *.
    change (inject_Z 1) with 1 in *. lra. }
  rewrite Z.even_sub, HN in Hodd. discriminate.
Qed.

Lemma Qabs_frac (q : Q) :
  Qabs q == inject_Z (Z.abs (Qnum q)) / inject_Z (Zpos (Qden q)).
Proof. destruct q as [n d]. cbn [Qabs Qnum Qden]. apply Qmake_Qdiv. Qed.

Lemma OVERFLOW_pow2 : OVERFLOW == 2 ^ 1024 - 2 ^ 970.
Proof.
  unfold OVERFLOW, Z.sub. rewrite inject_Z_plus, inject_Z_opp.
  rewrite !pow2_Z by lia. reflexivity.
Qed.

Lemma Qnum_sign (q : Q) :
  ((Qnum q <? 0)%Z = true <-> q < 0) /\ ((Qnum q =? 0)%Z = true <-> q == 0).
Proof.
  destruct q as [n d]. unfold Qlt, Qeq. cbn [Qnum Qden].
  rewrite Z.ltb_lt, Z.eqb_eq. lia.
Qed.

Lemma nearest_double_parts (q : Q) :
  ~ q == 0 ->
  let k := binade (Z.abs (Qnum q)) (Zpos (Qden q)) in
  let e := Z.max (k - 52) (-1074) in
  let m := round_half_even (Z.abs (Qnum q) * 2 ^ Z.max (- e) 0)
                           (Zpos (Qden q) * 2 ^ Z.max e 0) in
  in_binade k q
  /\ nearest_even (Qabs q / 2 ^ e) m
  /\ nearest_double q
     == (if (Qnum q <? 0)%Z then - (inject_Z m * 2 ^ e) else inject_Z m * 2 ^ e).
Proof.
  intros Hq k e m.
  assert (Hn : (0 < Z.abs (Qnum q))%Z).
  { destruct (Qnum_sign q) as [_ H0].
    destruct (Z.eqb_spec (Qnum q) 0) as [E|E]; [|lia].
    exfalso. apply Hq. now apply H0. }
  split; [|split].
  - unfold in_binade. rewrite Qabs_frac. now apply binade_spec.
  - eapply nearest_even_eq;
      [rewrite Qabs_frac, <- scale_spec by reflexivity; reflexivity|].
    apply round_half_even_spec.
    apply Z.mul_pos_pos; [reflexivity|]. apply Z.pow_pos_nonneg; lia.
  - unfold nearest_double. fold k. fold e. fold m.
    destruct (Z.eqb_spec (Z.abs (Qnum q)) 0) as [E|_]; [lia|].
    destruct (Qnum q <? 0)%Z; rewrite Qred_correct; reflexivity.
Qed.

Section Mantissa.
Variables (q : Q) (k m : Z).
Let e := Z.max (k - 52) (-1074).
Hypothesis Hk : in_binade k q.
Hypothesis Hm : nearest_even (Qabs q / 2 ^ e) m.

Lemma scaled_bounds :
  2 ^ (k - e) <= Qabs q / 2 ^ e /\ Qabs q / 2 ^ e < 2 ^ (k + 1 - e).
Proof using Hk.
  destruct Hk as [H1 H2]. pose proof (pow2_pos e) as He.
  split.
  - apply Qle_shift_div_l; [exact He|].
    rewrite <- pow2_add. now replace (k - e + e)%Z with k by lia.
  - apply Qlt_shift_div_r; [exact He|].
    rewrite <- pow2_add. now replace (k + 1 - e + e)%Z with (k + 1)%Z by lia.
Qed.

Lemma mantissa_le : (0 <= m <= 2 ^ 53)%Z.
Proof using Hk Hm.
  destruct scaled_bounds as [H1 H2].
  pose proof (pow2_pos (k - e)) as Hp.
  split.
  - apply (nearest_even_ge _ _ _ Hm). change (inject_Z 0) with 0. lra.
  - apply (nearest_even_le _ _ _ Hm). rewrite pow2_Z by lia.
    apply Qlt_le_weak, (Qlt_le_trans _ _ _ H2), pow2_le. subst e. lia.
Qed.

Lemma mantissa_ge : (-1022 <= k)%Z -> (2 ^ 52 <= m)%Z.
Proof using Hk Hm.
  intros Hn. destruct scaled_bounds as [H1 _].
  apply (nearest_even_ge _ _ _ Hm). rewrite pow2_Z by lia.
  replace (k - e)%Z with 52%Z in H1 by (subst e; lia). exact H1.
Qed.

Lemma overflow_iff : 2 ^ 1024 <= inject_Z m * 2 ^ e <-> OVERFLOW <= Qabs q.
Proof using Hk Hm.
  rewrite OVERFLOW_pow2.
  destruct Hk as [Hk1 Hk2]. destruct scaled_bounds as [Hs1 Hs2].
  pose proof (pow2_pos e) as He. pose proof mantissa_le as [Hm0 Hm53].
  assert (E970 : 2 ^ 971 == 2 * 2 ^ 970) by (now rewrite <- (pow2_add 1 970)).
  assert (E1024 : 2 ^ 1024 == 2 ^ 53 * 2 ^ 971) by (now rewrite <- pow2_add).
  assert (E1023 : 2 ^ 1024 == 2 * 2 ^ 1023) by (now rewrite <- (pow2_add 1 1023)).
  pose proof (pow2_pos 970) as P970. pose proof (pow2_pos 53) as P53.
  assert (Hx : Qabs q == Qabs q / 2 ^ e * 2 ^ e) by (field; lra).
  split; intros H.
  - (* the rounded magnitude reaches 2^1024 *)
    assert (1023 <= k)%Z as Hk1023.
    { destruct (Z.le_gt_cases 1023 k) as [|Hc]; [assumption|exfalso].
      assert (inject_Z m * 2 ^ e <= 2 ^ 53 * 2 ^ e) as Hr.
      { apply Qmult_le_compat_r; [|lra]. rewrite <- pow2_Z by lia.
        now rewrite <- Zle_Qle. }
      rewrite <- pow2_add in Hr.
      assert (2 ^ (53 + e) <= 2 ^ 1023) by (apply pow2_le; subst e; lia).
      pose proof (pow2_pos 1023). lra. }
    destruct (Z.eq_dec k 1023%Z) as [->|Hne].
    + replace e with 971%Z in * by (subst e; lia).
      assert (2 ^ 53 <= m)%Z as Hm'.
      { destruct (Z.le_gt_cases (2 ^ 53) m) as [|Hc]; [assumption|exfalso].
        assert (m + 1 <= 2 ^ 53)%Z as Hc' by lia.
        rewrite Zle_Qle, inject_Z_plus, pow2_Z in Hc' by lia.
        change (inject_Z 1) with 1 in Hc'.
        pose proof (pow2_pos 971). nra. }
      assert (inject_Z (2 ^ 53) - (1 # 2) <= Qabs q / 2 ^ 971) as Hhalf.
      { destruct Hm as [Hd _]. apply Qabs_le_both in Hd as [Hd _].
        rewrite Zle_Qle in Hm'. lra. }
      rewrite pow2_Z in Hhalf by lia. rewrite Hx, E1024, E970.
      pose proof (pow2_pos 971). rewrite E970 in *. nra.
    + apply Qle_trans with (2 ^ 1024); [lra|].
      apply Qle_trans with (2 ^ k); [apply pow2_le; lia|exact Hk1].
  - (* the magnitude reaches the bound *)
    assert (1023 <= k)%Z as Hk1023.
    { assert (2 ^ 1023 < 2 ^ (k + 1)) as Hc.
      { apply Qle_lt_trans with (Qabs q); [|exact Hk2]. lra. }
      apply pow2_lt_inv in Hc. lia. }
    destruct (Z.eq_dec k 1023%Z) as [->|Hne].
    + replace e with 971%Z in * by (subst e; lia).
      assert (2 ^ 53 <= m)%Z as Hm'.
      { apply (nearest_even_ge_half _ _ _ Hm); [reflexivity|].
        rewrite pow2_Z by lia.
        apply Qle_shift_div_l; [exact He|]. rewrite E970. lra. }
      rewrite Zle_Qle, pow2_Z in Hm' by lia. rewrite E1024.
      apply Qmult_le_compat_r; [exact Hm'|lra].
    + pose proof (mantissa_ge ltac:(lia)) as Hm'.
      rewrite Zle_Qle, pow2_Z in Hm' by lia.
      apply Qle_trans with (2 ^ 52 * 2 ^ e).
      * rewrite <- pow2_add. apply pow2_le. subst e. lia.
      * apply Qmult_le_compat_r; [exact Hm'|lra].
Qed.

End Mantissa.

Theorem round_number_rounds (q : Q) : rounds_to q (round_number q).
Proof.
  destruct (Qeq_dec q 0) as [Hq|Hq].
  - left. split; [exact Hq|]. unfold round_number.
    assert (Qle_bool OVERFLOW (Qabs q) = false) as ->.
    { destruct (Qle_bool OVERFLOW (Qabs q)) eqn:E; [|reflexivity].
      apply Qle_bool_iff in E. rewrite Hq in E. apply Qle_not_lt in E.
      exfalso. apply E. reflexivity. }
    cbn. unfold nearest_double.
    destruct (Qnum_sign q) as [_ H0]. apply H0 in Hq. rewrite Z.eqb_eq in Hq.
    now rewrite Hq.
  - right. destruct (nearest_double_parts q Hq) as (Hk & Hm & Hd).
    eexists _, _. cbv zeta. split; [exact Hk|]. split; [exact Hm|].
    pose proof (overflow_iff q _ _ Hk Hm) as Hov.
    destruct (Qnum_sign q) as [Hneg _].
    assert (Hsign : (q < 0 /\ (q <? 0) = true /\ (Qnum q <? 0)%Z = true)
                    \/ (0 < q /\ (q <? 0) = false /\ (Qnum q <? 0)%Z = false)).
    { unfold Qltb. destruct (Qcompare_spec q 0) as [E|E|E].
      - contradiction.
      - left. split; [exact E|]. split; [reflexivity|]. now apply Hneg.
      - right. split; [exact E|]. split; [reflexivity|].
        destruct (Qnum q <? 0)%Z; [|reflexivity].
        exfalso. assert (q < 0) by now apply Hneg. lra. }
    unfold round_number. destruct (Qle_bool OVERFLOW (Qabs q)) eqn:E.
    + right. apply Qle_bool_iff in E. split; [now apply Hov|].
      destruct Hsign as [(H1 & -> & _)|(H1 & -> & _)]; auto.
    + left. split.
      * apply Qnot_le_lt. intros Hc. apply Hov in Hc.
        apply Qle_bool_iff in Hc. congruence.
      * destruct Hsign as [(H1 & _ & H2)|(H1 & _ & H2)]; rewrite H2 in Hd;
          [right|left]; (split; [exact H1|exact Hd]).
Qed.

Lemma in_binade_unique (q : Q) (k1 k2 : Z) :
  in_binade k1 q -> in_binade k2 q -> k1 = k2.
Proof.
  intros [L1 U1] [L2 U2].
  assert (2 ^ k1 < 2 ^ (k2 + 1)) as H1 by (eapply Qle_lt_trans; eauto).
  assert (2 ^ k2 < 2 ^ (k1 + 1)) as H2 by (eapply Qle_lt_trans; eauto).
  apply pow2_lt_inv in H1, H2. lia.
Qed.

Lemma in_binade_nonzero (q : Q) (k : Z) : in_binade k q -> ~ q == 0.
Proof.
  intros [L _] H. rewrite H in L. pose proof (pow2_pos k) as P.
  change (Qabs 0) with 0 in L. lra.
Qed.

Lemma nearest_even_unique (x : Q) (m1 m2 : Z) :
  nearest_even x m1 -> nearest_even x m2 -> m1 = m2.
Proof.
  intros [H1 E1] [H2 E2].
  pose proof H1 as H1'. pose proof H2 as H2'.
  apply Qabs_le_both in H1' as [A1 B1]. apply Qabs_le_both in H2' as [A2 B2].
  destruct (Z.lt_trichotomy m1 m2) as [Hlt|[Heq|Hlt]]; [|exact Heq|]; exfalso.
  - assert (m1 + 1 <= m2)%Z as Hc by lia.
    rewrite Zle_Qle, inject_Z_plus in Hc. change (inject_Z 1) with 1 in Hc.
    assert (m2 = m1 + 1)%Z as ->.
    { apply Z.le_antisymm; [|lia]. rewrite Zle_Qle, inject_Z_plus.
      change (inject_Z 1) with 1. lra. }
    rewrite inject_Z_plus in *. change (inject_Z 1) with 1 in *.
    assert (Z.even m1 = true) as Ev1 by (apply E1; rewrite Qabs_pos; lra).
    assert (Z.even (m1 + 1) = true) as Ev2 by (apply E2; rewrite Qabs_neg; lra).
    rewrite Z.even_add, Ev1 in Ev2. discriminate.
  - assert (m2 + 1 <= m1)%Z as Hc by lia.
    rewrite Zle_Qle, inject_Z_plus in Hc. change (inject_Z 1) with 1 in Hc.
    assert (m1 = m2 + 1)%Z as ->.
    { apply Z.le_antisymm; [|lia]. rewrite Zle_Qle, inject_Z_plus.
      change (inject_Z 1) with 1. lra. }
    rewrite inject_Z_plus in *. change (inject_Z 1) with 1 in *.
    assert (Z.even m2 = true) as Ev2 by (apply E2; rewrite Qabs_pos; lra).
    assert (Z.even (m2 + 1) = true) as Ev1 by (apply E1; rewrite Qabs_neg; lra).
    rewrite Z.even_add, Ev2 in Ev1. discriminate.
Qed.

(** Rounding has one result. *)
Lemma rounds_to_unique (q : Q) (x y : jsnumber) :
  rounds_to q x -> rounds_to q y ->
  match x, y with
  | Fin a, Fin b => a == b
  | _, _ => x = y
  end.
Proof.
  intros [[Hq Hx]|(k1 & m1 & Hk1 & Hm1 & Hx)] [[Hq' Hy]|(k2 & m2 & Hk2 & Hm2 & Hy)].
  - destruct x, y; try contradiction. cbn in Hx, Hy. now rewrite Hx, Hy.
  - now apply in_binade_nonzero in Hk2.
  - now apply in_binade_nonzero in Hk1.
  - pose proof (in_binade_unique _ _ _ Hk1 Hk2) as <-.
    pose proof (nearest_even_unique _ _ _ Hm1 Hm2) as <-.
    cbv zeta in Hx, Hy.
    destruct x as [a| | |], y as [b| | |]; cbn [is_number] in Hx, Hy;
      destruct Hx as [(Hr & [[Hs Hx]|[Hs Hx]])|(Hr & [[Hs Hx]|[Hs Hx]])];
      destruct Hy as [(Hr' & [[Hs' Hy]|[Hs' Hy]])|(Hr' & [[Hs' Hy]|[Hs' Hy]])];
      try (exfalso; lra); try contradiction; try discriminate;
      try reflexivity; now rewrite Hx, Hy.
Qed.

(** Rounding does not go below a double that the number reaches. *)
Lemma rounds_to_ge (q c : Q) (x : jsnumber) (N kc : Z) :
  c == inject_Z N * 2 ^ (kc - 52) ->
  (2 ^ 52 <= N < 2 ^ 53)%Z -> (-1022 <= kc)%Z ->
  rounds_to q x -> c <= Qabs q ->
  forall d, x = Fin d -> c <= Qabs d.
Proof.
  intros Hc [HN1 HN2] Hkc Hr Hq d ->.
  rewrite Zle_Qle, pow2_Z in HN1 by lia. rewrite Zlt_Qlt, pow2_Z in HN2 by lia.
  pose proof (pow2_pos (kc - 52)) as Pc. pose proof (pow2_pos 52) as P52.
  assert (Hc1 : 2 ^ kc <= c).
  { rewrite Hc. replace kc with (52 + (kc - 52))%Z at 1 by lia.
    rewrite pow2_add. apply Qmult_le_compat_r; lra. }
  assert (Hc2 : c < 2 ^ (kc + 1)).
  { rewrite Hc. replace (kc + 1)%Z with (53 + (kc - 52))%Z by lia.
    rewrite pow2_add. apply Qmult_lt_compat_r; lra. }
  pose proof (pow2_pos kc) as Pkc.
  destruct Hr as [[Hq0 _]|(k & m & Hk & Hm & Hx)].
  { rewrite Hq0 in Hq. change (Qabs 0) with 0 in Hq. lra. }
  cbv zeta in Hx. set (e := Z.max (k - 52) (-1074)) in *.
  assert (Hd : Qabs d == inject_Z m * 2 ^ e).
  { pose proof (mantissa_le q k m Hk Hm) as [Hm0 _].
    rewrite Zle_Qle in Hm0. change (inject_Z 0) with 0 in Hm0.
    pose proof (pow2_pos e) as Pe.
    assert (0 <= inject_Z m * 2 ^ e) by nra.
    destruct Hx as [(_ & [[_ Hx]|[_ Hx]])|(_ & [[_ Hx]|[_ Hx]])];
      try discriminate; cbn in Hx; rewrite Hx.
    - now apply Qabs_pos.
    - rewrite Qabs_opp. now apply Qabs_pos. }
  rewrite Hd. pose proof Hk as [Lk Uk]. pose proof (pow2_pos e) as Pe.
  assert (kc <= k)%Z as Hkk.
  { assert (2 ^ kc < 2 ^ (k + 1)) as H by lra. apply pow2_lt_inv in H. lia. }
  destruct (Z.eq_dec k kc) as [->|Hne].
  - replace e with (kc - 52)%Z in * by (subst e; lia).
    assert (N <= m)%Z as HNm.
    { apply (nearest_even_ge _ _ _ Hm).
      apply Qle_shift_div_l; [exact Pc|]. now rewrite <- Hc. }
    rewrite Zle_Qle in HNm. rewrite Hc. apply Qmult_le_compat_r; lra.
  - pose proof (mantissa_ge q k m Hk Hm ltac:(lia)) as Hm52.
    rewrite Zle_Qle, pow2_Z in Hm52 by lia. fold e in Hm52.
    apply Qle_trans with (2 ^ (kc + 1)); [lra|].
    apply Qle_trans with (2 ^ 52 * 2 ^ e).
    + rewrite <- pow2_add. apply pow2_le. subst e. lia.
    + apply Qmult_le_compat_r; lra.
Qed.

Example round_number_examples :
  round_number (1 # 10) = Fin (3602879701896397 # 36028797018963968)
  /\ StringToNumber "9007199254740993" = Fin 9007199254740992
  /\ StringToNumber "1e-400" = Fin 0
  /\ StringToNumber "-1e400" = NegInfinity
  /\ minus (round_number (323 # 10)) (round_number (318 # 10))
     = Fin (140737488355327 # 281474976710656)
  /\ minus (Fin (1 # 2)) (Fin (1 # 2 ^ 60)) = Fin (1 # 2).
Proof. by vm_compute. Qed.

Example StringToNumber_examples :
  is_number (StringToNumber " 12.5 ") (25 # 2)
  /\ StringToNumber "abc" = NaN
  /\ is_number (StringToNumber "") 0
  /\ is_number (StringToNumber "  ") 0
  /\ StringToNumber "-Infinity" = NegInfinity
  /\ is_number (StringToNumber "0x1F") 31
  /\ is_number (StringToNumber "1e3") 1000
  /\ StringToNumber "1e999" = PosInfinity
  /\ StringToNumber "1 2" = NaN
  /\ is_number (StringToNumber "+.5e1") 5
  /\ is_number (StringToNumber "-7.") (-7)
  /\ StringToNumber "." = NaN
  /\ StringToNumber "-0x10" = NaN.
Proof. vm_compute. repeat split. Qed.

Example toNumber_examples :
  toNumber (JNumber (Fin (3 # 2))) == 3 # 2
  /\ toNumber (JString "42") == 42
  /\ toNumber JNull == 0
  /\ toNumber (JBool true) == 1
  /\ toNumber (JNumber PosInfinity) == 0
  /\ toNumber (JString "12px") == 0
  /\ toNumber JObject == 0.
Proof. vm_compute. repeat split. Qed.

Example toFixed_2_examples :
  toFixed_2 (1 # 8) == 13 # 100
  /\ toFixed_2 (- (1 # 8)) == - (13 # 100)
  /\ toFixed_2 (30 + (1 # 4)) == 3025 # 100
  /\ toFixed_2 (- (5996 # 1000)) == - 6.
Proof. vm_compute. repeat split. Qed.

(** ** The evaluator *)

Lemma assoc_In {A : Type} (name : string) (l : list (string * A)) (a : A) :
  assoc name l = Some a -> In (name, a) l.
Proof.
  induction l as [|[k b] l IH]; simpl; [discriminate|].
  destruct (String.eqb k name) eqn:E.
  - apply String.eqb_eq in E. intros [= ->]. left. now subst.
  - intros H. right. now apply IH.
Qed.

Lemma get_property_Own name thr :
  assoc name THRESHOLDS = Some thr -> get_property THRESHOLDS name = Own thr.
Proof. unfold get_property. now intros ->. Qed.

(** Every configured pair of bounds has its [min] below its [max]. *)
Lemma THRESHOLDS_ordered name thr :
  assoc name THRESHOLDS = Some thr -> min thr < max thr.
Proof.
  intros H. apply assoc_In in H. simpl in H.
  repeat (destruct H as [[= <- <-]|H]; [reflexivity|]).
  destruct H.
Qed.

Lemma withinAlertRange_Own name thr v :
  assoc name THRESHOLDS = Some thr ->
  withinAlertRange name v =
    if v >? max thr then Some "high"
    else if v <? min thr then Some "low"
    else None.
Proof.
  intros H. unfold withinAlertRange. now rewrite (get_property_Own _ _ H).
Qed.

(** C4.  For a sensor with configured bounds the evaluator answers [high]
    exactly above [max], [low] exactly below [min], and nothing ([null])
    exactly from [min] to [max], both bounds included. *)
Theorem withinAlertRange_classifies (name : string) (thr : threshold) (v : Q) :
  assoc name THRESHOLDS = Some thr ->
  (withinAlertRange name v = Some "high" <-> max thr < v)
  /\ (withinAlertRange name v = Some "low" <-> v < min thr)
  /\ (withinAlertRange name v = None <-> min thr <= v <= max thr)
  /\ (v == min thr \/ v == max thr -> withinAlertRange name v = None).
Proof.
  intros H. pose proof (THRESHOLDS_ordered _ _ H) as Hord.
  rewrite (withinAlertRange_Own _ _ _ H).
  destruct (v >? max thr) eqn:Ehi; [apply Qgtb_gt in Ehi|apply Qgtb_le in Ehi];
    (destruct (v <? min thr) eqn:Elo; [apply Qltb_lt in Elo|apply Qltb_ge in Elo]).
  all: repeat split; intros; try discriminate; try reflexivity; try lra.
  all: try (exfalso; lra).
  all: try (destruct H0; exfalso; lra).
Qed.

Lemma withinAlertRange_classifies_witness :
  withinAlertRange "Temperature Sensor 1" 28 = None
  /\ withinAlertRange "Temperature Sensor 1" 18 = None
  /\ withinAlertRange "Temperature Sensor 1" (2801 # 100) = Some "high"
  /\ withinAlertRange "Temperature Sensor 1" (1799 # 100) = Some "low".
Proof.
  pose proof (withinAlertRange_classifies "Temperature Sensor 1"
                {| min := 18; max := 28 |}) as H.
  split; [|split; [|split]].
  - apply (H 28 eq_refl). right. reflexivity.
  - apply (H 18 eq_refl). left. reflexivity.
  - apply (H (2801 # 100) eq_refl). reflexivity.
  - apply (H (1799 # 100) eq_refl). reflexivity.
Defined.

(** ** The category of a sensor *)

Lemma prefix_app (a b : string) :
  String.prefix a b = true <-> exists post, b = (a ++ post)%string.
Proof.
  revert b. induction a as [|c a IH]; intros b.
  - split; [intros _; now exists b | now destruct b].
  - destruct b as [|d b]; simpl.
    + split; [discriminate | intros [post [=]]].
    + destruct (ascii_dec c d) as [->|Hne].
      * rewrite IH. split; intros [post H]; exists post; congruence.
      * split; [discriminate | intros [post [= E _]]; now symmetry in E].
Qed.

Lemma includes_app (hay needle : string) :
  includes hay needle = true
  <-> exists pre post, hay = (pre ++ needle ++ post)%string.
Proof.
  induction hay as [|c hay IH].
  - cbn [includes]. rewrite orb_false_r, prefix_app. split.
    + intros [post H]. now exists ""%string, post.
    + intros [pre [post H]]. destruct pre; [now exists post|discriminate].
  - cbn [includes]. rewrite orb_true_iff, prefix_app, IH. split.
    + intros [[post H]|[pre [post H]]].
      * now exists ""%string, post.
      * exists (String c pre), post. simpl. now rewrite H.
    + intros [pre [post H]]. destruct pre as [|d pre].
      * left. now exists post.
      * right. exists pre, post. simpl in H. congruence.
Qed.

Lemma toLowerCase_app (a b : string) :
  toLowerCase (a ++ b)%string = (toLowerCase a ++ toLowerCase b)%string.
Proof. induction a as [|c a IH]; simpl; [reflexivity|now rewrite IH]. Qed.

Lemma toLowerCase_split (n a b : string) :
  toLowerCase n = (a ++ b)%string ->
  exists n1 n2, n = (n1 ++ n2)%string /\ toLowerCase n1 = a /\ toLowerCase n2 = b.
Proof.
  revert n. induction a as [|c a IH]; intros n H.
  - now exists ""%string, n.
  - destruct n as [|d n]; [discriminate|]. simpl in H.
    injection H as Hc Hrest. destruct (IH _ Hrest) as (n1 & n2 & -> & <- & <-).
    exists (String d n1), n2. simpl. now rewrite Hc.
Qed.

Lemma every_ascii (c : ascii) : In c (map ascii_of_nat (seq 0 256)).
Proof.
  rewrite <- (ascii_nat_embedding c). apply in_map, in_seq.
  pose proof (nat_ascii_bounded c). lia.
Qed.

(** Lowering a character gives a character that lowering leaves alone
    exactly when the two are the same letter. *)
Lemma lower_ascii_same_letter (c d : ascii) :
  lower_ascii d = d -> (lower_ascii c = d <-> same_letter c d = true).
Proof.
  assert (H : forallb (fun c =>
                forallb (fun d =>
                  implb (Ascii.eqb (lower_ascii d) d)
                        (Bool.eqb (Ascii.eqb (lower_ascii c) d) (same_letter c d)))
                  (map ascii_of_nat (seq 0 256)))
                (map ascii_of_nat (seq 0 256)) = true) by (by vm_compute).
  rewrite forallb_forall in H. specialize (H c (every_ascii c)).
  rewrite forallb_forall in H. specialize (H d (every_ascii d)).
  intros Hd. apply Ascii.eqb_eq in Hd. rewrite Hd in H. cbn [implb] in H.
  apply Bool.eqb_prop in H. rewrite <- H. symmetry. apply Ascii.eqb_eq.
Qed.

Lemma toLowerCase_same_ignoring_case (mid kw : string) :
  toLowerCase kw = kw ->
  (toLowerCase mid = kw <-> same_ignoring_case mid kw = true).
Proof.
  revert kw. induction mid as [|c mid IH]; intros [|d kw] Hkw;
    cbn [toLowerCase same_ignoring_case]; try by split.
  cbn [toLowerCase] in Hkw. injection Hkw as Hd Hkw.
  rewrite andb_true_iff, <- (IH kw Hkw), <- (lower_ascii_same_letter c d Hd).
  split; [by intros [= -> ->]|by intros [-> ->]].
Qed.

Lemma includes_mentions (n kw : string) :
  toLowerCase kw = kw ->
  (includes (toLowerCase n) kw = true <-> mentions n kw).
Proof.
  intros Hkw. rewrite includes_app. split.
  - intros (pre & post & H).
    apply toLowerCase_split in H as (n1 & n' & -> & _ & H).
    apply toLowerCase_split in H as (n2 & n3 & -> & H & _).
    exists n1, n2, n3. split; [reflexivity|].
    by apply toLowerCase_same_ignoring_case.
  - intros (pre & mid & post & -> & H).
    apply (toLowerCase_same_ignoring_case _ _ Hkw) in H as <-.
    exists (toLowerCase pre), (toLowerCase post).
    now rewrite !toLowerCase_app.
Qed.

(** C10.  The category is decided by the first of the keywords [temp],
    [humid], [co2], [light] that the name mentions, letter case ignored; a
    name that mentions several is classified by the earliest rule, a name
    that mentions none, the empty name included, is [other], and the dedup
    gate gives [other] the minimum delta 1. *)
Theorem kindFromName_priority (n : string) :
  (mentions n "temp" -> kindFromName n = "temperature")
  /\ (~ mentions n "temp" -> mentions n "humid" -> kindFromName n = "humidity")
  /\ (~ mentions n "temp" -> ~ mentions n "humid" -> mentions n "co2" ->
      kindFromName n = "co2")
  /\ (~ mentions n "temp" -> ~ mentions n "humid" -> ~ mentions n "co2" ->
      mentions n "light" -> kindFromName n = "light")
  /\ (~ mentions n "temp" -> ~ mentions n "humid" -> ~ mentions n "co2" ->
      ~ mentions n "light" ->
      kindFromName n = "other" /\ minDeltaOf (kindFromName n) = 1)
  /\ kindFromName "CO2/Temp Combo" = "temperature"
  /\ kindFromName "" = "other"
  /\ minDeltaOf "other" = 1.
Proof.
  unfold kindFromName. cbv zeta.
  rewrite <- !includes_mentions by reflexivity.
  destruct (includes (toLowerCase n) "temp");
    destruct (includes (toLowerCase n) "humid");
    destruct (includes (toLowerCase n) "co2");
    destruct (includes (toLowerCase n) "light").
  all: repeat match goal with |- _ /\ _ => split end.
  all: try reflexivity; intros; try reflexivity; try congruence.
  all: split; reflexivity.
Qed.

Lemma kindFromName_priority_witness :
  kindFromName "Humid TEMP light" = "temperature"
  /\ kindFromName "Light/CO2 probe" = "co2".
Proof.
  split.
  - apply (proj1 (kindFromName_priority "Humid TEMP light")).
    exists "Humid "%string, "TEMP"%string, " light"%string. split; reflexivity.
  - apply (proj1 (proj2 (proj2 (kindFromName_priority "Light/CO2 probe"))));
      rewrite <- includes_mentions by reflexivity; vm_compute; congruence.
Defined.

(** ** The synthetic generator *)

Lemma bind_Return {A B : Type} (m : M A) (k : A -> M B) w a w' :
  m w = (Return a, w') -> bind m k w = k a w'.
Proof. unfold bind. now intros ->. Qed.

Lemma bind_Throw {A B : Type} (m : M A) (k : A -> M B) w e w' :
  m w = (Throw e, w') -> bind m k w = (Throw e, w').
Proof. unfold bind. now intros ->. Qed.

Lemma Math_random_returns w : exists r w', Math_random w = (Return r, w').
Proof. unfold Math_random. destruct (entropy w); eauto. Qed.

(** [nextValue] always returns, and what it returns is the rounding of a
    clamped candidate. *)
Lemma nextValue_returns name last thr w :
  exists cand w',
    nextValue name last thr w =
      (Return (toFixed_2 (Qmax (min thr - baseDrift name * 6)
                               (Qmin (max thr + baseDrift name * 6) cand))), w').
Proof.
  unfold nextValue.
  destruct (Math_random_returns w) as (r1 & w1 & E1).
  rewrite (bind_Return _ _ _ _ _ E1).
  destruct (Math_random_returns w1) as (r2 & w2 & E2).
  rewrite (bind_Return _ _ _ _ _ E2).
  destruct (r2 <? pSpike name).
  - destruct (Math_random_returns w2) as (r3 & w3 & E3).
    destruct (Math_random_returns w3) as (r4 & w4 & E4).
    unfold bind. rewrite E3. cbv beta iota. rewrite E4. cbv beta iota.
    now eexists _, w4.
  - now eexists _, w2.
Qed.

Lemma clamp_between lo hi x :
  lo <= hi -> lo <= Qmax lo (Qmin hi x) <= hi.
Proof.
  intros H. split.
  - apply Q.le_max_l.
  - apply Q.max_lub; [exact H|apply Q.le_min_l].
Qed.

Lemma Qfloor_ge_Z (a : Z) (y : Q) : inject_Z a <= y -> (a <= Qfloor y)%Z.
Proof. intros H. rewrite <- (Qfloor_Z a). now apply Qfloor_resp_le. Qed.

Lemma Qfloor_le_Z (a : Z) (y : Q) : y < inject_Z a + 1 -> (Qfloor y <= a)%Z.
Proof.
  intros H. pose proof (Qfloor_le y) as Hf.
  assert (inject_Z (Qfloor y) < inject_Z (a + 1)) as Hlt.
  { rewrite inject_Z_plus. change (inject_Z 1) with 1. lra. }
  rewrite <- Zlt_Qlt in Hlt. lia.
Qed.

Lemma Qle_bool_false x y : x < y -> Qle_bool y x = false.
Proof.
  intros H. apply not_true_iff_false. rewrite Qle_bool_iff. lra.
Qed.

(** Below [10^21] the result of [toFixed_2] is a whole number of hundredths
    at most half a hundredth away from its argument, and it does not cross
    a bound that is itself a whole number of hundredths. *)
Lemma toFixed_2_small x :
  Qabs x < 10 ^ 21 ->
  (exists n : Z, toFixed_2 x == inject_Z n / 100)
  /\ Qabs (toFixed_2 x - x) <= 1 # 200
  /\ (forall a : Z, inject_Z a / 100 <= x -> inject_Z a / 100 <= toFixed_2 x)
  /\ (forall b : Z, x <= inject_Z b / 100 -> toFixed_2 x <= inject_Z b / 100).
Proof.
  intros Hx. unfold toFixed_2. rewrite (Qle_bool_false _ _ Hx).
  unfold Qdiv. change (/ 100) with (1 # 100).
  destruct (x <? 0) eqn:Hs; [apply Qltb_lt in Hs|apply Qltb_ge in Hs].
  - assert (Qfloor (Qabs x * 100 + (1 # 2)) = Qfloor (- x * 100 + (1 # 2))) as ->
      by (apply Qfloor_comp; rewrite Qabs_neg by lra; reflexivity).
    pose proof (Qfloor_le (- x * 100 + (1 # 2))) as Hle.
    pose proof (Qlt_floor (- x * 100 + (1 # 2))) as Hlt.
    set (n := Qfloor (- x * 100 + (1 # 2))) in *.
    rewrite inject_Z_plus in Hlt. change (inject_Z 1) with 1 in Hlt.
    split; [exists (- n)%Z; rewrite inject_Z_opp; ring|].
    split; [apply Qabs_Qle_condition; lra|].
    split.
    + intros a Ha.
      assert (n <= - a)%Z as Hn.
      { apply Qfloor_le_Z. rewrite inject_Z_opp. lra. }
      rewrite Zle_Qle in Hn. rewrite inject_Z_opp in Hn. lra.
    + intros b Hb.
      assert (- b <= n)%Z as Hn.
      { apply Qfloor_ge_Z. rewrite inject_Z_opp. lra. }
      rewrite Zle_Qle in Hn. rewrite inject_Z_opp in Hn. lra.
  - assert (Qfloor (Qabs x * 100 + (1 # 2)) = Qfloor (x * 100 + (1 # 2))) as ->
      by (apply Qfloor_comp; rewrite Qabs_pos by lra; reflexivity).
    pose proof (Qfloor_le (x * 100 + (1 # 2))) as Hle.
    pose proof (Qlt_floor (x * 100 + (1 # 2))) as Hlt.
    set (n := Qfloor (x * 100 + (1 # 2))) in *.
    rewrite inject_Z_plus in Hlt. change (inject_Z 1) with 1 in Hlt.
    split; [exists n; reflexivity|].
    split; [apply Qabs_Qle_condition; lra|].
    split.
    + intros a Ha.
      assert (a <= n)%Z as Hn by (apply Qfloor_ge_Z; lra).
      rewrite Zle_Qle in Hn. lra.
    + intros b Hb.
      assert (n <= b)%Z as Hn by (apply Qfloor_le_Z; lra).
      rewrite Zle_Qle in Hn. lra.
Qed.

(** The same without the bound on the magnitude: from [10^21] on the
    argument comes back as it is. *)
Lemma toFixed_2_near x :
  Qabs (toFixed_2 x - x) <= 1 # 200
  /\ (forall a : Z, inject_Z a / 100 <= x -> inject_Z a / 100 <= toFixed_2 x)
  /\ (forall b : Z, x <= inject_Z b / 100 -> toFixed_2 x <= inject_Z b / 100).
Proof.
  destruct (Qlt_le_dec (Qabs x) (10 ^ 21)) as [Hsmall|Hbig].
  - destruct (toFixed_2_small x Hsmall) as (_ & H). exact H.
  - unfold toFixed_2. apply Qle_bool_iff in Hbig. rewrite Hbig.
    split; [|auto]. apply Qabs_Qle_condition. lra.
Qed.

(** [nextValue] on any threshold whose clamp bounds [min - 6*drift] and
    [max + 6*drift] are in order: it returns the rounding to two decimals
    of a candidate clamped between them, at most half a hundredth away from
    the clamped candidate, a whole number of hundredths (for a candidate
    below [10^21] in magnitude), and inside the bounds when both bounds are
    whole numbers of hundredths. *)
Lemma nextValue_clamps_then_rounds
  (name : string) (last : Q) (thr : threshold) (w : World) :
  let lo := min thr - baseDrift name * 6 in
  let hi := max thr + baseDrift name * 6 in
  lo <= hi ->
  exists c v w',
    nextValue name last thr w = (Return v, w')
    /\ lo <= c <= hi
    /\ v = toFixed_2 c
    /\ Qabs (v - c) <= 1 # 200
    /\ (Qabs c < 10 ^ 21 -> exists n : Z, v == inject_Z n / 100)
    /\ ((exists a b : Z, lo == inject_Z a / 100 /\ hi == inject_Z b / 100) ->
        lo <= v <= hi).
Proof.
  intros lo hi Hord.
  destruct (nextValue_returns name last thr w) as (cand & w' & E).
  fold lo hi in E.
  set (c := Qmax lo (Qmin hi cand)) in E.
  assert (lo <= c <= hi) as Hc by (apply clamp_between; exact Hord).
  destruct (toFixed_2_near c) as (Hd & Hge & Hle).
  exists c, (toFixed_2 c), w'.
  split; [exact E|]. split; [exact Hc|]. split; [reflexivity|].
  split; [exact Hd|]. split.
  - intros Hsmall. apply (toFixed_2_small c Hsmall).
  - intros (a & b & Ha & Hb). split.
    + rewrite Ha. apply (Hge a). rewrite <- Ha. tauto.
    + rewrite Hb. apply (Hle b). rewrite <- Hb. tauto.
Qed.

(** For the four configured sensors the bounds of the clamp are whole
    numbers of hundredths (10.8 and 35.2, 6 and 84, -360 and 1160, -380 and
    1180), so that the next value is inside them whatever the baseline and
    the draws. *)
Lemma nextValue_configured name thr last w :
  In (name, thr) THRESHOLDS ->
  exists v w',
    nextValue name last thr w = (Return v, w')
    /\ min thr - baseDrift name * 6 <= v <= max thr + baseDrift name * 6.
Proof.
  intros Hin.
  destruct (nextValue_returns name last thr w) as (cand & w' & E).
  eexists _, w'. split; [exact E|].
  match goal with |- _ <= toFixed_2 ?x <= _ => set (c := x) end.
  destruct (toFixed_2_near c) as (_ & Hge & Hle).
  assert (exists a b : Z,
             min thr - baseDrift name * 6 == inject_Z a / 100
             /\ max thr + baseDrift name * 6 == inject_Z b / 100
             /\ (a <= b)%Z) as (a & b & Ha & Hb & Hab).
  { cbn in Hin.
    destruct Hin as [[= <- <-]|[[= <- <-]|[[= <- <-]|[[= <- <-]|[]]]]].
    - exists 1080%Z, 3520%Z. repeat split; discriminate.
    - exists 600%Z, 8400%Z. repeat split; discriminate.
    - exists (-36000)%Z, 116000%Z. repeat split; discriminate.
    - exists (-38000)%Z, 118000%Z. repeat split; discriminate. }
  assert (min thr - baseDrift name * 6 <= max thr + baseDrift name * 6) as Hord.
  { rewrite Ha, Hb. rewrite Zle_Qle in Hab. unfold Qdiv.
    change (/ 100) with (1 # 100). lra. }
  pose proof (clamp_between _ _ cand Hord) as Hc. fold c in Hc.
  split.
  - rewrite Ha. apply Hge. rewrite <- Ha. tauto.
  - rewrite Hb. apply Hle. rewrite <- Hb. tauto.
Qed.

(** C9.  For each of the sensors of [THRESHOLDS] with its thresholds, the
    only names and thresholds [simulateOnce] calls [nextValue] with, for
    every baseline value and every outcome of the random draws, the spike
    branch included, [nextValue] returns a value within the closed interval
    from [min - 6*drift] to [max + 6*drift] for the drift of the sensor's
    category, and the value is a whole number of hundredths: it is rounded
    to two decimals before [simulateOnce] feeds it to the pipeline. *)
Theorem nextValue_within_clamp_two_decimals
  (name : string) (thr : threshold) (last : Q) (w : World) :
  In (name, thr) THRESHOLDS ->
  exists v w',
    nextValue name last thr w = (Return v, w')
    /\ min thr - baseDrift name * 6 <= v <= max thr + baseDrift name * 6
    /\ exists n : Z, v == inject_Z n / 100.
Proof.
  intros Hin.
  assert (exists a b : Z,
             min thr - baseDrift name * 6 == inject_Z a / 100
             /\ max thr + baseDrift name * 6 == inject_Z b / 100
             /\ (-200000 <= a <= b)%Z /\ (b <= 200000)%Z)
    as (a & b & Ha & Hb & Hab & Hb').
  { cbn in Hin.
    destruct Hin as [[= <- <-]|[[= <- <-]|[[= <- <-]|[[= <- <-]|[]]]]].
    - exists 1080%Z, 3520%Z. repeat split; discriminate.
    - exists 600%Z, 8400%Z. repeat split; discriminate.
    - exists (-36000)%Z, 116000%Z. repeat split; discriminate.
    - exists (-38000)%Z, 118000%Z. repeat split; discriminate. }
  assert (Hbounds : -2000 <= min thr - baseDrift name * 6
                    /\ min thr - baseDrift name * 6
                       <= max thr + baseDrift name * 6
                    /\ max thr + baseDrift name * 6 <= 2000).
  { rewrite Ha, Hb. destruct Hab as [Ha' Hab].
    rewrite Zle_Qle in Ha', Hab, Hb'. unfold Qdiv.
    change (/ 100) with (1 # 100).
    change (inject_Z (-200000)) with (-200000) in Ha'.
    change (inject_Z 200000) with 200000 in Hb'. lra. }
  destruct Hbounds as (Hlo & Hord & Hhi).
  destruct (nextValue_clamps_then_rounds name last thr w Hord)
    as (c & v & w' & E & Hc & _ & _ & Hgrid & Hwithin).
  exists v, w'. split; [exact E|]. split.
  - apply Hwithin. by exists a, b.
  - apply Hgrid. apply Qabs_Qlt_condition.
    assert (2000 < 10 ^ 21) by reflexivity. lra.
Qed.

Lemma nextValue_within_clamp_two_decimals_witness :
  exists v w',
    nextValue "Temperature Sensor 1" 1000 {| min := 18; max := 28 |}
              (initial 0 [] [9 # 10; 1 # 2])
      = (Return v, w')
    /\ (108 # 10) <= v <= (352 # 10)
    /\ exists n : Z, v == inject_Z n / 100.
Proof.
  apply (nextValue_within_clamp_two_decimals
           "Temperature Sensor 1" {| min := 18; max := 28 |} 1000
           (initial 0 [] [9 # 10; 1 # 2])).
  cbn. by left.
Defined.

(** ** The dedup gate *)

#[local] Arguments Qabs : simpl never.
#[local] Arguments Qplus : simpl never.
#[local] Arguments Qminus : simpl never.
#[local] Arguments Qmult : simpl never.
#[local] Arguments Qopp : simpl never.
#[local] Arguments Qdiv : simpl never.
#[local] Arguments Qltb : simpl never.
#[local] Arguments Qgtb : simpl never.
#[local] Arguments Z.add : simpl never.
#[local] Arguments Z.sub : simpl never.
#[local] Arguments Z.ltb : simpl never.
#[local] Arguments minDeltaOf : simpl never.
#[local] Arguments kindFromName : simpl never.
#[local] Arguments withinAlertRange : simpl never.
#[local] Arguments toNumber : simpl never.
#[local] Arguments last_alert_rows : simpl never.
#[local] Arguments status_check : simpl never.
#[local] Arguments String.eqb : simpl never.

Lemma shouldInsert_false name val st rows w :
  fst (shouldInsert name val st rows w) = Return false
  <-> exists last rest, rows = last :: rest /\ repeats name val st (clock w) last.
Proof.
  unfold shouldInsert, repeats. destruct rows as [|last rest]; cbn.
  - split; [discriminate|]. intros (? & ? & [=] & _).
  - destruct (String.eqb_spec (al_status last) st) as [Hs|Hs];
      destruct (less_than _ _) eqn:Hd;
      destruct (Z.ltb_spec (clock w - al_triggered_at last) ALERT_COOLDOWN_MS) as [Ht|Ht];
      cbn.
    all: split; [try discriminate|intros (l & r & [= <- <-] & H1 & H2 & H3)].
    all: try (intros _; exists last, rest; tauto).
    all: try reflexivity; try contradiction; try lia; try congruence.
Qed.

Lemma no_fault_S n o :
  no_fault (S n) o = true <-> next_fails o = false /\ no_fault n (tail o) = true.
Proof.
  cbn [no_fault]. rewrite andb_true_iff, negb_true_iff. reflexivity.
Qed.

Lemma status_check_withinAlertRange name val st :
  withinAlertRange name val = Some st -> status_check st = true.
Proof.
  unfold withinAlertRange.
  destruct (get_property THRESHOLDS name) as [|thr|]; try discriminate.
  destruct (val >? max thr); [now intros [= <-]|].
  destruct (val <? min thr); [now intros [= <-]|discriminate].
Qed.

(** The alert branch when the lookup does not throw: a repeat leaves the
    world as the lookup left it. *)
Lemma alert_branch_repeat name val st w last rest :
  withinAlertRange name val = Some st ->
  next_fails (oracle w) = false ->
  last_alert_rows name (alerts w) = last :: rest ->
  repeats name val st (clock (advance w)) last ->
  alert_branch name val w = (Return tt, advance w).
Proof.
  intros Hst Hf Hrows Hrep.
  assert (fst (shouldInsert name val st (last :: rest) (advance w)) = Return false)
    as Hgate by (apply shouldInsert_false; eauto).
  unfold alert_branch, select_last_alert, pool_query, bind.
  rewrite Hst, Hf. cbn [alerts advance set_clock_oracle]. rewrite Hrows.
  revert Hgate. unfold shouldInsert, bind, Date_now, ret.
  destruct (_ && _ && _); [reflexivity|discriminate].
Qed.

(** The alert branch when neither query throws and the gate lets the alert
    through: one row more, one broadcast more. *)
Lemma alert_branch_raise name val st w :
  withinAlertRange name val = Some st ->
  no_fault 2 (oracle w) = true ->
  ~ (exists last rest,
        last_alert_rows name (alerts w) = last :: rest
        /\ repeats name val st (clock (advance w)) last) ->
  exists w',
    alert_branch name val w = (Return tt, w')
    /\ alerts w' = alerts w ++ [raised_row name val st w]
    /\ trace w' = trace w ++ [sql_insert_alerts (raised_row name val st w);
                              io_emitted (sensor_alert (raised_msg name val st w))]
    /\ sensor_data w' = sensor_data w /\ sensors w' = sensors w.
Proof.
  intros Hst Hnf Hnot.
  apply no_fault_S in Hnf as [Hf1 Hnf]. apply no_fault_S in Hnf as [Hf2 _].
  assert (fst (shouldInsert name val st (last_alert_rows name (alerts w))
                 (advance w)) = Return true) as Hgate.
  { destruct (shouldInsert _ _ _ _ _) as [[[|]|e] w0] eqn:E; cbn.
    - reflexivity.
    - exfalso. apply Hnot. apply shouldInsert_false. now rewrite E.
    - exfalso. revert E. unfold shouldInsert, bind, Date_now, ret.
      destruct (last_alert_rows _ _); [discriminate|].
      destruct (_ && _ && _); discriminate. }
  assert (snd (shouldInsert name val st (last_alert_rows name (alerts w))
                 (advance w)) = advance w) as Hsame.
  { unfold shouldInsert, bind, Date_now, ret.
    destruct (last_alert_rows _ _); [reflexivity|].
    destruct (_ && _ && _); reflexivity. }
  unfold alert_branch, select_last_alert, pool_query.
  rewrite Hst. unfold bind at 1. rewrite Hf1. cbn [alerts advance set_clock_oracle].
  unfold bind at 1.
  destruct (shouldInsert _ _ _ _ _) as [o w0]. cbn in Hgate, Hsame. subst o w0.
  unfold insert_alerts, pool_query, bind, Date_now, io_emit, effect_.
  cbn [oracle advance set_clock_oracle]. rewrite Hf2.
  rewrite (status_check_withinAlertRange _ _ _ Hst).
  eexists. split; [reflexivity|].
  cbn. unfold raised_row, raised_msg. cbn [elapsed].
  rewrite <- !app_assoc, !Z.add_assoc, Z.add_0_r. auto.
Qed.

(** ** The two writes *)

Lemma record_reading_ok name val u w :
  no_fault 2 (oracle w) = true ->
  exists w2,
    let up := upsert_row (snapshot_of name val u w) (sensors w) in
    record_reading name val u w = (Return (snd up), w2)
    /\ sensor_data w2 = sensor_data w ++ [reading_of name val u w]
    /\ sensors w2 = fst up
    /\ trace w2 = trace w ++ [sql_insert_sensor_data (reading_of name val u w);
                              sql_upsert_sensors (snd up);
                              io_emitted (sensor_updated (snd up))]
    /\ alerts w2 = alerts w /\ alerts_seq w2 = alerts_seq w
    /\ clock w2 = (clock w + elapsed 2 (oracle w))%Z
    /\ oracle w2 = tail (tail (oracle w))
    /\ entropy w2 = entropy w.
Proof.
  intros Hnf.
  apply no_fault_S in Hnf as [Hf1 Hnf]. apply no_fault_S in Hnf as [Hf2 _].
  unfold record_reading, insert_sensor_data, upsert_sensors, pool_query, bind,
    io_emit, effect_, ret.
  rewrite Hf1. cbn [oracle advance set_clock_oracle log write_sensor_data].
  rewrite Hf2. cbn [sensors sensors_seq clock advance set_clock_oracle log
                    write_sensor_data].
  unfold snapshot_of, reading_of. cbn [elapsed].
  rewrite !Z.add_0_r, !Z.add_assoc.
  destruct (upsert_row _ (sensors w)) as [t out].
  eexists. split; [reflexivity|].
  cbn. rewrite <- !app_assoc. auto 10.
Qed.

(** ** Ingestion without a failing query *)

Lemma last_alert_rows_short name t last rest :
  last_alert_rows name t = last :: rest -> rest = [].
Proof.
  unfold last_alert_rows.
  destruct (order_by_triggered_at_desc _) as [|a l]; [discriminate|].
  cbn. now intros [= _ <-].
Qed.

Lemma elapsed_S n o :
  elapsed (S n) o = (Z.of_N (next_delay o) + elapsed n (tail o))%Z.
Proof. reflexivity. Qed.

Lemma ingest_cases name val u st w :
  withinAlertRange name val = Some st ->
  no_fault 4 (oracle w) = true ->
  let up := upsert_row (snapshot_of name val u w) (sensors w) in
  let recorded := [sql_insert_sensor_data (reading_of name val u w);
                   sql_upsert_sensors (snd up);
                   io_emitted (sensor_updated (snd up))] in
  exists w',
    ingest name val u w = (Return (snd up), w')
    /\ sensor_data w' = sensor_data w ++ [reading_of name val u w]
    /\ sensors w' = fst up
    /\ ((suppressed_by_prior name val st w
         /\ alerts w' = alerts w
         /\ trace w' = trace w ++ recorded)
        \/ (~ suppressed_by_prior name val st w
            /\ alerts w' = alerts w ++ [alert_of name val st w]
            /\ trace w' = trace w ++ recorded
                 ++ [sql_insert_alerts (alert_of name val st w);
                     io_emitted (sensor_alert (to_msg (alert_of name val st w)))])).
Proof.
  intros Hst Hnf up recorded.
  assert (no_fault 2 (oracle w) = true) as Hnf2.
  { apply no_fault_S in Hnf as [? Hnf]. apply no_fault_S in Hnf as [? _].
    apply no_fault_S. split; [assumption|]. now apply no_fault_S. }
  destruct (record_reading_ok name val u w Hnf2)
    as (w2 & Hrec & Hdata & Hsens & Htr & Hal & Hseq & Hclk & Hor & _).
  fold up in Hrec, Hsens, Htr. fold recorded in Htr.
  assert (no_fault 2 (oracle w2) = true) as Hnf'.
  { rewrite Hor. apply no_fault_S in Hnf as [_ Hnf].
    now apply no_fault_S in Hnf as [_ Hnf]. }
  assert (clock (advance w2) = (clock w + elapsed 3 (oracle w))%Z) as Hnow.
  { cbn. rewrite Hclk, Hor. rewrite !elapsed_S. cbn [elapsed]. lia. }
  assert (suppressed_by_prior name val st w
          <-> exists last rest,
                last_alert_rows name (alerts w2) = last :: rest
                /\ repeats name val st (clock (advance w2)) last) as Hiff.
  { unfold suppressed_by_prior. rewrite Hal, Hnow. split.
    - intros (last & H1 & H2). now exists last, [].
    - intros (last & rest & H1 & H2). exists last. split; [|exact H2].
      now rewrite H1, (last_alert_rows_short _ _ _ _ H1). }
  unfold ingest. rewrite (bind_Return _ _ _ _ _ Hrec).
  destruct (fst (shouldInsert name val st (last_alert_rows name (alerts w2))
                   (advance w2))) as [[|]|e] eqn:Hgate.
  - (* the gate lets the alert through *)
    assert (~ suppressed_by_prior name val st w) as Hnot.
    { rewrite Hiff. intros H. apply shouldInsert_false in H. congruence. }
    destruct (alert_branch_raise name val st w2 Hst Hnf')
      as (w' & Hrun & Ha & Ht & Hd & Hs); [now rewrite <- Hiff|].
    exists w'. rewrite (bind_Return _ _ _ _ _ Hrun).
    split; [reflexivity|]. split; [congruence|]. split; [congruence|].
    right. split; [exact Hnot|].
    assert (raised_row name val st w2 = alert_of name val st w) as Hrow.
    { unfold raised_row, alert_of. rewrite Hseq, Hclk, Hor.
      f_equal. rewrite !elapsed_S. cbn [elapsed]. lia. }
    assert (raised_msg name val st w2 = to_msg (alert_of name val st w)) as Hmsg.
    { rewrite <- Hrow. reflexivity. }
    rewrite Ha, Ht, Hal, Htr, Hrow, Hmsg, <- app_assoc. auto.
  - (* the gate suppresses *)
    assert (exists last rest,
               last_alert_rows name (alerts w2) = last :: rest
               /\ repeats name val st (clock (advance w2)) last)
      as (last & rest & Hrows & Hrep) by (now apply shouldInsert_false).
    apply no_fault_S in Hnf' as [Hf3 _].
    pose proof (alert_branch_repeat name val st w2 last rest Hst Hf3 Hrows Hrep)
      as Hrun.
    exists (advance w2). rewrite (bind_Return _ _ _ _ _ Hrun).
    split; [reflexivity|]. split; [exact Hdata|]. split; [exact Hsens|].
    left. split; [apply Hiff; eauto|]. cbn. rewrite Hal, Htr. auto.
  - exfalso. revert Hgate. unfold shouldInsert, bind, Date_now, ret.
    destruct (last_alert_rows _ _); [discriminate|].
    destruct (_ && _ && _); discriminate.
Qed.

(** ** Ingestion whatever the queries do *)

Lemma shouldInsert_total name val st rows w :
  exists b, shouldInsert name val st rows w = (Return b, w).
Proof.
  unfold shouldInsert, bind, Date_now, ret.
  destruct rows; [eauto|]. destruct (_ && _ && _); eauto.
Qed.

(** The alert branch leaves the readings and the snapshots alone, and
    either adds nothing to the alerts and the trace or returns after adding
    one alert of the evaluated status and broadcasting it. *)
Lemma alert_branch_shape name val w o w' :
  alert_branch name val w = (o, w') ->
  sensor_data w' = sensor_data w /\ sensors w' = sensors w
  /\ ((trace w' = trace w /\ alerts w' = alerts w)
      \/ exists a,
           o = Return tt
           /\ alerts w' = alerts w ++ [a]
           /\ trace w' = trace w ++ [sql_insert_alerts a;
                                     io_emitted (sensor_alert (to_msg a))]
           /\ al_sensor_name a = name /\ al_value a = val
           /\ withinAlertRange name val = Some (al_status a)).
Proof.
  unfold alert_branch.
  destruct (withinAlertRange name val) as [st|] eqn:Hst;
    [|intros [= <- <-]; auto].
  unfold select_last_alert, pool_query. unfold bind at 1.
  destruct (next_fails (oracle w)); [intros [= <- <-]; cbn; auto|].
  unfold bind at 1.
  match goal with |- context [shouldInsert name val st ?rows ?w0] =>
    destruct (shouldInsert_total name val st rows w0) as [b ->]
  end.
  destruct b; [|intros [= <- <-]; cbn; auto].
  unfold insert_alerts, pool_query, bind, Date_now, io_emit, effect_.
  cbn [oracle advance set_clock_oracle].
  destruct (next_fails (tail (oracle w))); [intros [= <- <-]; cbn; auto|].
  rewrite (status_check_withinAlertRange _ _ _ Hst).
  intros [= <- <-].
  cbn. split; [reflexivity|]. split; [reflexivity|]. right.
  eexists. split; [reflexivity|]. split; [reflexivity|].
  rewrite <- !app_assoc. cbn. auto.
Qed.

(** [record_reading] adds to the trace nothing, or the insert alone, or the
    insert, the upsert and the broadcast of the upserted row, and returns
    in the last case only. *)
Lemma record_reading_shape name val u w o w' :
  record_reading name val u w = (o, w') ->
  alerts w' = alerts w
  /\ ((exists e, o = Throw e
                 /\ trace w' = trace w
                 /\ sensor_data w' = sensor_data w /\ sensors w' = sensors w)
      \/ (exists e r, o = Throw e
                      /\ trace w' = trace w ++ [sql_insert_sensor_data r]
                      /\ sensor_data w' = sensor_data w ++ [r]
                      /\ rd_sensor_name r = name /\ rd_value r = val
                      /\ sensors w' = sensors w)
      \/ (exists r row proposed,
            o = Return row
            /\ trace w' = trace w ++ [sql_insert_sensor_data r;
                                      sql_upsert_sensors row;
                                      io_emitted (sensor_updated row)]
            /\ sensor_data w' = sensor_data w ++ [r]
            /\ rd_sensor_name r = name /\ rd_value r = val
            /\ sn_name proposed = name /\ sn_value proposed = val
            /\ upsert_row proposed (sensors w) = (sensors w', row))).
Proof.
  unfold record_reading, insert_sensor_data, upsert_sensors, pool_query, bind,
    io_emit, effect_, ret.
  destruct (next_fails (oracle w)).
  { intros [= <- <-]. cbn. split; [reflexivity|]. left. eauto. }
  cbn [oracle advance set_clock_oracle log write_sensor_data].
  destruct (next_fails (tail (oracle w))).
  { intros [= <- <-]. cbn. split; [reflexivity|]. right. left. eauto 10. }
  cbn [sensors sensors_seq clock advance set_clock_oracle log write_sensor_data].
  match goal with |- context [upsert_row ?p (sensors w)] =>
    set (proposed := p); destruct (upsert_row proposed (sensors w)) as [t out] eqn:Hup
  end.
  intros [= <- <-].
  cbn. split; [reflexivity|]. right. right.
  eexists _, out, proposed. rewrite <- !app_assoc. cbn.
  repeat split; try reflexivity. exact Hup.
Qed.

(** ** The handler and the simulator around [ingest] *)

Lemma post_reading_invalid req w :
  not_ (body_name req) || is_undefined (body_value req) = true ->
  post_reading req w =
    (Return {| status_code := 400;
               json := error_json "name and value required" |}, w).
Proof. intros H. unfold post_reading, try_catch. now rewrite H. Qed.

Lemma valid_body req name :
  body_name req = Some name -> name <> "" -> body_value req <> JUndefined ->
  not_ (body_name req) || is_undefined (body_value req) = false.
Proof.
  intros -> Hn Hv. cbn. apply orb_false_iff. split.
  - now apply String.eqb_neq.
  - destruct (body_value req); try reflexivity. contradiction.
Qed.

Lemma post_reading_Return req name w latest w' :
  body_name req = Some name -> name <> "" -> body_value req <> JUndefined ->
  ingest name (toNumber (body_value req)) (or_null (body_unit req)) w
    = (Return latest, w') ->
  post_reading req w =
    (Return {| status_code := 201; json := row_json latest |}, w').
Proof.
  intros Hn Hne Hv Hrun. unfold post_reading, try_catch.
  rewrite (valid_body _ _ Hn Hne Hv), Hn. cbn [default].
  now rewrite (bind_Return _ _ _ _ _ Hrun).
Qed.

Lemma post_reading_Throw req name w e w' :
  body_name req = Some name -> name <> "" -> body_value req <> JUndefined ->
  ingest name (toNumber (body_value req)) (or_null (body_unit req)) w
    = (Throw e, w') ->
  post_reading req w =
    (Return {| status_code := 500; json := error_json "Internal server error" |},
     log (console_error e) w').
Proof.
  intros Hn Hne Hv Hrun. unfold post_reading, try_catch.
  rewrite (valid_body _ _ Hn Hne Hv), Hn. cbn [default].
  now rewrite (bind_Throw _ _ _ _ _ Hrun).
Qed.

Lemma select_sensor_value_frame name w o w' :
  select_sensor_value name w = (o, w') -> w' = advance w.
Proof.
  unfold select_sensor_value, pool_query.
  destruct (next_fails (oracle w)); now intros [= _ <-].
Qed.

Lemma only_entropy_trans w1 w2 w3 :
  only_entropy w1 w2 -> only_entropy w2 w3 -> only_entropy w1 w3.
Proof. unfold only_entropy. intuition congruence. Qed.

Lemma Math_random_frame w :
  exists r w', Math_random w = (Return r, w') /\ only_entropy w w'.
Proof.
  unfold Math_random. destruct (entropy w); eexists _, _;
    (split; [reflexivity|]); unfold only_entropy; cbn; auto 10.
Qed.

Lemma nextValue_frame name last thr w :
  exists v w', nextValue name last thr w = (Return v, w') /\ only_entropy w w'.
Proof.
  unfold nextValue.
  destruct (Math_random_frame w) as (r1 & w1 & E1 & F1).
  rewrite (bind_Return _ _ _ _ _ E1).
  destruct (Math_random_frame w1) as (r2 & w2 & E2 & F2).
  rewrite (bind_Return _ _ _ _ _ E2).
  pose proof (only_entropy_trans _ _ _ F1 F2) as F12.
  destruct (r2 <? pSpike name).
  - destruct (Math_random_frame w2) as (r3 & w3 & E3 & F3).
    destruct (Math_random_frame w3) as (r4 & w4 & E4 & F4).
    unfold bind. rewrite E3. cbv beta iota. rewrite E4. cbv beta iota.
    eexists _, w4. split; [reflexivity|].
    eauto using only_entropy_trans.
  - eexists _, w2. split; [reflexivity|]. exact F12.
Qed.

(** [pick_candidate] always returns; it consumes one tick of the oracle
    and changes neither a table nor the trace. *)
Lemma pick_candidate_returns name thr w :
  exists cand w1,
    pick_candidate name thr w = (Return cand, w1)
    /\ only_entropy (advance w) w1.
Proof.
  unfold pick_candidate. unfold bind at 1. unfold try_catch.
  unfold bind at 1.
  destruct (select_sensor_value name w) as [[rows|e] w0] eqn:Hsel;
    apply select_sensor_value_frame in Hsel as ->; cbn [ret].
  all: match goal with |- context [nextValue ?n ?l ?t ?w0] =>
         destruct (nextValue_frame n l t w0) as (v & w1 & -> & F)
       end.
  all: exists v, w1; split; [reflexivity|exact F].
Qed.

Lemma simulate_sensor_Return name thr w cand w1 row w' :
  pick_candidate name thr w = (Return cand, w1) ->
  ingest name cand (unitFor name) w1 = (Return row, w') ->
  simulate_sensor (name, thr) w = (Return tt, w').
Proof.
  intros Hpick Hrun. unfold simulate_sensor.
  rewrite (bind_Return _ _ _ _ _ Hpick). unfold try_catch.
  now rewrite (bind_Return _ _ _ _ _ Hrun).
Qed.

Lemma simulate_sensor_Throw name thr w cand w1 e w' :
  pick_candidate name thr w = (Return cand, w1) ->
  ingest name cand (unitFor name) w1 = (Throw e, w') ->
  simulate_sensor (name, thr) w =
    (Return tt, log (console_error "simulation error:") w').
Proof.
  intros Hpick Hrun. unfold simulate_sensor.
  rewrite (bind_Return _ _ _ _ _ Hpick). unfold try_catch.
  now rewrite (bind_Throw _ _ _ _ _ Hrun).
Qed.

(** ** The dedup decision of a whole call *)

Lemma trace_since_app w w' t :
  trace w' = trace w ++ t -> trace_since w w' = t.
Proof. unfold trace_since. intros ->. apply drop_app_length. Qed.

Lemma app_singleton_neq {A : Type} (l : list A) (x : A) : l ++ [x] <> l.
Proof.
  intros H. apply (f_equal length) in H. rewrite length_app in H. cbn in H. lia.
Qed.

Lemma ingest_gate_decides name val u st w :
  withinAlertRange name val = Some st ->
  no_fault 4 (oracle w) = true ->
  gate_decides name val st w (snd (ingest name val u w)).
Proof.
  intros Hst Hnf.
  destruct (ingest_cases name val u st w Hst Hnf)
    as (w' & -> & _ & _ & [(Hsup & Ha & Ht)|(Hnot & Ha & Ht)]);
    cbn [snd]; unfold gate_decides.
  - rewrite (trace_since_app _ _ _ Ht). split; [|contradiction].
    split; [auto|]. intros _. split; [exact Ha|reflexivity].
  - rewrite (trace_since_app _ _ _ Ht), Ha. split.
    + split; [|contradiction]. intros [H _].
      now apply app_singleton_neq in H.
    + intros _. split; reflexivity.
Qed.

Lemma post_reading_gate_decides req name st w :
  body_name req = Some name -> name <> "" -> body_value req <> JUndefined ->
  withinAlertRange name (toNumber (body_value req)) = Some st ->
  no_fault 4 (oracle w) = true ->
  gate_decides name (toNumber (body_value req)) st w (snd (post_reading req w)).
Proof.
  intros Hn Hne Hv Hst Hnf.
  pose proof (ingest_gate_decides name _ (or_null (body_unit req)) st w Hst Hnf)
    as H.
  destruct (ingest_cases name _ (or_null (body_unit req)) st w Hst Hnf)
    as (w' & Hrun & _).
  rewrite (post_reading_Return _ _ _ _ _ Hn Hne Hv Hrun).
  now rewrite Hrun in H.
Qed.

Lemma simulate_sensor_gate_decides name st thr w w1 candidate :
  pick_candidate name thr w = (Return candidate, w1) ->
  withinAlertRange name candidate = Some st ->
  no_fault 4 (oracle w1) = true ->
  gate_decides name candidate st w1 (snd (simulate_sensor (name, thr) w)).
Proof.
  intros Hpick Hst Hnf.
  pose proof (ingest_gate_decides name candidate (unitFor name) st w1 Hst Hnf)
    as H.
  destruct (ingest_cases name candidate (unitFor name) st w1 Hst Hnf)
    as (w' & Hrun & _).
  rewrite (simulate_sensor_Return _ _ _ _ _ _ _ Hpick Hrun).
  now rewrite Hrun in H.
Qed.

(** ** Every outcome of an ingestion *)

Lemma alert_branch_Throw_status name val w e w' :
  alert_branch name val w = (Throw e, w') ->
  exists st, withinAlertRange name val = Some st.
Proof.
  unfold alert_branch. destruct (withinAlertRange name val); [eauto|discriminate].
Qed.

Lemma ingest_ingested name val u w o w' :
  ingest name val u w = (o, w') -> ingested name val w o w'.
Proof.
  unfold ingest. unfold bind at 1.
  destruct (record_reading name val u w) as [o1 w1] eqn:Hrec.
  apply record_reading_shape in Hrec as (Hal & Hrec).
  destruct Hrec as [(e & -> & Ht & Hd & Hs)
                   |[(e & r & -> & Ht & Hd & Hn & Hv & Hs)
                    |(r & row & p & -> & Ht & Hd & Hn & Hv & Hpn & Hpv & Hup)]].
  - intros [= <- <-]. now apply first_write_failed.
  - intros [= <- <-]. now apply (upsert_failed _ _ _ e r).
  - unfold bind.
    destruct (alert_branch name val w1) as [[[]|e] w2] eqn:Hbr; intros [= <- <-].
    + apply alert_branch_shape in Hbr
        as (Hd2 & Hs2 & [[Ht2 Ha2]|(a & _ & Ha2 & Ht2 & Han & Hav & Hst)]).
      * apply (recorded_only _ _ _ _ r row p); try congruence; auto.
      * apply (recorded_and_raised _ _ _ r row p a); try congruence.
        rewrite Ht2, Ht, <- app_assoc. reflexivity.
    + pose proof (alert_branch_Throw_status _ _ _ _ _ Hbr) as Hst.
      apply alert_branch_shape in Hbr
        as (Hd2 & Hs2 & [[Ht2 Ha2]|(a & [=] & _)]).
      apply (recorded_only _ _ _ _ r row p); try congruence. right. eauto.
Qed.

Lemma record_reading_first_ok name val u w o w1 :
  next_fails (oracle w) = false ->
  record_reading name val u w = (o, w1) ->
  sensor_data w1 = sensor_data w ++ [reading_of name val u w].
Proof.
  intros Hf.
  unfold record_reading, insert_sensor_data, upsert_sensors, pool_query, bind,
    io_emit, effect_, ret.
  rewrite Hf. cbn [oracle advance set_clock_oracle log write_sensor_data].
  unfold reading_of. cbn [elapsed]. rewrite Z.add_0_r.
  destruct (next_fails (tail (oracle w))); [now intros [= _ <-]|].
  cbn [sensors sensors_seq clock advance set_clock_oracle log write_sensor_data].
  destruct (upsert_row _ (sensors w)) as [t out].
  now intros [= _ <-].
Qed.

(** Once the insert into [sensor_data] has not thrown, the reading stays
    recorded whatever the rest of [ingest] does. *)
Lemma ingest_sensor_data name val u w :
  next_fails (oracle w) = false ->
  sensor_data (snd (ingest name val u w))
    = sensor_data w ++ [reading_of name val u w].
Proof.
  intros Hf. unfold ingest. unfold bind at 1.
  destruct (record_reading name val u w) as [[row|e] w1] eqn:Hrec;
    pose proof (record_reading_first_ok _ _ _ _ _ _ Hf Hrec) as Hd;
    [|exact Hd].
  unfold bind.
  destruct (alert_branch name val w1) as [[[]|e] w2] eqn:Hbr;
    apply alert_branch_shape in Hbr as (Hd2 & _); cbn; congruence.
Qed.

(** Once both writes have not thrown, the snapshot stays upserted. *)
Lemma ingest_sensors name val u w :
  no_fault 2 (oracle w) = true ->
  sensors (snd (ingest name val u w))
    = fst (upsert_row (snapshot_of name val u w) (sensors w)).
Proof.
  intros Hnf. unfold ingest.
  destruct (record_reading_ok name val u w Hnf) as (w1 & Hrec & _ & Hs & _).
  rewrite (bind_Return _ _ _ _ _ Hrec). unfold bind.
  destruct (alert_branch name val w1) as [[[]|e] w2] eqn:Hbr;
    apply alert_branch_shape in Hbr as (_ & Hs2 & _); cbn; congruence.
Qed.

(** The handler with a body that passes the validation: the tables are as
    [ingest] leaves them; the answer is 201 with the upserted row when
    [ingest] returns and 500 when it throws. *)
Lemma post_reading_valid req name w :
  body_name req = Some name -> name <> "" -> body_value req <> JUndefined ->
  let run := ingest name (toNumber (body_value req)) (or_null (body_unit req)) w in
  sensor_data (snd (post_reading req w)) = sensor_data (snd run)
  /\ sensors (snd (post_reading req w)) = sensors (snd run)
  /\ alerts (snd (post_reading req w)) = alerts (snd run)
  /\ match fst run with
     | Return latest =>
         post_reading req w =
           (Return {| status_code := 201; json := row_json latest |}, snd run)
     | Throw e =>
         post_reading req w =
           (Return {| status_code := 500;
                      json := error_json "Internal server error" |},
            log (console_error e) (snd run))
     end.
Proof.
  intros Hn Hne Hv run. subst run.
  destruct (ingest name _ _ w) as [[latest|e] w1] eqn:Hrun; cbn [fst snd].
  - rewrite (post_reading_Return _ _ _ _ _ Hn Hne Hv Hrun). auto.
  - rewrite (post_reading_Throw _ _ _ _ _ Hn Hne Hv Hrun). auto.
Qed.

Lemma upsert_row_snd proposed t :
  In (snd (upsert_row proposed t)) (fst (upsert_row proposed t))
  /\ sn_name (snd (upsert_row proposed t)) = sn_name proposed
  /\ sn_value (snd (upsert_row proposed t)) = sn_value proposed
  /\ sn_unit (snd (upsert_row proposed t)) = sn_unit proposed
  /\ sn_updated_at (snd (upsert_row proposed t)) = sn_updated_at proposed.
Proof.
  induction t as [|r t IH]; cbn [upsert_row].
  - cbn. auto.
  - destruct (String.eqb_spec (sn_name r) (sn_name proposed)) as [E|E].
    + cbn. auto.
    + destruct (upsert_row proposed t) as [t' out]. cbn in *. tauto.
Qed.

(** ** Validation *)

(** C2, as the code has it.  A body without a name, with the empty name or
    without a value is answered 400 and changes nothing.  A value that is
    present but not a finite number is not rejected: [toNumber] turns it
    into 0, and the reading 0 is appended and the snapshot set to 0 as for
    any other value. *)
Theorem missing_rejected_non_finite_becomes_zero :
  (forall (req : request_body) (w : World),
      not_ (body_name req) || is_undefined (body_value req) = true ->
      post_reading req w =
        (Return {| status_code := 400;
                   json := error_json "name and value required" |}, w))
  /\ (forall (req : request_body) (name : string) (w : World),
         body_name req = Some name -> name <> "" ->
         body_value req <> JUndefined ->
         Number_isFinite (Number (body_value req)) = false ->
         let w' := snd (post_reading req w) in
         toNumber (body_value req) = 0
         /\ (next_fails (oracle w) = false ->
             sensor_data w' =
               sensor_data w ++ [reading_of name 0 (or_null (body_unit req)) w])
         /\ (no_fault 2 (oracle w) = true ->
             exists row,
               In row (sensors w') /\ sn_name row = name /\ sn_value row = 0)).
Proof.
  split; [apply post_reading_invalid|].
  intros req name w Hn Hne Hv Hfin w'.
  assert (toNumber (body_value req) = 0) as Hzero.
  { unfold toNumber. destruct (Number (body_value req)); [discriminate|..];
      reflexivity. }
  destruct (post_reading_valid req name w Hn Hne Hv) as (Hd & Hs & _).
  rewrite Hzero in Hd, Hs.
  split; [exact Hzero|]. split.
  - intros Hf. subst w'. rewrite Hd. now apply ingest_sensor_data.
  - intros Hnf. subst w'. rewrite Hs, (ingest_sensors _ _ _ _ Hnf).
    destruct (upsert_row_snd (snapshot_of name 0 (or_null (body_unit req)) w)
                             (sensors w)) as (Hin & Hname & Hval & _).
    eexists. split; [exact Hin|]. split; assumption.
Qed.

Lemma missing_rejected_non_finite_becomes_zero_witness :
  sensor_data
    (snd (post_reading {| body_name := Some "Temperature Sensor 1";
                          body_value := JNumber PosInfinity;
                          body_unit := None |} scenario_0))
  = [ {| rd_id := 1; rd_sensor_name := "Temperature Sensor 1"; rd_value := 0;
         rd_unit := None; rd_recorded_at := 1000 |} ].
Proof.
  apply (proj2 missing_rejected_non_finite_becomes_zero
           {| body_name := Some "Temperature Sensor 1";
              body_value := JNumber PosInfinity;
              body_unit := None |} "Temperature Sensor 1" scenario_0
           eq_refl ltac:(discriminate) ltac:(discriminate) eq_refl).
  reflexivity.
Defined.

(** C2 as stated fails: the JSON string ["abc"] is not a number, and the
    handler answers 201, appends the reading 0 and sets the snapshot to 0;
    for the temperature sensor the 0 even raises a [low] alert. *)
Lemma non_numeric_payload_is_ingested :
  let req := {| body_name := Some "Temperature Sensor 1";
                body_value := JString "abc";
                body_unit := None |} in
  let out := post_reading req scenario_0 in
  Number (body_value req) = NaN
  /\ (exists r, fst out = Return r /\ status_code r = 201%Z)
  /\ map rd_value (sensor_data (snd out)) = [0]
  /\ map sn_value (sensors (snd out)) = [0]
  /\ map al_status (alerts (snd out)) = ["low"].
Proof.
  split; [vm_compute; reflexivity|].
  split; [eexists; split; vm_compute; reflexivity|].
  vm_compute. repeat split.
Qed.

(** ** Handlers as sequences of primitive transitions *)

Section Moves.
Variable sock : option string.

Lemma moves_ret {A : Type} (a : A) : moves sock (ret a).
Proof. intros w. apply rtc_refl. Qed.

Lemma moves_bind {A B : Type} (m : M A) (k : A -> M B) :
  moves sock m -> (forall a, moves sock (k a)) -> moves sock (bind m k).
Proof.
  intros Hm Hk w. unfold bind. specialize (Hm w).
  destruct (m w) as [[a|e] w1]; cbn in *; [|exact Hm].
  etrans; [exact Hm|apply Hk].
Qed.

Lemma moves_try_catch {A : Type} (body : M A) (handler : string -> M A) :
  moves sock body -> (forall e, moves sock (handler e)) -> moves sock (try_catch body handler).
Proof.
  intros Hm Hk w. unfold try_catch. specialize (Hm w).
  destruct (body w) as [[a|e] w1]; cbn in *; [exact Hm|].
  etrans; [exact Hm|apply Hk].
Qed.

Lemma moves_for_of {A : Type} (l : list A) (body : A -> M unit) :
  (forall x, moves sock (body x)) -> moves sock (for_of l body).
Proof.
  intros Hb. induction l as [|x l IH]; cbn [for_of].
  - apply moves_ret.
  - apply moves_bind; [apply Hb|intros _; exact IH].
Qed.

Lemma moves_pool_query {A : Type} (run : Z -> World -> A * World) :
  (forall now w, rtc (prim sock) w (snd (run now w))) -> moves sock (pool_query run).
Proof.
  intros Hrun w. unfold pool_query.
  destruct (next_fails (oracle w)); cbn [snd].
  - apply rtc_once, prim_advance.
  - eapply rtc_l; [apply prim_advance|].
    specialize (Hrun (clock (advance w)) (advance w)).
    destruct (run _ _). exact Hrun.
Qed.

Lemma moves_effect_ x :
  (forall w, prim sock w (log x w)) -> moves sock (effect_ x).
Proof. intros H w. apply rtc_once, H. Qed.

Lemma moves_Date_now : moves sock Date_now.
Proof. intros w. apply rtc_refl. Qed.

Lemma moves_Math_random : moves sock Math_random.
Proof.
  intros w. unfold Math_random. destruct (entropy w); cbn [snd].
  - apply rtc_refl.
  - apply rtc_once, prim_entropy.
Qed.

Lemma moves_insert_sensor_data name val u : moves sock (insert_sensor_data name val u).
Proof.
  apply moves_pool_query. intros now w. apply rtc_once, prim_insert_reading.
Qed.

Lemma moves_upsert_sensors name val u : moves sock (upsert_sensors name val u).
Proof.
  apply moves_pool_query. intros now w. cbv zeta.
  match goal with |- context [upsert_row ?p (sensors w)] =>
    pose proof (prim_upsert sock w p) as H;
    destruct (upsert_row p (sensors w)) as [t out]
  end.
  apply rtc_once, H.
Qed.

Lemma moves_select_last_alert name : moves sock (select_last_alert name).
Proof. apply moves_pool_query. intros now w. apply rtc_refl. Qed.

Lemma moves_select_recent_alerts n : moves sock (select_recent_alerts n).
Proof. apply moves_pool_query. intros now w. apply rtc_refl. Qed.

Lemma moves_select_sensor_value name : moves sock (select_sensor_value name).
Proof. apply moves_pool_query. intros now w. apply rtc_refl. Qed.

Lemma moves_count_sensors : moves sock count_sensors.
Proof. apply moves_pool_query. intros now w. apply rtc_refl. Qed.

Lemma moves_delete_alerts : moves sock delete_alerts.
Proof. apply moves_pool_query. intros now w. apply rtc_once, prim_delete. Qed.

Lemma moves_insert_alerts name val st : moves sock (insert_alerts name val st).
Proof.
  intros w. unfold insert_alerts, pool_query.
  destruct (next_fails (oracle w)); cbn [snd].
  - apply rtc_once, prim_advance.
  - eapply rtc_l; [apply prim_advance|].
    destruct (status_check st) eqn:Hst; cbn [snd].
    + apply rtc_once, prim_insert_alert. exact Hst.
    + apply rtc_once, prim_reject_alert.
Qed.

Lemma moves_io_emit e : broadcastable e -> moves sock (io_emit e).
Proof. intros H. apply moves_effect_. intros w. now apply prim_broadcast. Qed.

Lemma moves_console_error msg : moves sock (effect_ (console_error msg)).
Proof. apply moves_effect_. intros w. apply prim_console. Qed.

Lemma moves_shouldInsert name val st rows : moves sock (shouldInsert name val st rows).
Proof.
  intros w. destruct (shouldInsert_total name val st rows w) as [b ->].
  apply rtc_refl.
Qed.

Lemma moves_alert_branch name val : moves sock (alert_branch name val).
Proof.
  unfold alert_branch.
  destruct (withinAlertRange name val) as [st|] eqn:Hst; [|apply moves_ret].
  apply moves_bind; [apply moves_select_last_alert|intros rows].
  apply moves_bind; [apply moves_shouldInsert|intros [|]]; [|apply moves_ret].
  apply moves_bind; [apply moves_insert_alerts|intros _].
  apply moves_bind; [apply moves_Date_now|intros now].
  apply moves_io_emit. cbn. eapply status_check_withinAlertRange, Hst.
Qed.

Lemma moves_ingest name val u : moves sock (ingest name val u).
Proof.
  unfold ingest, record_reading.
  repeat (apply moves_bind; [|intros ?]);
    auto using moves_insert_sensor_data, moves_upsert_sensors,
      moves_alert_branch, moves_ret.
  apply moves_io_emit. exact I.
Qed.

Lemma moves_post_reading req : moves sock (post_reading req).
Proof.
  unfold post_reading. apply moves_try_catch.
  - destruct (_ || _); [apply moves_ret|].
    apply moves_bind; [apply moves_ingest|intros ?; apply moves_ret].
  - intros e. apply moves_bind; [apply moves_console_error|intros ?; apply moves_ret].
Qed.

Lemma moves_delete_alerts_clear : moves sock delete_alerts_clear.
Proof.
  unfold delete_alerts_clear. apply moves_try_catch.
  - apply moves_bind; [apply moves_delete_alerts|intros _].
    apply moves_bind; [apply moves_io_emit; exact I|intros _; apply moves_ret].
  - intros e. apply moves_bind; [apply moves_console_error|intros ?; apply moves_ret].
Qed.

Lemma moves_nextValue name last thr : moves sock (nextValue name last thr).
Proof.
  unfold nextValue.
  apply moves_bind; [apply moves_Math_random|intros r1].
  apply moves_bind; [apply moves_Math_random|intros r2].
  apply moves_bind; [|intros ?; apply moves_ret].
  destruct (r2 <? pSpike name); [|apply moves_ret].
  apply moves_bind; [apply moves_Math_random|intros r3].
  apply moves_bind; [apply moves_Math_random|intros r4]. apply moves_ret.
Qed.

Lemma moves_simulate_sensor entry : moves sock (simulate_sensor entry).
Proof.
  destruct entry as [name thr]. unfold simulate_sensor, pick_candidate.
  apply moves_bind.
  - apply moves_bind; [|intros ?; apply moves_nextValue].
    apply moves_try_catch; [|intros ?; apply moves_ret].
    apply moves_bind; [apply moves_select_sensor_value|intros ?; apply moves_ret].
  - intros cand. apply moves_try_catch; [|intros ?; apply moves_console_error].
    apply moves_bind; [apply moves_ingest|intros ?; apply moves_ret].
Qed.

Lemma moves_simulateOnce : moves sock simulateOnce.
Proof. apply moves_for_of, moves_simulate_sensor. Qed.

Lemma moves_create_if_not_exists : moves sock create_if_not_exists.
Proof. apply moves_pool_query. intros now w. apply rtc_refl. Qed.

Lemma moves_seedSensorsIfEmpty : moves sock seedSensorsIfEmpty.
Proof.
  unfold seedSensorsIfEmpty.
  apply moves_bind; [apply moves_count_sensors|intros c].
  destruct (0 <? c)%nat; [apply moves_ret|].
  apply moves_for_of. intros [[name val] u].
  apply moves_bind; [apply moves_upsert_sensors|intros ?].
  apply moves_insert_sensor_data.
Qed.

Lemma moves_ensureSchema : moves sock ensureSchema.
Proof.
  unfold ensureSchema.
  repeat (apply moves_bind; [apply moves_create_if_not_exists|intros _]).
  apply moves_create_if_not_exists.
Qed.

Lemma moves_boot ENABLE_SIM : moves sock (boot ENABLE_SIM).
Proof.
  unfold boot.
  apply moves_try_catch; [|intros ?; apply moves_console_error].
  apply moves_bind; [apply moves_ensureSchema|intros _].
  apply moves_bind; [apply moves_seedSensorsIfEmpty|intros _].
  destruct (enableSim ENABLE_SIM); [apply moves_simulateOnce|apply moves_ret].
Qed.

End Moves.

Section MachineSteps.
Context {collation : Collation}.

Lemma moves_getLatestSensors sock : moves sock getLatestSensors.
Proof. apply moves_pool_query. intros now w. apply rtc_refl. Qed.

Lemma moves_on_connection id : moves (Some id) (on_connection id).
Proof.
  unfold on_connection.
  apply moves_bind.
  { apply moves_effect_. intros w. now apply prim_connected. }
  intros _. apply moves_try_catch; [|intros ?; apply moves_console_error].
  apply moves_bind; [apply moves_getLatestSensors|intros rows].
  apply moves_bind.
  { apply moves_effect_. intros w. now apply prim_socket. }
  intros _. apply moves_bind; [apply moves_select_recent_alerts|intros recent].
  apply moves_effect_. intros w. now apply prim_socket.
Qed.

Lemma step_moves r w : rtc (prim (socket_of r)) w (step r w).
Proof.
  destruct r; cbn [step socket_of].
  - apply moves_post_reading.
  - apply moves_delete_alerts_clear.
  - apply moves_on_connection.
  - apply moves_simulateOnce.
  - apply moves_boot.
Qed.

End MachineSteps.

(** ** Invariants of the store *)

Lemma status_check_low_or_high st :
  status_check st = true <-> st = "low" \/ st = "high".
Proof.
  unfold status_check. rewrite orb_true_iff, !String.eqb_eq. reflexivity.
Qed.

Lemma upsert_row_names proposed t :
  map sn_name (fst (upsert_row proposed t)) =
    if mem_string (sn_name proposed) (map sn_name t)
    then map sn_name t
    else map sn_name t ++ [sn_name proposed].
Proof.
  induction t as [|r t IH]; [reflexivity|].
  change (mem_string (sn_name proposed) (map sn_name (r :: t)))
    with (String.eqb (sn_name proposed) (sn_name r)
          || mem_string (sn_name proposed) (map sn_name t)).
  cbn [upsert_row].
  destruct (String.eqb_spec (sn_name r) (sn_name proposed)) as [E|E];
    destruct (String.eqb_spec (sn_name proposed) (sn_name r)) as [E'|E'];
    try congruence; [reflexivity|].
  destruct (upsert_row proposed t) as [t' out]. cbn [fst orb] in *.
  cbn [map]. rewrite IH. now destruct (mem_string _ _).
Qed.

Lemma mem_string_In name l : mem_string name l = true <-> In name l.
Proof.
  unfold mem_string. rewrite existsb_exists. split.
  - intros (x & Hin & E). apply String.eqb_eq in E. now subst.
  - intros Hin. exists name. split; [exact Hin|apply String.eqb_refl].
Qed.

Lemma upsert_row_NoDup proposed t :
  NoDup (map sn_name t) -> NoDup (map sn_name (fst (upsert_row proposed t))).
Proof.
  intros Hnd. rewrite upsert_row_names.
  destruct (mem_string _ _) eqn:E; [exact Hnd|].
  apply NoDup_app. split; [exact Hnd|]. split.
  - intros x Hx Hin. apply list_elem_of_In in Hx, Hin.
    destruct Hin as [<-|[]]. apply mem_string_In in Hx. congruence.
  - apply NoDup_singleton.
Qed.

Lemma prim_alerts_low_or_high sock w w' :
  prim sock w w' -> alerts_low_or_high w -> alerts_low_or_high w'.
Proof.
  unfold alerts_low_or_high.
  destruct 1 as [| | | |w row Hst| | | | | |]; cbn; auto.
  intros H. apply Forall_app. split; [exact H|].
  constructor; [now apply status_check_low_or_high|constructor].
Qed.

Lemma prim_names_unique sock w w' :
  prim sock w w' -> names_unique w -> names_unique w'.
Proof.
  unfold names_unique. destruct 1; cbn; auto using upsert_row_NoDup.
Qed.

Lemma rtc_prim_invariant (P : World -> Prop) sock w w' :
  (forall s v v', prim s v v' -> P v -> P v') ->
  rtc (prim sock) w w' -> P w -> P w'.
Proof. intros Hp. induction 1; eauto. Qed.

Section RunInvariants.
Context {collation : Collation}.

Lemma run_invariant (P : World -> Prop) rs w :
  (forall s v v', prim s v v' -> P v -> P v') -> P w -> P (run rs w).
Proof.
  intros Hp. revert w. induction rs as [|r rs IH]; intros w Hw; [exact Hw|].
  cbn [run fold_left]. apply IH.
  eapply rtc_prim_invariant; [exact Hp|apply step_moves|exact Hw].
Qed.

Lemma run_alerts_low_or_high rs t0 o e :
  alerts_low_or_high (run rs (initial t0 o e)).
Proof.
  apply run_invariant; [apply prim_alerts_low_or_high|constructor].
Qed.

Lemma run_names_unique rs t0 o e : names_unique (run rs (initial t0 o e)).
Proof.
  apply run_invariant; [apply prim_names_unique|constructor].
Qed.

End RunInvariants.

(** ** Normal readings *)

Lemma alert_events_app t1 t2 :
  alert_events (t1 ++ t2) = alert_events t1 ++ alert_events t2.
Proof.
  induction t1 as [|x t1 IH]; [reflexivity|].
  destruct x as [| | | |[]| | |]; cbn; now rewrite ?IH.
Qed.

Lemma withinAlertRange_unconfigured name val :
  assoc name THRESHOLDS = None -> withinAlertRange name val = None.
Proof.
  intros H. unfold withinAlertRange, get_property. rewrite H.
  now destruct (mem_string name Object_prototype_names).
Qed.

Lemma ingest_normal name val u w o w' :
  withinAlertRange name val = None ->
  ingest name val u w = (o, w') ->
  alerts w' = alerts w
  /\ exists t, trace w' = trace w ++ t /\ alert_events t = [].
Proof.
  intros Hnone Hrun. apply ingest_ingested in Hrun.
  destruct Hrun; try congruence.
  - split; [assumption|]. exists []. now rewrite app_nil_r.
  - split; [assumption|]. eauto.
  - split; [assumption|]. eauto.
Qed.

Lemma post_reading_normal req w :
  withinAlertRange (default "" (body_name req)) (toNumber (body_value req)) = None ->
  alerts (snd (post_reading req w)) = alerts w
  /\ alert_events (trace_since w (snd (post_reading req w))) = [].
Proof.
  intros Hnone. unfold post_reading, try_catch.
  destruct (_ || _).
  { cbn. unfold trace_since. now rewrite drop_all. }
  unfold bind.
  destruct (ingest _ _ _ w) as [[latest|e] w1] eqn:Hrun;
    destruct (ingest_normal _ _ _ _ _ _ Hnone Hrun) as (Ha & t & Ht & Hev).
  - cbn -[trace_since]. now rewrite (trace_since_app _ _ _ Ht).
  - cbn -[trace_since]. split; [exact Ha|].
    erewrite trace_since_app; [|cbn; rewrite Ht, <- app_assoc; reflexivity].
    rewrite alert_events_app, Hev. reflexivity.
Qed.

Lemma simulate_sensor_normal name thr w candidate w1 :
  pick_candidate name thr w = (Return candidate, w1) ->
  withinAlertRange name candidate = None ->
  alerts (snd (simulate_sensor (name, thr) w)) = alerts w1
  /\ alert_events (trace_since w1 (snd (simulate_sensor (name, thr) w))) = [].
Proof.
  intros Hpick Hnone. unfold simulate_sensor.
  rewrite (bind_Return _ _ _ _ _ Hpick). unfold try_catch, bind.
  destruct (ingest _ _ _ w1) as [[latest|e] w2] eqn:Hrun;
    destruct (ingest_normal _ _ _ _ _ _ Hnone Hrun) as (Ha & t & Ht & Hev).
  - cbn -[trace_since]. now rewrite (trace_since_app _ _ _ Ht).
  - cbn -[trace_since]. split; [exact Ha|].
    erewrite trace_since_app; [|cbn; rewrite Ht, <- app_assoc; reflexivity].
    rewrite alert_events_app, Hev. reflexivity.
Qed.


Lemma prim_broadcasts_low_or_high sock w w' :
  prim sock w w' -> broadcasts_low_or_high w -> broadcasts_low_or_high w'.
Proof.
  unfold broadcasts_low_or_high. intros Hp Hinv.
  destruct Hp as [| | | | | | |w e He| | |];
    cbn [trace log write_alerts write_sensors write_sensor_data advance
         set_clock_oracle set_entropy];
    try exact Hinv; rewrite alert_events_app; apply Forall_app;
    (split; [exact Hinv|]); try (constructor; fail).
  destruct e; cbn in *; try constructor; [|constructor].
  now apply status_check_low_or_high.
Qed.

(** C6.  A sensor without configured bounds evaluates to normal for every
    value; a reading that evaluates to normal, in the handler or in the
    simulator and whatever the queries do, adds no alert row and broadcasts
    no alert; and in every world the server can reach every alert row and
    every broadcast alert has the status [low] or [high]. *)
Theorem normal_never_alerts :
  (forall (name : string) (val : Q),
      assoc name THRESHOLDS = None -> withinAlertRange name val = None)
  /\ (forall (req : request_body) (w : World),
         withinAlertRange (default "" (body_name req))
                          (toNumber (body_value req)) = None ->
         alerts (snd (post_reading req w)) = alerts w
         /\ alert_events (trace_since w (snd (post_reading req w))) = [])
  /\ (forall (name : string) (thr : threshold) (w w1 : World) (candidate : Q),
         pick_candidate name thr w = (Return candidate, w1) ->
         withinAlertRange name candidate = None ->
         alerts (snd (simulate_sensor (name, thr) w)) = alerts w1
         /\ alert_events (trace_since w1 (snd (simulate_sensor (name, thr) w))) = [])
  /\ (forall (collation : Collation) (rs : list request)
             (t0 : Z) (o : list tick) (e : list Q),
         alerts_low_or_high (run rs (initial t0 o e))
         /\ broadcasts_low_or_high (run rs (initial t0 o e))).
Proof.
  split; [exact withinAlertRange_unconfigured|].
  split; [exact post_reading_normal|].
  split; [intros; eapply simulate_sensor_normal; eassumption|].
  intros collation rs t0 o e. split.
  - apply run_alerts_low_or_high.
  - apply run_invariant; [apply prim_broadcasts_low_or_high|constructor].
Qed.

Lemma normal_never_alerts_witness :
  let req := {| body_name := Some "constructor";
                body_value := JNumber (Fin 100000);
                body_unit := None |} in
  withinAlertRange "constructor" 100000 = None
  /\ alerts (snd (post_reading req scenario_1)) = alerts scenario_1
  /\ alert_events (trace_since scenario_1 (snd (post_reading req scenario_1))) = [].
Proof.
  split.
  - apply (proj1 normal_never_alerts). reflexivity.
  - apply (proj1 (proj2 normal_never_alerts)). reflexivity.
Defined.

(** ** A failure on the alert path *)

Lemma record_reading_Return_no_fault name val u w latest w2 :
  record_reading name val u w = (Return latest, w2) ->
  no_fault 2 (oracle w) = true.
Proof.
  unfold record_reading, insert_sensor_data, upsert_sensors, pool_query, bind.
  destruct (next_fails (oracle w)) eqn:Hf1; [discriminate|].
  cbn [oracle advance set_clock_oracle log write_sensor_data].
  destruct (next_fails (tail (oracle w))) eqn:Hf2; [discriminate|].
  intros _. cbn [no_fault]. now rewrite Hf1, Hf2.
Qed.

(** C3, as the code has it.  When both writes of a call of
    [POST /api/reading] succeed and the alert branch then throws, at the
    lookup of the last alert or at the insert of the new one, the handler
    answers 500; the reading stays appended and the snapshot upserted, once
    each, the update stays broadcast, and no alert row is added. *)
Theorem alert_failure_keeps_reading_answers_500
  (req : request_body) (name : string) (w w2 w3 : World)
  (latest : sensor_row) (e : string) :
  body_name req = Some name -> name <> "" -> body_value req <> JUndefined ->
  let val := toNumber (body_value req) in
  let unit_ := or_null (body_unit req) in
  record_reading name val unit_ w = (Return latest, w2) ->
  alert_branch name val w2 = (Throw e, w3) ->
  let out := post_reading req w in
  fst out = Return {| status_code := 500;
                      json := error_json "Internal server error" |}
  /\ sensor_data (snd out) = sensor_data w ++ [reading_of name val unit_ w]
  /\ sensors (snd out) = fst (upsert_row (snapshot_of name val unit_ w) (sensors w))
  /\ In latest (sensors (snd out)) /\ sn_name latest = name /\ sn_value latest = val
  /\ alerts (snd out) = alerts w
  /\ trace_since w (snd out) =
       [sql_insert_sensor_data (reading_of name val unit_ w);
        sql_upsert_sensors latest;
        io_emitted (sensor_updated latest);
        console_error e].
Proof.
  intros Hn Hne Hv val unit_ Hrec Hbr out.
  pose proof (record_reading_Return_no_fault _ _ _ _ _ _ Hrec) as Hnf.
  destruct (record_reading_ok name val unit_ w Hnf)
    as (w2' & Hrec' & Hd & Hs & Ht & Ha & _).
  cbv zeta in Hrec'. rewrite Hrec in Hrec'. injection Hrec' as Hlatest <-.
  destruct (alert_branch_shape _ _ _ _ _ Hbr)
    as (Hd3 & Hs3 & [[Ht3 Ha3]|(a & [=] & _)]).
  assert (ingest name val unit_ w = (Throw e, w3)) as Hrun.
  { unfold ingest. rewrite (bind_Return _ _ _ _ _ Hrec).
    now rewrite (bind_Throw _ _ _ _ _ Hbr). }
  subst out. rewrite (post_reading_Throw _ _ _ _ _ Hn Hne Hv Hrun).
  cbn [fst snd sensor_data sensors alerts log].
  destruct (upsert_row_snd (snapshot_of name val unit_ w) (sensors w))
    as (Hin & Hname & Hval & _).
  split; [reflexivity|]. split; [congruence|]. split; [congruence|].
  split; [rewrite Hs3, Hs, Hlatest; exact Hin|].
  split; [rewrite Hlatest; exact Hname|].
  split; [rewrite Hlatest; exact Hval|].
  split; [congruence|].
  apply trace_since_app. cbn. rewrite Ht3, Ht, Hlatest, <- app_assoc. reflexivity.
Qed.

Lemma alert_failure_keeps_reading_answers_500_witness :
  let w := initial 1000 [ {| delay := 5; fails := false |};
                          {| delay := 5; fails := false |};
                          {| delay := 5; fails := true |} ] [] in
  let out := post_reading (temperature_request 30) w in
  fst out = Return {| status_code := 500;
                      json := error_json "Internal server error" |}
  /\ map rd_value (sensor_data (snd out)) = [30]
  /\ map sn_value (sensors (snd out)) = [30]
  /\ alerts (snd out) = [].
Proof.
  intros w out.
  destruct (alert_failure_keeps_reading_answers_500
              (temperature_request 30) "Temperature Sensor 1" w _ _ _ _
              eq_refl ltac:(discriminate) ltac:(discriminate)
              eq_refl eq_refl)
    as (Hcode & Hdata & Hsens & _ & _ & _ & Halerts & _).
  split; [exact Hcode|]. split; [|split].
  - subst out. rewrite Hdata. reflexivity.
  - subst out. rewrite Hsens. reflexivity.
  - exact Halerts.
Defined.

(** C3 as stated fails on the answer: the two writes succeed, the lookup of
    the last alert throws, and the handler answers 500, not success. *)
Lemma alert_lookup_failure_is_not_success :
  let w := initial 1000 [ {| delay := 5; fails := false |};
                          {| delay := 5; fails := false |};
                          {| delay := 5; fails := true |} ] [] in
  let out := post_reading (temperature_request 30) w in
  map rd_value (sensor_data (snd out)) = [30]
  /\ map sn_value (sensors (snd out)) = [30]
  /\ withinAlertRange "Temperature Sensor 1" 30 = Some "high"
  /\ exists r, fst out = Return r /\ status_code r = 500%Z.
Proof.
  vm_compute. repeat split. eexists. split; reflexivity.
Qed.

(** ** The order of the effects of a call *)

Lemma update_before_alert_app t1 t2 :
  update_before_alert t1 -> update_before_alert t2 ->
  update_before_alert (t1 ++ t2).
Proof.
  intros H1 H2 i m Hi.
  destruct (decide (i < length t1)%nat) as [Hlt|Hge].
  - rewrite lookup_app_l in Hi by exact Hlt.
    destruct (H1 i m Hi) as (j & k & row & Hjk & Hj & Hk & Hrow).
    exists j, k, row. split; [exact Hjk|].
    rewrite !lookup_app_l by lia. auto.
  - rewrite lookup_app_r in Hi by lia.
    destruct (H2 _ m Hi) as (j & k & row & Hjk & Hj & Hk & Hrow).
    exists (length t1 + j)%nat, (length t1 + k)%nat, row.
    split; [lia|]. rewrite !lookup_app_r by lia.
    replace (length t1 + j - length t1)%nat with j by lia.
    replace (length t1 + k - length t1)%nat with k by lia. auto.
Qed.

Lemma update_before_alert_quiet t :
  alert_events t = [] -> update_before_alert t.
Proof.
  intros Hq i m Hi. exfalso. revert i Hi.
  induction t as [|x t IH]; intros i Hi; [discriminate|].
  destruct i as [|i]; cbn in Hi.
  - injection Hi as ->. discriminate.
  - apply (IH ltac:(destruct x as [| | | |[]| | |]; cbn in Hq; congruence) i Hi).
Qed.

Lemma received_from_app id connected t1 t2 :
  received_from id connected (t1 ++ t2) =
    received_from id connected t1
    ++ received_from id
         (connected
          || existsb (fun x => match x with
                               | socket_connected id' => String.eqb id' id
                               | _ => false
                               end) t1) t2.
Proof.
  revert connected. induction t1 as [|x t1 IH]; intros connected.
  - cbn. now rewrite orb_false_r.
  - destruct x; cbn [received_from existsb app]; rewrite ?IH, ?orb_false_l;
      try reflexivity.
    + now destruct connected.
    + now destruct (String.eqb id0 id).
    + now rewrite orb_assoc.
Qed.

Lemma ordered_call_nil : ordered_call [].
Proof.
  split; intros; intros i m Hi; destruct i; discriminate.
Qed.

Lemma alert_follows_update_short l :
  (length l <= 1)%nat -> (forall m, l <> [sensor_alert m]) ->
  alert_follows_update l.
Proof.
  intros Hlen Hne i m Hi. exfalso.
  destruct l as [|x [|y l]]; [discriminate| |cbn in Hlen; lia].
  destruct i; [|discriminate]. injection Hi as ->. now apply (Hne m).
Qed.

Lemma ingested_ordered_call name val w o w' :
  ingested name val w o w' ->
  exists t, trace w' = trace w ++ t /\ ordered_call t.
Proof.
  destruct 1 as [e w' Ht|e r w' Ht|o r row p w' Ht
                |r row p a w' Ht _ _ _ Hpn Hpv Hup _ Han Hav].
  - exists []. rewrite app_nil_r. split; [exact Ht|exact ordered_call_nil].
  - eexists. split; [exact Ht|]. split.
    + now apply update_before_alert_quiet.
    + intros id c. apply alert_follows_update_short; [cbn; lia|discriminate].
  - eexists. split; [exact Ht|]. split.
    + now apply update_before_alert_quiet.
    + intros id c. apply alert_follows_update_short;
        destruct c; cbn; try lia; discriminate.
  - destruct (upsert_row_snd p (sensors w)) as (_ & Hname & Hval & _).
    rewrite Hup in Hname, Hval. cbn [fst snd] in Hname, Hval.
    eexists. split; [exact Ht|]. split.
    + intros i m Hi.
      do 5 (destruct i as [|i]; [try discriminate|]); [|discriminate].
      injection Hi as <-. exists 1%nat, 2%nat, row.
      split; [lia|]. split; [reflexivity|]. split; [reflexivity|].
      cbn. split; congruence.
    + intros id [|]; cbn; [|intros i m Hi; destruct i; discriminate].
      intros i m Hi. do 2 (destruct i as [|i]; [try discriminate|]);
        [|discriminate].
      injection Hi as <-. exists 0%nat, row.
      split; [lia|]. split; [reflexivity|]. cbn. split; congruence.
Qed.

Lemma ordered_call_console t msg :
  ordered_call t -> ordered_call (t ++ [console_error msg]).
Proof.
  intros [Htrace Hrecv]. split.
  - apply update_before_alert_app; [exact Htrace|].
    now apply update_before_alert_quiet.
  - intros id c. rewrite received_from_app. cbn [received_from].
    rewrite app_nil_r. apply Hrecv.
Qed.

(** C7.  In what one call of [POST /api/reading], or one turn of the
    simulator for one sensor, adds to the trace, whatever the queries do, a
    [sensor-alert] broadcast is always preceded by the upsert of the
    snapshot for the same sensor and value and by the [sensor-updated]
    broadcast of that snapshot; and among the events of the call that a
    socket receives, the alert comes after that snapshot. *)
Theorem snapshot_published_before_alert :
  (forall (req : request_body) (w : World),
      exists t, trace (snd (post_reading req w)) = trace w ++ t
                /\ ordered_call t)
  /\ (forall (entry : string * threshold) (w : World),
         exists t, trace (snd (simulate_sensor entry w)) = trace w ++ t
                   /\ ordered_call t).
Proof.
  split.
  - intros req w. unfold post_reading, try_catch.
    destruct (_ || _).
    { exists []. rewrite app_nil_r. split; [reflexivity|].
      exact ordered_call_nil. }
    unfold bind.
    destruct (ingest _ _ _ w) as [[latest|e] w1] eqn:Hrun;
      apply ingest_ingested, ingested_ordered_call in Hrun
        as (t & Ht & Hord).
    + exists t. split; [exact Ht|exact Hord].
    + exists (t ++ [console_error e]). cbn. rewrite Ht, <- app_assoc.
      split; [reflexivity|]. now apply ordered_call_console.
  - intros [name thr] w.
    destruct (pick_candidate_returns name thr w)
      as (cand & w1 & Hpick & (_ & _ & _ & _ & _ & _ & _ & _ & Ht1)).
    unfold simulate_sensor. rewrite (bind_Return _ _ _ _ _ Hpick).
    unfold try_catch, bind.
    destruct (ingest _ _ _ w1) as [[latest|e] w2] eqn:Hrun;
      apply ingest_ingested, ingested_ordered_call in Hrun
        as (t & Ht & Hord); cbn in Ht1; rewrite Ht1 in Ht.
    + exists t. split; [exact Ht|exact Hord].
    + exists (t ++ [console_error "simulation error:"]). cbn.
      rewrite Ht, <- app_assoc. split; [reflexivity|].
      now apply ordered_call_console.
Qed.

Lemma snapshot_published_before_alert_witness :
  exists t, trace scenario_1 = trace scenario_0 ++ t /\ ordered_call t.
Proof.
  apply (proj1 snapshot_published_before_alert (temperature_request 30) scenario_0).
Defined.

Example scenario_1_order :
  trace scenario_1 !! 4%nat
    = Some (io_emitted (sensor_alert {| sensor := "Temperature Sensor 1";
                                        value := 30; status := "high";
                                        time := 1000 |}))
  /\ trace scenario_1 !! 1%nat
     = Some (sql_upsert_sensors {| sn_id := 1; sn_name := "Temperature Sensor 1";
                                   sn_value := 30; sn_unit := Some "°C";
                                   sn_updated_at := 1000 |})
  /\ trace scenario_1 !! 2%nat
     = Some (io_emitted (sensor_updated
                           {| sn_id := 1; sn_name := "Temperature Sensor 1";
                              sn_value := 30; sn_unit := Some "°C";
                              sn_updated_at := 1000 |})).
Proof. vm_compute. repeat split. Qed.

(** ** The queries that order their rows *)

#[global] Instance triggered_desc_total : Total triggered_desc.
Proof. intros a b. unfold triggered_desc. lia. Qed.

#[global] Instance triggered_desc_trans : Transitive triggered_desc.
Proof. intros a b c. unfold triggered_desc. lia. Qed.

Lemma order_by_triggered_at_desc_sorted t :
  StronglySorted triggered_desc (order_by_triggered_at_desc t).
Proof. apply StronglySorted_merge_sort; apply _. Qed.

Lemma order_by_triggered_at_desc_perm t : order_by_triggered_at_desc t ≡ₚ t.
Proof. apply merge_sort_Permutation. Qed.

(** The [n] rows of [ORDER BY triggered_at DESC LIMIT n] and the rows it
    leaves out: together they are the table, the rows kept are in
    descending order of time, and no row left out is more recent than a row
    kept. *)
Lemma limit_desc_spec (n : nat) (t : list alert_row) :
  let recent := take n (order_by_triggered_at_desc t) in
  let older := drop n (order_by_triggered_at_desc t) in
  recent ++ older ≡ₚ t
  /\ length recent = Nat.min n (length t)
  /\ StronglySorted triggered_desc recent
  /\ (forall a b, a ∈ recent -> b ∈ older -> triggered_desc a b).
Proof.
  intros recent older. subst recent older.
  pose proof (order_by_triggered_at_desc_sorted t) as Hs.
  rewrite <- (take_drop n (order_by_triggered_at_desc t)) in Hs.
  apply StronglySorted_app in Hs as (Hcross & Hrecent & _).
  split; [rewrite take_drop; apply order_by_triggered_at_desc_perm|].
  split; [|auto].
  rewrite length_take, (Permutation_length (order_by_triggered_at_desc_perm t)).
  reflexivity.
Qed.

(** The row the dedup gate compares with is an alert of the sensor such
    that no alert of the sensor is more recent; there is none exactly when
    the sensor has no alert. *)
Lemma last_alert_rows_spec name t :
  match last_alert_rows name t with
  | [] => forall a, a ∈ t -> al_sensor_name a <> name
  | last :: rest =>
      rest = [] /\ last ∈ t /\ al_sensor_name last = name
      /\ forall a, a ∈ t -> al_sensor_name a = name ->
                   (al_triggered_at a <= al_triggered_at last)%Z
  end.
Proof.
  unfold last_alert_rows.
  set (mine := List.filter (fun a => String.eqb (al_sensor_name a) name) t).
  assert (forall a, a ∈ mine <-> a ∈ t /\ al_sensor_name a = name) as Hmine.
  { intros a. subst mine. rewrite !list_elem_of_In, filter_In, String.eqb_eq.
    reflexivity. }
  pose proof (order_by_triggered_at_desc_sorted mine) as Hs.
  pose proof (order_by_triggered_at_desc_perm mine) as Hp.
  destruct (order_by_triggered_at_desc mine) as [|last l]; cbn [take].
  - intros a Ha Hn. apply Permutation_nil_l in Hp.
    assert (a ∈ mine) as Hin by (apply Hmine; auto).
    rewrite <- Hp in Hin. inversion Hin.
  - assert (last ∈ mine) as Hlast by (rewrite <- Hp; left).
    apply Hmine in Hlast as [Hin Hn].
    split; [now destruct l|]. split; [exact Hin|]. split; [exact Hn|].
    intros a Ha Han.
    assert (a ∈ last :: l) as Hal by (rewrite Hp; apply Hmine; auto).
    apply StronglySorted_cons in Hs as [Hall _].
    apply list_elem_of_In in Hal. destruct Hal as [<-|Hal]; [lia|].
    rewrite Forall_forall in Hall. apply Hall. now apply list_elem_of_In.
Qed.

(** ** The decision rule of the gate *)

Lemma less_than_abs_below (d : jsnumber) (m : Q) :
  less_than (Math_abs d) m = true <-> magnitude_below d m.
Proof.
  unfold magnitude_below. destruct d as [q| | |]; cbn [Math_abs less_than].
  - rewrite Qltb_lt. split; [eauto|]. by intros (q' & [= <-] & H).
  - split; [discriminate|]. by intros (? & [=] & _).
  - split; [discriminate|]. by intros (? & [=] & _).
  - split; [discriminate|]. by intros (? & [=] & _).
Qed.

(** What the gate subtracts is the difference in double precision. *)
Lemma minus_double_difference (x y : Q) :
  double_difference x y (minus (round_number x) (round_number y)).
Proof.
  exists (round_number x), (round_number y).
  split; [apply round_number_rounds|]. split; [apply round_number_rounds|].
  destruct (round_number x) as [a| | |], (round_number y) as [b| | |];
    cbn [minus]; try reflexivity.
  apply round_number_rounds.
Qed.

Lemma gate_decides_rule name val st w w' :
  gate_decides name val st w w' -> dedup_rule name val st w w'.
Proof.
  unfold gate_decides, dedup_rule, suppressed_by_prior.
  fold (alert_suppressed w w'). fold (alert_raised name val st w w').
  intros [Hiff Hraise].
  pose proof (last_alert_rows_spec name (alerts w)) as Hspec.
  destruct (last_alert_rows name (alerts w)) as [|last rest].
  - split.
    + intros _. apply Hraise. by intros (l & [=] & _).
    + intros (a & Ha & Hn). exfalso.
      apply (Hspec a); [by apply list_elem_of_In|exact Hn].
  - destruct Hspec as (-> & Hin & Hn & Hmax). apply list_elem_of_In in Hin.
    split.
    + intros Hnone. exfalso. by apply (Hnone last).
    + intros _.
      exists last, (minus (round_number val) (round_number (al_value last))).
      cbv zeta. split.
      { split; [exact Hin|]. split; [exact Hn|].
        intros a Ha. apply Hmax. by apply list_elem_of_In. }
      split; [apply minus_double_difference|].
      assert (Hsame : (exists l, [last] = [l]
                         /\ repeats name val st
                              (clock w + elapsed 3 (oracle w)) l)
                      <-> repeat_of name st (clock w + elapsed 3 (oracle w)) last
                            (minus (round_number val)
                                   (round_number (al_value last)))).
      { unfold repeats, repeat_of. rewrite <- less_than_abs_below. split.
        - by intros (l & [= <-] & H).
        - intros H. by exists last. }
      rewrite <- Hsame. split; [exact Hiff|exact Hraise].
Qed.

(** C1.  A reading evaluated [low] or [high], ingested by a call none of
    whose four queries throws, raises its alert when the sensor has no
    prior alert; when it has one, the alert is suppressed (no row, no
    broadcast) if and only if a most recent prior alert of the sensor has
    the same status, the difference of the two values as double-precision
    subtraction computes it is strictly less than the category's minimum
    delta, and the prior alert is less than the cooldown old; when one of
    the three fails the call appends the alert and broadcasts it.  This
    holds for [POST /api/reading] and for the simulator's turn of a
    sensor; the cooldown is two minutes. *)
Theorem dedup_gate_rule :
  (forall (req : request_body) (name st : string) (w : World),
      body_name req = Some name -> name <> "" ->
      body_value req <> JUndefined ->
      withinAlertRange name (toNumber (body_value req)) = Some st ->
      no_fault 4 (oracle w) = true ->
      dedup_rule name (toNumber (body_value req)) st w
                 (snd (post_reading req w)))
  /\ (forall (name st : string) (thr : threshold) (w w1 : World) (candidate : Q),
         pick_candidate name thr w = (Return candidate, w1) ->
         withinAlertRange name candidate = Some st ->
         no_fault 4 (oracle w1) = true ->
         dedup_rule name candidate st w1 (snd (simulate_sensor (name, thr) w)))
  /\ ALERT_COOLDOWN_MS = (2 * 60 * 1000)%Z.
Proof.
  split; [|split; [|reflexivity]].
  - intros req name st w Hn Hne Hv Hst Hnf.
    by apply gate_decides_rule, post_reading_gate_decides.
  - intros name st thr w w1 cand Hpick Hst Hnf.
    by apply gate_decides_rule, simulate_sensor_gate_decides.
Qed.

Lemma dedup_gate_rule_witness :
  dedup_rule "Temperature Sensor 1"
    (toNumber (body_value (temperature_request (302 # 10)))) "high" scenario_1
    (snd (post_reading (temperature_request (302 # 10)) scenario_1)).
Proof.
  apply (proj1 dedup_gate_rule (temperature_request (302 # 10))
           "Temperature Sensor 1" "high" scenario_1);
    [reflexivity|discriminate|discriminate|by vm_compute|reflexivity].
Defined.

(** Scenario 2: right after the alert for 30, the reading 30.2 raises
    nothing. *)
Example scenario_2_is_suppressed :
  alert_suppressed scenario_1
    (snd (post_reading (temperature_request (302 # 10)) scenario_1)).
Proof. split; by vm_compute. Qed.

(** C1 as stated, with the exact difference of the two values, fails: after
    an alert for the reading [2^-60], the reading [0.5] of the same sensor
    has the same status [low], is less than the minimum delta [0.5] away,
    and comes within the cooldown; the subtraction gives the double [0.5],
    and the alert is raised. *)
Lemma exact_difference_below_minDelta_is_raised :
  let name := "Temperature Sensor 1" in
  let w := snd (post_reading (temperature_request (1 # 2 ^ 60)) scenario_0) in
  let req := temperature_request (1 # 2) in
  let val := toNumber (body_value req) in
  let now := (clock w + elapsed 3 (oracle w))%Z in
  exists last,
    most_recent name (alerts w) last
    /\ withinAlertRange name val = Some (al_status last)
    /\ Qabs (val - al_value last) < minDeltaOf (kindFromName name)
    /\ (now - al_triggered_at last < ALERT_COOLDOWN_MS)%Z
    /\ alert_raised name val (al_status last) w (snd (post_reading req w)).
Proof.
  intros name w req val now.
  set (last := {| al_id := 1; al_sensor_name := "Temperature Sensor 1";
                  al_value := 1 # 2 ^ 60; al_status := "low";
                  al_triggered_at := 1000 |}).
  assert (Hw : alerts w = [last]) by (by vm_compute).
  exists last. split.
  { unfold most_recent. rewrite Hw. split; [by left|]. split; [reflexivity|].
    intros a [<-|[]] _. reflexivity. }
  split; [by vm_compute|]. split; [by vm_compute|]. split; [by vm_compute|].
  split; by vm_compute.
Qed.

Lemma last_alert_rows_most_recent name t last rest :
  last_alert_rows name t = last :: rest -> most_recent name t last.
Proof.
  intros Hrows. pose proof (last_alert_rows_spec name t) as Hspec.
  rewrite Hrows in Hspec. destruct Hspec as (_ & Hin & Hn & Hmax).
  split; [by apply list_elem_of_In|]. split; [exact Hn|].
  intros a Ha. apply Hmax. by apply list_elem_of_In.
Qed.

(** The minimum delta of every category is a double. *)
Lemma minDelta_is_double name :
  exists N kc : Z,
    minDeltaOf (kindFromName name) == inject_Z N * 2 ^ (kc - 52)
    /\ (2 ^ 52 <= N < 2 ^ 53)%Z /\ (-1022 <= kc)%Z.
Proof.
  unfold kindFromName.
  destruct (includes _ "temp");
    [exists (2 ^ 52)%Z, (-1)%Z; split; [by vm_compute|lia]|].
  destruct (includes _ "humid");
    [exists (2 ^ 52)%Z, 1%Z; split; [by vm_compute|lia]|].
  destruct (includes _ "co2");
    [exists (25 * 2 ^ 48)%Z, 5%Z; split; [by vm_compute|lia]|].
  destruct (includes _ "light");
    [exists (15 * 2 ^ 49)%Z, 4%Z; split; [by vm_compute|lia]|].
  exists (2 ^ 52)%Z, 0%Z. split; [by vm_compute|lia].
Qed.

(** Two values whose doubles are at least the minimum delta apart fail the
    second test of the gate. *)
Lemma change_fails_smallDelta name val lastValue a b :
  rounds_to val (Fin a) -> rounds_to lastValue (Fin b) ->
  minDeltaOf (kindFromName name) <= Qabs (a - b) ->
  less_than (Math_abs (minus (round_number val) (round_number lastValue)))
            (minDeltaOf (kindFromName name)) = false.
Proof.
  intros Ha Hb Hc.
  pose proof (rounds_to_unique _ _ _ (round_number_rounds val) Ha) as Ea.
  pose proof (rounds_to_unique _ _ _ (round_number_rounds lastValue) Hb) as Eb.
  destruct (round_number val) as [a'| | |]; try discriminate.
  destruct (round_number lastValue) as [b'| | |]; try discriminate.
  cbn [minus].
  destruct (minDelta_is_double name) as (N & kc & Hm & HN & Hkc).
  pose proof (round_number_rounds (a' - b')) as Hr.
  assert (Hq : minDeltaOf (kindFromName name) <= Qabs (a' - b'))
    by (by rewrite Ea, Eb).
  destruct (round_number (a' - b')) as [d| | |];
    cbn [Math_abs less_than]; try reflexivity.
  apply Qltb_ge. by apply (rounds_to_ge _ _ _ N kc Hm HN Hkc Hr Hq).
Qed.

Lemma flip_or_change_not_suppressed name val st w :
  (forall last, most_recent name (alerts w) last -> flip_or_change name val st last) ->
  ~ suppressed_by_prior name val st w.
Proof.
  intros Hall (last & Hrows & Hs & Hd & _).
  destruct (Hall last (last_alert_rows_most_recent _ _ _ _ Hrows))
    as [Hflip|(a & b & Ha & Hb & Hc)]; [contradiction|].
  rewrite (change_fails_smallDelta name val _ a b Ha Hb Hc) in Hd.
  discriminate.
Qed.

(** C5.  When the status of the reading differs from the status of the
    sensor's most recent prior alert, or the two values, as the doubles
    they are, differ by at least the category's minimum delta, a call none
    of whose four queries throws appends the alert and broadcasts it,
    however recent the prior alert is.  This holds for [POST /api/reading]
    and for the simulator's turn of a sensor. *)
Theorem flip_or_change_raises :
  (forall (req : request_body) (name st : string) (w : World),
      body_name req = Some name -> name <> "" ->
      body_value req <> JUndefined ->
      withinAlertRange name (toNumber (body_value req)) = Some st ->
      no_fault 4 (oracle w) = true ->
      (forall last, most_recent name (alerts w) last ->
                    flip_or_change name (toNumber (body_value req)) st last) ->
      alert_raised name (toNumber (body_value req)) st w
                   (snd (post_reading req w)))
  /\ (forall (name st : string) (thr : threshold) (w w1 : World) (candidate : Q),
         pick_candidate name thr w = (Return candidate, w1) ->
         withinAlertRange name candidate = Some st ->
         no_fault 4 (oracle w1) = true ->
         (forall last, most_recent name (alerts w1) last ->
                       flip_or_change name candidate st last) ->
         alert_raised name candidate st w1 (snd (simulate_sensor (name, thr) w))).
Proof.
  split.
  - intros req name st w Hn Hne Hv Hst Hnf Hall.
    apply (post_reading_gate_decides req name st w Hn Hne Hv Hst Hnf).
    by apply flip_or_change_not_suppressed.
  - intros name st thr w w1 cand Hpick Hst Hnf Hall.
    apply (simulate_sensor_gate_decides name st thr w w1 cand Hpick Hst Hnf).
    by apply flip_or_change_not_suppressed.
Qed.

Lemma flip_or_change_raises_witness :
  alert_raised "Temperature Sensor 1"
    (toNumber (body_value (temperature_request 15))) "low" scenario_1
    (snd (post_reading (temperature_request 15) scenario_1)).
Proof.
  apply (proj1 flip_or_change_raises (temperature_request 15)
           "Temperature Sensor 1" "low" scenario_1);
    [reflexivity|discriminate|discriminate|by vm_compute|reflexivity|].
  assert (Hw : alerts scenario_1
               = [{| al_id := 1; al_sensor_name := "Temperature Sensor 1";
                     al_value := 30; al_status := "high";
                     al_triggered_at := 1000 |}]) by (by vm_compute).
  intros last (Hin & _). rewrite Hw in Hin. destruct Hin as [<-|[]].
  left. discriminate.
Defined.

(** C5 as stated fails on the readings as they are written: [31.8] and
    [32.3] differ by the minimum delta [0.5] of the category; their doubles
    differ by less, the subtraction gives [0.49999999999999645], and the
    second reading, of the same status and within the cooldown, raises
    nothing. *)
Lemma change_of_minDelta_is_suppressed :
  let name := "Temperature Sensor 1" in
  let first := temperature_request (318 # 10) in
  let second := temperature_request (323 # 10) in
  let w := snd (post_reading first scenario_0) in
  exists last,
    most_recent name (alerts w) last
    /\ al_value last = toNumber (body_value first)
    /\ withinAlertRange name (toNumber (body_value second))
       = Some (al_status last)
    /\ minDeltaOf (kindFromName name) <= Qabs ((323 # 10) - (318 # 10))
    /\ alert_suppressed w (snd (post_reading second w)).
Proof.
  intros name first second w.
  set (last := {| al_id := 1; al_sensor_name := "Temperature Sensor 1";
                  al_value := toNumber (body_value first);
                  al_status := "high"; al_triggered_at := 1000 |}).
  assert (Hw : alerts w = [last]) by (by vm_compute).
  exists last. split.
  { unfold most_recent. rewrite Hw. split; [by left|]. split; [reflexivity|].
    intros a [<-|[]] _. reflexivity. }
  split; [reflexivity|]. split; [by vm_compute|]. split; [by vm_compute|].
  split; by vm_compute.
Qed.

(** ** What a subscriber receives *)

Lemma broadcastable_is_delta e : broadcastable e -> is_delta e = true.
Proof. destruct e; cbn; tauto. Qed.

Lemma prim_foreign sock id w w' :
  sock <> Some id -> prim sock w w' ->
  exists t, trace w' = trace w ++ t /\ Forall (foreign id) t.
Proof.
  intros Hs Hp.
  destruct Hp as [| | | | | | |w e He|w id' Hid|w id' e Hid He|];
    cbn [trace log write_alerts write_sensors write_sensor_data advance
         set_clock_oracle set_entropy];
    try (exists []; rewrite app_nil_r; split; [reflexivity|constructor]; fail);
    (eexists; split; [reflexivity|]); repeat constructor; cbn;
    try congruence; try assumption.
Qed.

Lemma rtc_prim_foreign sock id w w' :
  sock <> Some id -> rtc (prim sock) w w' ->
  exists t, trace w' = trace w ++ t /\ Forall (foreign id) t.
Proof.
  intros Hs. induction 1 as [w|w w1 w2 Hp _ (t2 & Ht2 & Hf2)].
  - exists []. rewrite app_nil_r. split; [reflexivity|constructor].
  - destruct (prim_foreign _ _ _ _ Hs Hp) as (t1 & Ht1 & Hf1).
    exists (t1 ++ t2). rewrite Ht2, Ht1, app_assoc.
    split; [reflexivity|]. now apply Forall_app.
Qed.

Lemma received_from_foreign id connected t :
  Forall (foreign id) t ->
  received_from id connected t = (if connected then emitted t else [])
  /\ Forall (fun e => is_delta e = true) (emitted t).
Proof.
  induction 1 as [|x t Hx _ [IH1 IH2]]; [now destruct connected|].
  destruct x; cbn [received_from emitted foreign] in *; auto.
  - split; [destruct connected; now rewrite IH1|].
    constructor; [now apply broadcastable_is_delta|exact IH2].
  - apply String.eqb_neq in Hx. now rewrite Hx.
  - apply String.eqb_neq in Hx. now rewrite Hx, orb_false_r.
Qed.

Section Subscribers.
Context {collation : Collation}.

Lemma run_foreign id rs w :
  (forall r, r ∈ rs -> r <> socket_connection id) ->
  exists t, trace (run rs w) = trace w ++ t /\ Forall (foreign id) t.
Proof.
  revert w. induction rs as [|r rs IH]; intros w Hrs.
  - exists []. rewrite app_nil_r. split; [reflexivity|constructor].
  - cbn [run fold_left].
    assert (socket_of r <> Some id) as Hr.
    { destruct r; cbn; try discriminate. intros [= ->].
      apply (Hrs (socket_connection id)); [left|reflexivity]. }
    destruct (rtc_prim_foreign _ id _ _ Hr (step_moves r w)) as (t1 & Ht1 & Hf1).
    destruct (IH (step r w)) as (t2 & Ht2 & Hf2).
    { intros r' Hin. apply Hrs. now right. }
    exists (t1 ++ t2). fold (run rs (step r w)). rewrite Ht2, Ht1, app_assoc.
    split; [reflexivity|]. now apply Forall_app.
Qed.

(** The connection handler when neither of its queries throws. *)
Lemma on_connection_ok id w :
  no_fault 2 (oracle w) = true ->
  trace (snd (on_connection id w)) =
    trace w ++ [socket_connected id;
                socket_emitted id (all_sensors (merge_sort by_name (sensors w)));
                socket_emitted id
                  (all_alerts
                     (map to_msg (take 50 (order_by_triggered_at_desc (alerts w)))))].
Proof.
  intros Hnf.
  apply no_fault_S in Hnf as [Hf1 Hnf]. apply no_fault_S in Hnf as [Hf2 _].
  unfold on_connection, getLatestSensors, select_recent_alerts, pool_query,
    try_catch, bind, socket_emit, effect_.
  cbn [oracle log]. rewrite Hf1.
  cbn [oracle sensors log advance set_clock_oracle]. rewrite Hf2.
  cbn. rewrite <- !app_assoc. reflexivity.
Qed.

End Subscribers.

Lemma ascii_compare_refl c : Ascii.compare c c = Eq.
Proof. unfold Ascii.compare. apply N.compare_refl. Qed.

Lemma string_compare_trans a b c :
  String.compare a b <> Gt -> String.compare b c <> Gt ->
  String.compare a c <> Gt.
Proof.
  revert b c. induction a as [|x a IH]; intros [|y b] [|z c]; cbn; try congruence.
  destruct (Ascii.compare x y) eqn:Hxy; destruct (Ascii.compare y z) eqn:Hyz;
    try congruence.
  - apply Ascii.compare_eq_iff in Hxy, Hyz. subst.
    rewrite ascii_compare_refl. apply IH.
  - apply Ascii.compare_eq_iff in Hxy. subst. rewrite Hyz. congruence.
  - apply Ascii.compare_eq_iff in Hyz. subst. rewrite Hxy. congruence.
  - unfold Ascii.compare in *. rewrite N.compare_lt_iff in Hxy, Hyz.
    assert (N_of_ascii x < N_of_ascii z)%N as Hxz by lia.
    apply N.compare_lt_iff in Hxz. rewrite Hxz. congruence.
Qed.

Lemma string_leb_trans a b c :
  String.leb a b = true -> String.leb b c = true -> String.leb a c = true.
Proof.
  unfold String.leb. intros Hab Hbc.
  pose proof (string_compare_trans a b c) as H.
  destruct (String.compare a b), (String.compare b c), (String.compare a c);
    try reflexivity; try discriminate; exfalso; apply H; congruence.
Qed.

(** C8.  Under a collation that is a total preorder, when a socket that has
    not connected before connects and neither query of the handler throws,
    it is sent two messages: all the
    snapshots, one per sensor name and in ascending order of name, then the
    50 most recent alerts (all of them when there are fewer), most recent
    first.  Whatever the server handles afterwards, short of a connection
    of the same socket, adds for this socket only the broadcasts
    [sensor-updated], [sensor-alert] and [alerts-cleared]. *)
Theorem connection_replays_state_then_deltas
  (collation : Collation) (id : string) (before : list request)
  (t0 : Z) (o : list tick) (e : list Q) :
  let w := run before (initial t0 o e) in
  let w1 := step (socket_connection id) w in
  (forall a b, name_le a b = true \/ name_le b a = true) ->
  (forall a b c, name_le a b = true -> name_le b c = true -> name_le a c = true) ->
  (forall r, r ∈ before -> r <> socket_connection id) ->
  no_fault 2 (oracle w) = true ->
  exists (snapshots : list sensor_row) (recent older : list alert_row),
    received id (trace w1)
      = [all_sensors snapshots; all_alerts (map to_msg recent)]
    /\ snapshots ≡ₚ sensors w
    /\ NoDup (map sn_name snapshots)
    /\ StronglySorted by_name snapshots
    /\ recent ++ older ≡ₚ alerts w
    /\ length recent = Nat.min 50 (length (alerts w))
    /\ StronglySorted triggered_desc recent
    /\ (forall a b, a ∈ recent -> b ∈ older -> triggered_desc a b)
    /\ forall after : list request,
         (forall r, r ∈ after -> r <> socket_connection id) ->
         exists deltas,
           received id (trace (run after w1))
             = [all_sensors snapshots; all_alerts (map to_msg recent)] ++ deltas
           /\ deltas = emitted (trace_since w1 (run after w1))
           /\ Forall (fun ev => is_delta ev = true) deltas.
Proof.
  intros w w1 Htotal Htrans Hnew Hnf.
  assert (Total by_name) as Htot by (intros a b; apply Htotal).
  assert (Transitive by_name) as Htra by (intros a b c; apply Htrans).
  exists (merge_sort by_name (sensors w)),
         (take 50 (order_by_triggered_at_desc (alerts w))),
         (drop 50 (order_by_triggered_at_desc (alerts w))).
  destruct (run_foreign id before (initial t0 o e) Hnew) as (tb & Htb & Hfb).
  fold w in Htb. cbn [initial trace app] in Htb.
  destruct (received_from_foreign id false tb Hfb) as [Hrb _].
  assert (existsb (fun x => match x with
                            | socket_connected id' => String.eqb id' id
                            | _ => false
                            end) tb = false) as Hnc.
  { clear -Hfb. induction Hfb as [|x t Hx _ IH]; [reflexivity|].
    cbn [existsb]. rewrite IH, orb_false_r.
    destruct x; try reflexivity. now apply String.eqb_neq. }
  assert (trace w1 = tb ++ [socket_connected id;
                            socket_emitted id (all_sensors (merge_sort by_name (sensors w)));
                            socket_emitted id
                              (all_alerts (map to_msg
                                 (take 50 (order_by_triggered_at_desc (alerts w)))))])
    as Hw1.
  { subst w1. cbn [step]. rewrite (on_connection_ok id w Hnf), Htb. reflexivity. }
  assert (received id (trace w1)
          = [all_sensors (merge_sort by_name (sensors w));
             all_alerts (map to_msg
                (take 50 (order_by_triggered_at_desc (alerts w))))]) as Hrecv.
  { unfold received. rewrite Hw1, received_from_app, Hrb, Hnc.
    cbn. now rewrite String.eqb_refl. }
  pose proof (merge_sort_Permutation by_name (sensors w)) as Hperm.
  destruct (limit_desc_spec 50 (alerts w)) as (Hp & Hlen & Hsorted & Hcross).
  split; [exact Hrecv|]. split; [exact Hperm|].
  split.
  { rewrite Hperm. apply (run_names_unique before t0 o e). }
  split; [apply StronglySorted_merge_sort; apply _|].
  split; [exact Hp|]. split; [exact Hlen|]. split; [exact Hsorted|].
  split; [exact Hcross|].
  intros after Hafter.
  destruct (run_foreign id after w1 Hafter) as (ta & Hta & Hfa).
  destruct (received_from_foreign id true ta Hfa) as [Hra Hdelta].
  exists (emitted ta). split; [|split].
  - unfold received in *. rewrite Hta, received_from_app, Hrecv.
    assert (existsb (fun x => match x with
                              | socket_connected id' => String.eqb id' id
                              | _ => false
                              end) (trace w1) = true) as ->.
    { rewrite Hw1, existsb_app. cbn.
      now rewrite String.eqb_refl, orb_true_r. }
    cbn [orb]. now rewrite Hra.
  - now rewrite (trace_since_app _ _ _ Hta).
  - exact Hdelta.
Qed.

Lemma connection_replays_state_then_deltas_witness :
  let w := @run bytewise [POST_api_reading (temperature_request 30)]
                (initial 1000 [] []) in
  exists (snapshots : list sensor_row) (recent : list alert_row),
    received "socket-1" (trace (@step bytewise (socket_connection "socket-1") w))
      = [all_sensors snapshots; all_alerts (map to_msg recent)]
    /\ snapshots ≡ₚ sensors w
    /\ length recent = Nat.min 50 (length (alerts w)).
Proof.
  intros w.
  destruct (connection_replays_state_then_deltas
              bytewise "socket-1" [POST_api_reading (temperature_request 30)]
              1000 [] [])
    as (snapshots & recent & older & Hrecv & Hperm & _ & _ & _ & Hlen & _).
  - exact String.leb_total.
  - exact string_leb_trans.
  - intros r Hin. apply list_elem_of_In in Hin.
    destruct Hin as [<-|[]]. discriminate.
  - vm_compute. reflexivity.
  - exists snapshots, recent. split; [exact Hrecv|]. split; [exact Hperm|].
    exact Hlen.
Defined.

(** One tick of the simulator on an empty store.  With every draw at one
    half the walk stays at the midpoint of the bounds and nothing spikes:
    four readings, four snapshots, no alert.  With the random source
    exhausted every draw is 0, below every spike probability and below one
    half: each sensor overshoots its [max] by its drift and raises [high]. *)
Example simulateOnce_on_empty_store :
  let halves := [1 # 2; 1 # 2; 1 # 2; 1 # 2; 1 # 2; 1 # 2; 1 # 2; 1 # 2] in
  let calm := snd (simulateOnce (initial 0 [] halves)) in
  let spiky := snd (simulateOnce (initial 0 [] [])) in
  map rd_sensor_name (sensor_data calm) = SENSOR_NAMES
  /\ map sn_name (sensors calm) = SENSOR_NAMES
  /\ Forall2 Qeq (map sn_value (sensors calm)) [23; 45; 400; 400]
  /\ alerts calm = []
  /\ length (emitted (trace calm)) = 4%nat
  /\ Forall2 Qeq (map sn_value (sensors spiky)) [292 # 10; 64; 860; 780]
  /\ map al_status (alerts spiky) = ["high"; "high"; "high"; "high"]
  /\ length (emitted (trace spiky)) = 8%nat.
Proof. vm_compute. repeat split; repeat constructor. Qed.

(** * Properties of what is around the pipeline *)

(** ** Frames of whole calls *)

Section Preserves.
Variable R : World -> World -> Prop.
Hypothesis R_refl : forall w, R w w.
Hypothesis R_trans : forall w1 w2 w3, R w1 w2 -> R w2 w3 -> R w1 w3.

Lemma preserves_ret {A : Type} (a : A) : preserves R (ret a).
Proof using R_refl. intros w. apply R_refl. Qed.

Lemma preserves_bind {A B : Type} (m : M A) (k : A -> M B) :
  preserves R m -> (forall a, preserves R (k a)) -> preserves R (bind m k).
Proof using R_refl R_trans.
  intros Hm Hk w. unfold bind. specialize (Hm w).
  destruct (m w) as [[a|e] w1]; cbn in *; [|exact Hm].
  eapply R_trans; [exact Hm|apply Hk].
Qed.

Lemma preserves_try_catch {A : Type} (body : M A) (handler : string -> M A) :
  preserves R body -> (forall e, preserves R (handler e)) ->
  preserves R (try_catch body handler).
Proof using R_refl R_trans.
  intros Hb Hh w. unfold try_catch. specialize (Hb w).
  destruct (body w) as [[a|e] w1]; cbn in *; [exact Hb|].
  eapply R_trans; [exact Hb|apply Hh].
Qed.

Lemma preserves_for_of {A : Type} (l : list A) (body : A -> M unit) :
  (forall x, preserves R (body x)) -> preserves R (for_of l body).
Proof using R_refl R_trans.
  intros Hb. induction l as [|x rest IH]; cbn [for_of].
  - apply preserves_ret.
  - apply preserves_bind; [apply Hb|intros _; exact IH].
Qed.

Lemma preserves_pool_query {A : Type} (run : Z -> World -> A * World) :
  (forall w, R w (advance w)) -> (forall now w, R w (snd (run now w))) ->
  preserves R (pool_query run).
Proof using R_refl R_trans.
  intros Ha Hr w. unfold pool_query.
  destruct (next_fails (oracle w)); [apply Ha|].
  specialize (Hr (clock (advance w)) (advance w)).
  destruct (run (clock (advance w)) (advance w)) as [a w'].
  eapply R_trans; [apply Ha|exact Hr].
Qed.

Lemma preserves_effect_ x :
  (forall w, R w (log x w)) -> preserves R (effect_ x).
Proof using Type. intros H w. apply H. Qed.

Lemma preserves_fold_left {A : Type} (f : World -> A -> World) (l : list A) w :
  (forall v x, R v (f v x)) -> R w (fold_left f l w).
Proof using R_refl R_trans.
  intros Hf. revert w. induction l as [|x rest IH]; intros w; cbn.
  - apply R_refl.
  - eapply R_trans; [apply Hf|apply IH].
Qed.

End Preserves.

(** ** Calls that never throw *)

Lemma returns_ret {A : Type} (a : A) : returns (ret a).
Proof. intros w. by exists a. Qed.

Lemma returns_effect_ x : returns (effect_ x).
Proof. intros w. by exists tt. Qed.

Lemma returns_bind {A B : Type} (m : M A) (k : A -> M B) :
  returns m -> (forall a, returns (k a)) -> returns (bind m k).
Proof.
  intros Hm Hk w. unfold bind. destruct (Hm w) as [a Ha].
  destruct (m w) as [[a'|e] w1]; cbn in Ha; [|discriminate]. apply Hk.
Qed.

Lemma returns_try_catch {A : Type} (body : M A) (handler : string -> M A) :
  (forall e, returns (handler e)) -> returns (try_catch body handler).
Proof.
  intros Hh w. unfold try_catch.
  destruct (body w) as [[a|e] w1]; [by exists a|apply Hh].
Qed.

Lemma returns_for_of {A : Type} (l : list A) (body : A -> M unit) :
  (forall x, returns (body x)) -> returns (for_of l body).
Proof.
  intros Hb. induction l as [|x rest IH]; cbn [for_of].
  - apply returns_ret.
  - apply returns_bind; [apply Hb|intros _; exact IH].
Qed.

Lemma returns_pick_candidate name thr : returns (pick_candidate name thr).
Proof.
  intros w. destruct (pick_candidate_returns name thr w) as (cand & w1 & H & _).
  exists cand. by rewrite H.
Qed.

Lemma returns_simulate_sensor entry : returns (simulate_sensor entry).
Proof.
  destruct entry as [name thr]. unfold simulate_sensor.
  apply returns_bind; [apply returns_pick_candidate|].
  intros cand. apply returns_try_catch. intros e. apply returns_effect_.
Qed.

Lemma for_of_fold {A : Type} (l : list A) (body : A -> M unit) w :
  (forall x, returns (body x)) ->
  for_of l body w = (Return tt, fold_left (fun v x => snd (body x v)) l w).
Proof.
  intros Hb. revert w. induction l as [|x rest IH]; intros w; cbn [for_of fold_left].
  - reflexivity.
  - unfold bind. destruct (Hb x w) as [a Ha].
    destruct (body x w) as [[[]|e] w1]; cbn in Ha; [|discriminate].
    cbn. apply IH.
Qed.

(** X1.  No exception escapes a handler: [POST /api/reading] and
    [DELETE /api/alerts/clear] always answer, and the [connection] handler,
    one turn of the loop of the simulator, [simulateOnce] and [boot] with its
    [catch], with the simulator enabled or not, always complete, whatever
    query throws.  [seedSensorsIfEmpty] on its own does throw when a query
    of it does. *)
Theorem handlers_never_throw (collation : Collation) :
  (forall req, returns (post_reading req))
  /\ returns delete_alerts_clear
  /\ (forall id, returns (on_connection id))
  /\ (forall entry, returns (simulate_sensor entry))
  /\ returns simulateOnce
  /\ (forall ENABLE_SIM, returns (boot ENABLE_SIM))
  /\ (forall w, next_fails (oracle w) = true ->
                exists e, fst (seedSensorsIfEmpty w) = Throw e).
Proof.
  split; [|split; [|split; [|split; [|split; [|split]]]]].
  - intros req. apply returns_try_catch. intros e.
    apply returns_bind; [apply returns_effect_|intros _; apply returns_ret].
  - apply returns_try_catch. intros e.
    apply returns_bind; [apply returns_effect_|intros _; apply returns_ret].
  - intros id. apply returns_bind; [apply returns_effect_|intros _].
    apply returns_try_catch. intros e. apply returns_effect_.
  - apply returns_simulate_sensor.
  - apply returns_for_of, returns_simulate_sensor.
  - intros ENABLE_SIM. apply returns_try_catch. intros e. apply returns_effect_.
  - intros w Hf. exists "query failed".
    unfold seedSensorsIfEmpty, bind, count_sensors, pool_query. by rewrite Hf.
Qed.

Lemma handlers_never_throw_witness :
  exists e,
    fst (seedSensorsIfEmpty (initial 0 [ {| delay := 0; fails := true |} ] []))
      = Throw e.
Proof.
  apply (proj2 (proj2 (proj2 (proj2 (proj2 (proj2
           (handlers_never_throw bytewise))))))).
  reflexivity.
Defined.

(** X2.  A failure while one sensor is simulated does not stop the loop of
    [simulateOnce]: the four configured sensors are visited in the order of
    [THRESHOLDS], each from the world the one before left; a turn whose
    writes throw is logged as ["simulation error:"] and the loop goes on. *)
Theorem simulateOnce_visits_every_sensor (w : World) :
  simulateOnce w =
    (Return tt, fold_left (fun v entry => snd (simulate_sensor entry v))
                          THRESHOLDS w)
  /\ forall (name : string) (thr : threshold) (v : World),
       exists cand v1,
         pick_candidate name thr v = (Return cand, v1)
         /\ ((exists row,
                 fst (ingest name cand (unitFor name) v1) = Return row
                 /\ simulate_sensor (name, thr) v
                    = (Return tt, snd (ingest name cand (unitFor name) v1)))
             \/ (exists e,
                    fst (ingest name cand (unitFor name) v1) = Throw e
                    /\ simulate_sensor (name, thr) v
                       = (Return tt,
                          log (console_error "simulation error:")
                              (snd (ingest name cand (unitFor name) v1))))).
Proof.
  split.
  - apply for_of_fold, returns_simulate_sensor.
  - intros name thr v.
    destruct (pick_candidate_returns name thr v) as (cand & v1 & Hp & _).
    exists cand, v1. split; [exact Hp|].
    destruct (ingest name cand (unitFor name) v1) as [[row|e] w'] eqn:Hi.
    + left. exists row. split; [reflexivity|].
      exact (simulate_sensor_Return _ _ _ _ _ _ _ Hp Hi).
    + right. exists e. split; [reflexivity|].
      exact (simulate_sensor_Throw _ _ _ _ _ _ _ Hp Hi).
Qed.

(** ** The relations of the frames *)

Lemma emitted_app t1 t2 : emitted (t1 ++ t2) = emitted t1 ++ emitted t2.
Proof.
  induction t1 as [|x t1 IH]; [reflexivity|].
  destruct x; cbn; rewrite ?IH; reflexivity.
Qed.

Lemma same_tables_refl w : same_tables w w.
Proof. by repeat split. Qed.

Lemma same_tables_trans w1 w2 w3 :
  same_tables w1 w2 -> same_tables w2 w3 -> same_tables w1 w3.
Proof. intros (? & ? & ?) (? & ? & ?). repeat split; congruence. Qed.

Lemma no_broadcast_refl w : no_broadcast w w.
Proof. exists []. by rewrite app_nil_r. Qed.

Lemma no_broadcast_trans w1 w2 w3 :
  no_broadcast w1 w2 -> no_broadcast w2 w3 -> no_broadcast w1 w3.
Proof.
  intros (t1 & H1 & E1) (t2 & H2 & E2). exists (t1 ++ t2).
  rewrite H2, H1, <- app_assoc, emitted_app, E1, E2. by split.
Qed.

Lemma readings_kept_refl w : readings_kept w w.
Proof. exists []. by rewrite app_nil_r. Qed.

Lemma readings_kept_trans w1 w2 w3 :
  readings_kept w1 w2 -> readings_kept w2 w3 -> readings_kept w1 w3.
Proof.
  intros (a1 & H1) (a2 & H2). exists (a1 ++ a2).
  by rewrite H2, H1, <- app_assoc.
Qed.

Lemma alerts_kept_refl w : alerts_kept w w.
Proof. exists []. by rewrite app_nil_r. Qed.

Lemma alerts_kept_trans w1 w2 w3 :
  alerts_kept w1 w2 -> alerts_kept w2 w3 -> alerts_kept w1 w3.
Proof.
  intros (a1 & H1) (a2 & H2). exists (a1 ++ a2).
  by rewrite H2, H1, <- app_assoc.
Qed.

Lemma snapshots_kept_refl w : snapshots_kept w w.
Proof. exists []. by rewrite app_nil_r. Qed.

Lemma snapshots_kept_trans w1 w2 w3 :
  snapshots_kept w1 w2 -> snapshots_kept w2 w3 -> snapshots_kept w1 w3.
Proof.
  intros (a1 & H1) (a2 & H2). exists (a1 ++ a2).
  by rewrite H2, H1, <- app_assoc.
Qed.

(** Walks a computation down to its queries and effects; [leaf] closes what
    is left for one of them. *)
Ltac frame Hrefl Htrans leaf :=
  repeat (intros;
    first [ leaf
          | apply (preserves_ret _ Hrefl)
          | apply (preserves_bind _ Hrefl Htrans)
          | apply (preserves_try_catch _ Hrefl Htrans)
          | apply (preserves_for_of _ Hrefl Htrans)
          | apply (preserves_pool_query _ Hrefl Htrans)
          | apply preserves_effect_
          | match goal with
            | |- preserves _ (if ?b then _ else _) => destruct b
            | |- preserves _ (let '(_, _) := ?x in _) => destruct x
            end ]).

(** An upsert keeps every row in its place, with its [id] and its name; a
    new name goes to the end. *)
Lemma upsert_row_ids proposed t :
  map (fun r => (sn_id r, sn_name r)) (fst (upsert_row proposed t)) =
    map (fun r => (sn_id r, sn_name r)) t
    ++ (if mem_string (sn_name proposed) (map sn_name t) then []
        else [(sn_id proposed, sn_name proposed)]).
Proof.
  induction t as [|r rest IH]; [reflexivity|].
  change (mem_string (sn_name proposed) (map sn_name (r :: rest)))
    with (String.eqb (sn_name proposed) (sn_name r)
          || mem_string (sn_name proposed) (map sn_name rest)).
  cbn [upsert_row]. rewrite (String.eqb_sym (sn_name proposed) (sn_name r)).
  destruct (String.eqb (sn_name r) (sn_name proposed)) eqn:E.
  - cbn. by rewrite app_nil_r.
  - destruct (upsert_row proposed rest) as [rest' out]. cbn [fst orb map] in *.
    by rewrite IH.
Qed.

Lemma upsert_row_new proposed t :
  mem_string (sn_name proposed) (map sn_name t) = false ->
  upsert_row proposed t = (t ++ [proposed], proposed).
Proof.
  induction t as [|r rest IH]; [reflexivity|].
  change (mem_string (sn_name proposed) (map sn_name (r :: rest)))
    with (String.eqb (sn_name proposed) (sn_name r)
          || mem_string (sn_name proposed) (map sn_name rest)).
  cbn [upsert_row]. rewrite (String.eqb_sym (sn_name proposed) (sn_name r)).
  destruct (String.eqb (sn_name r) (sn_name proposed)); [discriminate|].
  cbn [orb]. intros H. by rewrite (IH H).
Qed.

Lemma prim_readings_kept sock w w' : prim sock w w' -> readings_kept w w'.
Proof.
  destruct 1; unfold readings_kept; cbn;
    first [by (exists []; rewrite app_nil_r)|by eexists].
Qed.

Lemma prim_snapshots_kept sock w w' : prim sock w w' -> snapshots_kept w w'.
Proof.
  destruct 1; unfold snapshots_kept; cbn;
    try (by (exists []; rewrite app_nil_r)).
  eexists. apply upsert_row_ids.
Qed.

Lemma ingest_alerts_kept name val u : preserves alerts_kept (ingest name val u).
Proof.
  intros w. destruct (ingest name val u w) as [o w'] eqn:H.
  apply ingest_ingested in H. cbn.
  destruct H as [? ? _ _ _ Ha|? ? ? _ _ _ _ _ Ha|? ? ? ? ? _ _ _ _ _ _ _ Ha _
                |? ? ? ? ? _ _ _ _ _ _ _ Ha _ _ _].
  - exists []. by rewrite app_nil_r.
  - exists []. by rewrite app_nil_r.
  - exists []. by rewrite app_nil_r.
  - by exists [a].
Qed.

Lemma pick_candidate_alerts_kept name thr :
  preserves alerts_kept (pick_candidate name thr).
Proof.
  intros w. destruct (pick_candidate_returns name thr w) as (c & w1 & -> & H).
  destruct H as (_ & _ & Ha & _). exists []. rewrite app_nil_r. exact Ha.
Qed.

Ltac alerts_leaf :=
  first [ apply ingest_alerts_kept
        | apply pick_candidate_alerts_kept
        | by (cbn; repeat match goal with
                          | |- context [upsert_row ?p ?t] =>
                              destruct (upsert_row p t)
                          end;
              exists []; cbn; rewrite app_nil_r) ].

Lemma simulateOnce_alerts_kept : preserves alerts_kept simulateOnce.
Proof.
  unfold simulateOnce. apply (preserves_for_of _ alerts_kept_refl alerts_kept_trans).
  intros [name thr]. unfold simulate_sensor.
  frame alerts_kept_refl alerts_kept_trans alerts_leaf.
Qed.

Lemma step_alerts_kept (collation : Collation) r w :
  r <> DELETE_api_alerts_clear -> alerts_kept w (step r w).
Proof.
  intros Hr. destruct r as [req| |id| |ENABLE_SIM]; [| done | | |]; cbn [step].
  - revert w. change (preserves alerts_kept (post_reading req)).
    unfold post_reading. frame alerts_kept_refl alerts_kept_trans alerts_leaf.
  - revert w. change (preserves alerts_kept (on_connection id)).
    unfold on_connection, getLatestSensors, select_recent_alerts, socket_emit.
    frame alerts_kept_refl alerts_kept_trans alerts_leaf.
  - apply simulateOnce_alerts_kept.
  - revert w. change (preserves alerts_kept (boot ENABLE_SIM)).
    unfold boot, ensureSchema, create_if_not_exists, seedSensorsIfEmpty,
      count_sensors, upsert_sensors, insert_sensor_data.
    frame alerts_kept_refl alerts_kept_trans
          ltac:(first [apply simulateOnce_alerts_kept|alerts_leaf]).
Qed.

(** X3.  Nothing but [DELETE /api/alerts/clear] ever removes or rewrites a
    row: along every run the readings stay, each in its place; every
    snapshot keeps its [id], its name and its place, new sensors are put
    after them; and in a run without that request the alerts stay too. *)
Theorem store_only_grows (collation : Collation) (rs : list request) (w : World) :
  readings_kept w (run rs w)
  /\ snapshots_kept w (run rs w)
  /\ ((forall r, r ∈ rs -> r <> DELETE_api_alerts_clear) ->
      alerts_kept w (run rs w)).
Proof.
  split; [|split].
  - apply (run_invariant (readings_kept w)); [|apply readings_kept_refl].
    intros s v v' Hp Hk.
    eapply readings_kept_trans; [exact Hk|exact (prim_readings_kept _ _ _ Hp)].
  - apply (run_invariant (snapshots_kept w)); [|apply snapshots_kept_refl].
    intros s v v' Hp Hk.
    eapply snapshots_kept_trans; [exact Hk|exact (prim_snapshots_kept _ _ _ Hp)].
  - revert w. induction rs as [|r rs IH]; intros w H; unfold run in *;
      cbn [fold_left]; [apply alerts_kept_refl|].
    eapply alerts_kept_trans.
    + apply (step_alerts_kept collation r w), H, elem_of_cons. by left.
    + apply IH. intros r' Hr'. apply H, elem_of_cons. by right.
Qed.

Lemma store_only_grows_witness :
  alerts_kept scenario_1
    (@run bytewise [POST_api_reading (temperature_request 15); simulator_tick]
          scenario_1).
Proof.
  apply (proj2 (proj2 (store_only_grows bytewise
           [POST_api_reading (temperature_request 15); simulator_tick]
           scenario_1))).
  intros r Hr. apply elem_of_cons in Hr as [->|Hr]; [discriminate|].
  apply list_elem_of_singleton in Hr as ->. discriminate.
Defined.

(** ** Start-up *)

Lemma seed_one name val u w :
  no_fault 2 (oracle w) = true ->
  mem_string name (map sn_name (sensors w)) = false ->
  exists row r w2,
    bind (upsert_sensors name val u) (fun _ => insert_sensor_data name val u) w
      = (Return tt, w2)
    /\ sensors w2 = sensors w ++ [row] /\ snapshot_fields row = (name, val, u)
    /\ sensor_data w2 = sensor_data w ++ [r] /\ reading_fields r = (name, val, u)
    /\ oracle w2 = tail (tail (oracle w)).
Proof.
  intros Hnf Hnew.
  apply no_fault_S in Hnf as [Hf1 Hnf]. apply no_fault_S in Hnf as [Hf2 _].
  unfold bind, upsert_sensors, insert_sensor_data, pool_query.
  rewrite Hf1. cbn [sensors advance set_clock_oracle].
  rewrite upsert_row_new by exact Hnew.
  cbn [oracle advance set_clock_oracle log write_sensors]. rewrite Hf2.
  do 3 eexists. split; [reflexivity|]. cbn. auto.
Qed.

Lemma seed_loop (l : list (string * Q * string)) w :
  no_fault (length l + length l) (oracle w) = true ->
  List.NoDup (map (fun s => fst (fst s)) l) ->
  (forall s, In s l -> ~ In (fst (fst s)) (map sn_name (sensors w))) ->
  let out :=
    for_of l (fun s =>
      let '(name, val, unit_) := s in
      upsert_sensors name val (Some unit_) ;;
      insert_sensor_data name val (Some unit_)) w in
  fst out = Return tt
  /\ map snapshot_fields (sensors (snd out))
     = map snapshot_fields (sensors w) ++ map seed_fields l
  /\ map reading_fields (sensor_data (snd out))
     = map reading_fields (sensor_data w) ++ map seed_fields l.
Proof.
  revert w. induction l as [|[[name val] u] rest IH]; intros w Hnf Hnd Hnew.
  - cbn. by rewrite !app_nil_r.
  - cbn [length] in Hnf. rewrite Nat.add_succ_r in Hnf. cbn [Nat.add] in Hnf.
    assert (Hnf2 : no_fault 2 (oracle w) = true
                   /\ no_fault (length rest + length rest)
                               (tail (tail (oracle w))) = true).
    { apply no_fault_S in Hnf as [Hf1 Hnf]. apply no_fault_S in Hnf as [Hf2 Hnf].
      split; [|exact Hnf]. apply no_fault_S. split; [exact Hf1|].
      apply no_fault_S. by split. }
    destruct Hnf2 as [Hnf2 Hrest].
    assert (Hm : mem_string name (map sn_name (sensors w)) = false).
    { destruct (mem_string name _) eqn:E; [|reflexivity].
      apply mem_string_In in E. exfalso. apply (Hnew (name, val, u)); [by left|].
      exact E. }
    destruct (seed_one name val (Some u) w Hnf2 Hm)
      as (row & r & w2 & Hrun & Hs & Hrow & Hd & Hr & Ho).
    cbv zeta. cbn [for_of]. rewrite !(bind_Return _ _ _ _ _ Hrun).
    apply List.NoDup_cons_iff in Hnd as [Hnotin Hnd]. cbn [map fst] in Hnotin.
    specialize (IH w2). rewrite Ho in IH. specialize (IH Hrest Hnd).
    destruct IH as (Hret & Hs' & Hd').
    { intros s Hin. rewrite Hs, map_app, in_app_iff. intros [Hold|[Heq|[]]].
      - apply (Hnew s); [by right|exact Hold].
      - apply Hnotin. apply in_map_iff. exists s. split; [|exact Hin].
        cbn in Heq. inversion Hrow. congruence. }
    split; [exact Hret|]. rewrite Hs', Hd', Hs, Hd, !map_app. cbn [map].
    rewrite Hrow, Hr, <- !app_assoc. by split.
Qed.

Ltac quiet_leaf :=
  by (cbn;
      repeat match goal with
             | |- context [upsert_row ?p ?t] => destruct (upsert_row p t)
             end;
      unfold no_broadcast;
      first [ by (exists []; cbn; rewrite app_nil_r)
            | by (eexists; split; [reflexivity|reflexivity]) ]).

Lemma bind_assoc {A B C : Type} (m : M A) (k : A -> M B) (h : B -> M C) w :
  bind (bind m k) h w = bind m (fun a => bind (k a) h) w.
Proof. unfold bind. by destruct (m w) as [[a|e] w']. Qed.

Lemma start_no_broadcast :
  preserves no_broadcast (ensureSchema ;; seedSensorsIfEmpty).
Proof.
  unfold ensureSchema, create_if_not_exists, seedSensorsIfEmpty, count_sensors,
    upsert_sensors, insert_sensor_data.
  frame no_broadcast_refl no_broadcast_trans quiet_leaf.
Qed.

Lemma start_alerts :
  preserves (fun w w' => alerts w' = alerts w)
            (ensureSchema ;; seedSensorsIfEmpty).
Proof.
  unfold ensureSchema, create_if_not_exists, seedSensorsIfEmpty, count_sensors,
    upsert_sensors, insert_sensor_data.
  frame (fun w : World => eq_refl (alerts w))
        (fun (w1 w2 w3 : World) (H1 : alerts w2 = alerts w1)
             (H2 : alerts w3 = alerts w2) => eq_trans H2 H1)
        ltac:(by (cbn; repeat match goal with
                              | |- context [upsert_row ?p ?t] =>
                                  destruct (upsert_row p t)
                              end)).
Qed.

Lemma ensureSchema_same_tables : preserves same_tables ensureSchema.
Proof.
  unfold ensureSchema, create_if_not_exists.
  frame same_tables_refl same_tables_trans ltac:(by (cbn; repeat split)).
Qed.

(** The five statements of [ensureSchema] when none throws. *)
Lemma ensureSchema_ok w :
  no_fault 5 (oracle w) = true ->
  exists w0,
    ensureSchema w = (Return tt, w0)
    /\ same_tables w w0
    /\ oracle w0 = tail (tail (tail (tail (tail (oracle w))))).
Proof.
  intros Hnf.
  apply no_fault_S in Hnf as [Hf1 Hnf]. apply no_fault_S in Hnf as [Hf2 Hnf].
  apply no_fault_S in Hnf as [Hf3 Hnf]. apply no_fault_S in Hnf as [Hf4 Hnf].
  apply no_fault_S in Hnf as [Hf5 _].
  unfold ensureSchema, create_if_not_exists, bind, pool_query.
  rewrite Hf1. cbn [oracle advance set_clock_oracle]. rewrite Hf2.
  cbn [oracle advance set_clock_oracle]. rewrite Hf3.
  cbn [oracle advance set_clock_oracle]. rewrite Hf4.
  cbn [oracle advance set_clock_oracle]. rewrite Hf5.
  eexists. split; [reflexivity|]. by repeat split.
Qed.

(** X4.  [boot] starts with the five statements of [ensureSchema] and with
    [seedSensorsIfEmpty]; the two broadcast nothing and never touch the
    alerts, and they seed only an empty [sensors] table: with a snapshot
    already there (also one left by a seeding that failed half way) no
    table changes; on an empty table, when none of the fourteen queries
    throws, the four seeds become the four snapshots and four readings, in
    the order of the source.  When the two complete, [boot] goes on with
    [simulateOnce] if [ENABLE_SIM] is ["1"] and ends otherwise; when one
    of their queries throws, [boot] logs ["Boot error:"] and does not
    simulate. *)
Theorem boot_seeds_only_an_empty_store (ENABLE_SIM : option string) (w : World) :
  let start := ensureSchema ;; seedSensorsIfEmpty in
  let w1 := snd (start w) in
  no_broadcast w w1
  /\ alerts w1 = alerts w
  /\ (sensors w <> [] -> same_tables w w1)
  /\ (sensors w = [] -> no_fault 14 (oracle w) = true ->
      fst (start w) = Return tt
      /\ map snapshot_fields (sensors w1) = map seed_fields seeds
      /\ map reading_fields (sensor_data w1)
         = map reading_fields (sensor_data w) ++ map seed_fields seeds)
  /\ (fst (start w) = Return tt ->
      boot ENABLE_SIM w
      = if enableSim ENABLE_SIM then simulateOnce w1 else (Return tt, w1))
  /\ (forall e, fst (start w) = Throw e ->
                boot ENABLE_SIM w
                = (Return tt, log (console_error "Boot error:") w1)).
Proof.
  intros start w1.
  split; [apply start_no_broadcast|]. split; [apply start_alerts|].
  split; [|split; [|split]].
  - intros Hne. subst w1 start. unfold bind.
    pose proof (ensureSchema_same_tables w) as H0.
    destruct (ensureSchema w) as [[[]|e] w0]; cbn [snd] in *; [|exact H0].
    apply (same_tables_trans _ _ _ H0).
    assert (Hs : sensors w0 <> []) by (destruct H0 as (_ & -> & _); exact Hne).
    unfold seedSensorsIfEmpty, bind, count_sensors, pool_query.
    destruct (next_fails (oracle w0)); cbn; [by repeat split|].
    destruct (sensors w0); [done|]. by repeat split.
  - intros He Hnf.
    assert (Hnf5 : no_fault 5 (oracle w) = true
                   /\ no_fault 9 (tail (tail (tail (tail (tail (oracle w))))))
                      = true).
    { apply no_fault_S in Hnf as [Hf1 Hnf]. apply no_fault_S in Hnf as [Hf2 Hnf].
      apply no_fault_S in Hnf as [Hf3 Hnf]. apply no_fault_S in Hnf as [Hf4 Hnf].
      apply no_fault_S in Hnf as [Hf5 Hnf]. split; [|exact Hnf].
      repeat (apply no_fault_S; split; [assumption|]). reflexivity. }
    destruct Hnf5 as [Hnf5 Hnf9].
    destruct (ensureSchema_ok w Hnf5) as (w0 & Hrun0 & (Hd0 & Hs0 & _) & Ho0).
    subst w1 start. rewrite (bind_Return _ _ _ _ _ Hrun0).
    rewrite <- Ho0 in Hnf9. rewrite He in Hs0. rewrite <- Hd0.
    clear Hnf. apply no_fault_S in Hnf9 as [Hf Hnf].
    assert (Hrun : seedSensorsIfEmpty w0 =
                   for_of seeds (fun s =>
                     let '(name, val, unit_) := s in
                     upsert_sensors name val (Some unit_) ;;
                     insert_sensor_data name val (Some unit_)) (advance w0)).
    { unfold seedSensorsIfEmpty, bind, count_sensors, pool_query.
      rewrite Hf. cbn [sensors advance set_clock_oracle]. by rewrite Hs0. }
    destruct (seed_loop seeds (advance w0)) as (Hret & Hs & Hd).
    { exact Hnf. }
    { cbn. repeat (apply List.NoDup_cons; [cbn; intuition discriminate|]).
      apply List.NoDup_nil. }
    { intros s _. cbn [sensors advance set_clock_oracle]. rewrite Hs0.
      intros []. }
    cbn zeta in Hret, Hs, Hd. rewrite <- Hrun in Hret, Hs, Hd.
    cbn [sensors sensor_data advance set_clock_oracle] in Hs, Hd.
    rewrite Hs0 in Hs. cbn [map app] in Hs. by repeat split.
  - intros Hret. subst w1. unfold boot, try_catch.
    rewrite <- (bind_assoc ensureSchema (fun _ => seedSensorsIfEmpty)
                  (fun _ => if enableSim ENABLE_SIM then simulateOnce
                            else ret tt) w).
    fold start. unfold bind at 1.
    destruct (start w) as [[[]|e] w0]; cbn in Hret; [|discriminate].
    cbn [snd]. destruct (enableSim ENABLE_SIM); [|reflexivity].
    pose proof (returns_for_of THRESHOLDS simulate_sensor
                  returns_simulate_sensor w0) as [[] Hsim].
    fold simulateOnce in Hsim.
    destruct (simulateOnce w0) as [o w2]. cbn in Hsim. by subst o.
  - intros e Hthrow. subst w1. unfold boot, try_catch.
    rewrite <- (bind_assoc ensureSchema (fun _ => seedSensorsIfEmpty)
                  (fun _ => if enableSim ENABLE_SIM then simulateOnce
                            else ret tt) w).
    fold start. unfold bind at 1.
    destruct (start w) as [[[]|e'] w0]; cbn in Hthrow; [discriminate|].
    reflexivity.
Qed.

Lemma boot_seeds_only_an_empty_store_witness :
  map snapshot_fields (sensors (snd ((ensureSchema ;; seedSensorsIfEmpty)
                                       scenario_0)))
  = map seed_fields seeds
  /\ same_tables scenario_1
                 (snd ((ensureSchema ;; seedSensorsIfEmpty) scenario_1)).
Proof.
  split.
  - apply (proj2 (proj2 (proj2 (boot_seeds_only_an_empty_store None
                                  scenario_0))));
      reflexivity.
  - apply (proj1 (proj2 (proj2 (boot_seeds_only_an_empty_store None
                                  scenario_1)))).
    vm_compute. discriminate.
Defined.

(** ** Clearing the alerts *)

Lemma delete_alerts_clear_empties w :
  next_fails (oracle w) = false -> alerts (snd (delete_alerts_clear w)) = [].
Proof.
  intros Hf. unfold delete_alerts_clear, try_catch, bind, delete_alerts,
    pool_query, io_emit, effect_, ret.
  by rewrite Hf.
Qed.

(** X5.  [DELETE /api/alerts/clear] is all or nothing: when its query does
    not throw the table of alerts is empty, [alerts-cleared] is broadcast
    once and the answer is 200; when it throws the alerts are as before,
    nothing is broadcast and the answer is 500.  The readings and the
    snapshots are never touched. *)
Theorem clear_is_all_or_nothing (w : World) :
  let out := delete_alerts_clear w in
  sensor_data (snd out) = sensor_data w
  /\ sensors (snd out) = sensors w
  /\ if next_fails (oracle w)
     then fst out = Return {| status_code := 500;
                              json := error_json "Internal server error" |}
          /\ alerts (snd out) = alerts w
          /\ trace_since w (snd out) = [console_error "query failed"]
     else fst out = Return {| status_code := 200;
                              json := message_json "✅ All alerts cleared." |}
          /\ alerts (snd out) = []
          /\ trace_since w (snd out)
             = [sql_delete_alerts; io_emitted alerts_cleared].
Proof.
  unfold delete_alerts_clear, try_catch, bind, delete_alerts, pool_query,
    io_emit, effect_, ret.
  destruct (next_fails (oracle w)); cbn -[trace_since];
    (split; [reflexivity|]); (split; [reflexivity|]);
    (split; [reflexivity|]); (split; [reflexivity|]);
    apply trace_since_app; cbn; by rewrite <- ?app_assoc.
Qed.

(** X6.  Clearing the alerts resets the dedup gate: the first out-of-range
    reading of any sensor after a clear that succeeded raises an alert,
    however soon it comes and whatever was alerted before. *)
Theorem clear_resets_the_gate
  (req : request_body) (name st : string) (w : World) :
  next_fails (oracle w) = false ->
  body_name req = Some name -> name <> "" -> body_value req <> JUndefined ->
  withinAlertRange name (toNumber (body_value req)) = Some st ->
  let w1 := snd (delete_alerts_clear w) in
  no_fault 4 (oracle w1) = true ->
  let w2 := snd (post_reading req w1) in
  let raised := alert_of name (toNumber (body_value req)) st w1 in
  alerts w1 = []
  /\ alerts w2 = [raised]
  /\ alert_events (trace_since w1 w2) = [to_msg raised].
Proof.
  intros Hf Hn Hne Hv Hst w1 Hnf w2 raised.
  pose proof (delete_alerts_clear_empties w Hf) as Ha. fold w1 in Ha.
  split; [exact Ha|].
  pose proof (post_reading_gate_decides req name st w1 Hn Hne Hv Hst Hnf)
    as [_ Hraise].
  fold w2 in Hraise. rewrite Ha in Hraise. apply Hraise.
  intros (last & Hlast & _). rewrite Ha in Hlast. discriminate.
Qed.

Lemma clear_resets_the_gate_witness :
  alerts (snd (post_reading (temperature_request (302 # 10))
                            (snd (delete_alerts_clear scenario_1))))
  = [alert_of "Temperature Sensor 1"
              (toNumber (body_value (temperature_request (302 # 10)))) "high"
              (snd (delete_alerts_clear scenario_1))].
Proof.
  apply (clear_resets_the_gate (temperature_request (302 # 10))
           "Temperature Sensor 1" "high" scenario_1);
    first [reflexivity|discriminate|by vm_compute].
Defined.

(** ** The snapshot of a sensor *)

Lemma filter_other_names name t :
  ~ In name (map sn_name t) ->
  List.filter (fun r => String.eqb (sn_name r) name) t = [].
Proof.
  induction t as [|r rest IH]; [reflexivity|]. cbn [map List.filter In].
  intros H. destruct (String.eqb_spec (sn_name r) name) as [E|E].
  - exfalso. apply H. by left.
  - apply IH. intros Hin. apply H. by right.
Qed.

Lemma upsert_row_lookup proposed t :
  List.NoDup (map sn_name t) ->
  List.filter (fun r => String.eqb (sn_name r) (sn_name proposed))
              (fst (upsert_row proposed t))
    = [snd (upsert_row proposed t)]
  /\ forall other, other <> sn_name proposed ->
       List.filter (fun r => String.eqb (sn_name r) other)
                   (fst (upsert_row proposed t))
       = List.filter (fun r => String.eqb (sn_name r) other) t.
Proof.
  induction t as [|r rest IH]; intros Hnd.
  - cbn. rewrite String.eqb_refl. split; [reflexivity|].
    intros other Ho. destruct (String.eqb_spec (sn_name proposed) other);
      [congruence|reflexivity].
  - cbn [map] in Hnd. apply List.NoDup_cons_iff in Hnd as [Hnotin Hnd].
    cbn [upsert_row].
    destruct (String.eqb_spec (sn_name r) (sn_name proposed)) as [E|E].
    + cbn [fst snd List.filter do_update sn_name].
      destruct (String.eqb_spec (sn_name r) (sn_name proposed)); [|congruence].
      rewrite <- E, (filter_other_names _ _ Hnotin). split; [reflexivity|].
      intros other Ho.
      destruct (String.eqb_spec (sn_name r) other); [congruence|reflexivity].
    + specialize (IH Hnd). destruct (upsert_row proposed rest) as [rest' out].
      cbn [fst snd List.filter] in *. destruct IH as [IH1 IH2].
      destruct (String.eqb_spec (sn_name r) (sn_name proposed)); [congruence|].
      split; [exact IH1|]. intros other Ho. by rewrite (IH2 other Ho).
Qed.

(** X7.  Insert and look up: when the two writes of [POST /api/reading] do
    not throw, the query [SELECT value FROM sensors WHERE name=$1] gives
    back exactly the value just posted, the unit stored is the one posted
    (none when the reading has none), the snapshots of the other sensors
    are as they were, and the simulator starts its next walk for that
    sensor from the posted value. *)
Theorem posted_value_is_the_snapshot
  (req : request_body) (name : string) (w : World) :
  body_name req = Some name -> name <> "" -> body_value req <> JUndefined ->
  names_unique w ->
  no_fault 2 (oracle w) = true ->
  let val := toNumber (body_value req) in
  let w' := snd (post_reading req w) in
  let stored := List.filter (fun r => String.eqb (sn_name r) name) (sensors w') in
  map sn_value stored = [val]
  /\ map sn_unit stored = [or_null (body_unit req)]
  /\ (forall other, other <> name ->
        List.filter (fun r => String.eqb (sn_name r) other) (sensors w')
        = List.filter (fun r => String.eqb (sn_name r) other) (sensors w))
  /\ names_unique w'
  /\ forall thr, next_fails (oracle w') = false ->
       pick_candidate name thr w' = nextValue name val thr (advance w').
Proof.
  intros Hn Hne Hv Hu Hnf val w' stored.
  destruct (post_reading_valid req name w Hn Hne Hv) as (_ & Hs & _).
  fold w' in Hs. rewrite ingest_sensors in Hs by exact Hnf.
  set (p := snapshot_of name (toNumber (body_value req))
                        (or_null (body_unit req)) w) in Hs.
  destruct (upsert_row_lookup p (sensors w) (proj1 (NoDup_ListNoDup _) Hu))
    as [Hl Ho].
  destruct (upsert_row_snd p (sensors w)) as (_ & _ & Hval & Hunit & _).
  change (sn_name p) with name in Hl, Ho.
  assert (Hst : stored = [snd (upsert_row p (sensors w))]).
  { unfold stored. by rewrite Hs. }
  split; [by rewrite Hst; cbn; rewrite Hval|].
  split; [by rewrite Hst; cbn; rewrite Hunit|].
  split; [intros other Hother; rewrite Hs; by apply Ho|].
  split; [unfold names_unique; rewrite Hs; by apply upsert_row_NoDup|].
  intros thr Hf.
  unfold pick_candidate, bind, try_catch, select_sensor_value, pool_query, ret.
  rewrite Hf. cbn [sensors advance set_clock_oracle].
  fold stored. rewrite Hst. cbn [map]. by rewrite Hval.
Qed.

Lemma posted_value_is_the_snapshot_witness :
  map sn_value
      (List.filter (fun r => String.eqb (sn_name r) "Temperature Sensor 1")
                   (sensors (snd (post_reading (temperature_request 15)
                                               scenario_1))))
  = [toNumber (JNumber (Fin 15))].
Proof.
  apply (posted_value_is_the_snapshot (temperature_request 15)
           "Temperature Sensor 1" scenario_1);
    first [reflexivity|discriminate|idtac].
  vm_compute. repeat constructor. intros H. inversion H.
Defined.

(** ** A connection that meets a failing query *)

(** X8.  The [connection] handler reads and never writes, and it
    broadcasts nothing.  When its first query throws the socket is sent
    nothing; when only the second throws the socket is sent [all-sensors]
    and no [all-alerts]; in both cases ["socket init error:"] is logged. *)
Theorem connection_failure_modes (collation : Collation) (id : string) (w : World) :
  let w' := snd (on_connection id w) in
  same_tables w w'
  /\ emitted (trace_since w w') = []
  /\ (next_fails (oracle w) = true ->
      trace_since w w'
      = [socket_connected id; console_error "socket init error:"])
  /\ (next_fails (oracle w) = false -> next_fails (tail (oracle w)) = true ->
      trace_since w w'
      = [socket_connected id;
         socket_emitted id (all_sensors (merge_sort by_name (sensors w)));
         console_error "socket init error:"]).
Proof.
  unfold on_connection, try_catch, bind, getLatestSensors, select_recent_alerts,
    pool_query, socket_emit, effect_, ret.
  cbn [fst snd log oracle trace sensors alerts].
  destruct (next_fails (oracle w)) eqn:Hf1.
  - cbn -[trace_since].
    assert (Ht : forall t, trace_since w t = trace_since w t) by reflexivity.
    split; [by repeat split|].
    erewrite trace_since_app by (cbn; by rewrite <- ?app_assoc).
    split; [reflexivity|]. split; [reflexivity|discriminate].
  - cbn [fst snd log oracle trace sensors alerts advance set_clock_oracle].
    destruct (next_fails (tail (oracle w))) eqn:Hf2; cbn -[trace_since].
    + split; [by repeat split|].
      erewrite trace_since_app by (cbn; by rewrite <- ?app_assoc).
      split; [reflexivity|]. split; [discriminate|reflexivity].
    + split; [by repeat split|].
      erewrite trace_since_app by (cbn; by rewrite <- ?app_assoc).
      split; [reflexivity|]. split; discriminate.
Qed.

Lemma connection_failure_modes_witness :
  let w := initial 0 [ {| delay := 1; fails := true |} ] [] in
  trace_since w (snd (@on_connection bytewise "socket-1" w))
  = [socket_connected "socket-1"; console_error "socket init error:"].
Proof.
  apply (proj1 (proj2 (proj2 (connection_failure_modes bytewise "socket-1"
           (initial 0 [ {| delay := 1; fails := true |} ] []))))).
  reflexivity.
Defined.

(** ** What the simulator records *)

Lemma pick_candidate_configured name thr w :
  In (name, thr) THRESHOLDS ->
  exists cand w1,
    pick_candidate name thr w = (Return cand, w1)
    /\ sensor_data w1 = sensor_data w
    /\ min thr - baseDrift name * 6 <= cand <= max thr + baseDrift name * 6.
Proof.
  intros Hin.
  destruct (pick_candidate_returns name thr w) as (cand & w1 & Hp & Hfr).
  exists cand, w1. split; [exact Hp|]. split; [apply Hfr|].
  revert Hp. unfold pick_candidate. unfold bind at 1.
  match goal with
  | |- context [try_catch ?b ?h w] => destruct (try_catch b h w) as [[latest|e] w0]
  end; [|discriminate].
  destruct (nextValue_configured name thr latest w0 Hin) as (v & w' & -> & Hb).
  by intros [= <- _].
Qed.

Lemma simulate_sensor_records name thr w :
  In (name, thr) THRESHOLDS ->
  sensor_data (snd (simulate_sensor (name, thr) w)) = sensor_data w
  \/ exists r,
       sensor_data (snd (simulate_sensor (name, thr) w)) = sensor_data w ++ [r]
       /\ rd_sensor_name r = name /\ within_clamp r.
Proof.
  intros Hin.
  destruct (pick_candidate_configured name thr w Hin)
    as (cand & w1 & Hp & Hd1 & Hlo & Hhi).
  assert (Hr : forall r, rd_sensor_name r = name -> rd_value r = cand ->
                         within_clamp r).
  { intros r Hn Hv. exists thr. rewrite Hn, Hv. auto. }
  destruct (ingest name cand (unitFor name) w1) as [[row|e] w'] eqn:Hi.
  - rewrite (simulate_sensor_Return _ _ _ _ _ _ _ Hp Hi). cbn [snd].
    apply ingest_ingested in Hi. inversion Hi; subst; right; eexists;
      (split; [rewrite <- Hd1; eassumption|split; [reflexivity|by apply Hr]]).
  - rewrite (simulate_sensor_Throw _ _ _ _ _ _ _ Hp Hi). cbn [snd log sensor_data].
    apply ingest_ingested in Hi. inversion Hi; subst.
    + left. congruence.
    + right. eexists.
      split; [rewrite <- Hd1; eassumption|split; [reflexivity|by apply Hr]].
    + right. eexists.
      split; [rewrite <- Hd1; eassumption|split; [reflexivity|by apply Hr]].
Qed.

Lemma simulate_loop_records (l : list (string * threshold)) w :
  (forall entry, In entry l -> In entry THRESHOLDS) ->
  exists added,
    sensor_data (fold_left (fun v entry => snd (simulate_sensor entry v)) l w)
      = sensor_data w ++ added
    /\ Forall within_clamp added
    /\ sublist (map rd_sensor_name added) (map fst l).
Proof.
  revert w. induction l as [|[name thr] rest IH]; intros w Hl; cbn [fold_left].
  - exists []. rewrite app_nil_r. repeat split; constructor.
  - destruct (IH (snd (simulate_sensor (name, thr) w))) as (added & Hd & Hc & Hs).
    { intros entry Hin. apply Hl. by right. }
    destruct (simulate_sensor_records name thr w) as [H0|(r & H1 & Hn & Hr)].
    { apply Hl. by left. }
    + exists added. rewrite Hd, H0. split; [reflexivity|]. split; [exact Hc|].
      cbn [map fst]. by apply sublist_cons.
    + exists (r :: added). rewrite Hd, H1, <- app_assoc.
      split; [reflexivity|]. split; [by constructor|].
      cbn [map fst]. rewrite Hn. by apply sublist_skip.
Qed.

(** X9.  One tick of the simulator records at most one reading per
    configured sensor, in the order of [SENSOR_NAMES], and each recorded
    value lies between [min - 6 * baseDrift] and [max + 6 * baseDrift] of
    its sensor, whatever the random source gives and whichever query
    throws. *)
Theorem simulated_readings_stay_within_clamp (w : World) :
  exists added,
    sensor_data (snd (simulateOnce w)) = sensor_data w ++ added
    /\ Forall within_clamp added
    /\ sublist (map rd_sensor_name added) SENSOR_NAMES.
Proof.
  destruct (simulate_loop_records THRESHOLDS w) as (added & Hd & Hc & Hs);
    [auto|].
  exists added. split; [|by split].
  unfold simulateOnce. rewrite for_of_fold by apply returns_simulate_sensor.
  exact Hd.
Qed.

(** ** The answer to a reading *)

Lemma ingest_no_fault name val u w :
  no_fault 4 (oracle w) = true ->
  let up := upsert_row (snapshot_of name val u w) (sensors w) in
  exists w' rest,
    ingest name val u w = (Return (snd up), w')
    /\ sensors w' = fst up
    /\ trace w' = trace w ++ [sql_insert_sensor_data (reading_of name val u w);
                              sql_upsert_sensors (snd up);
                              io_emitted (sensor_updated (snd up))] ++ rest.
Proof.
  intros Hnf up. destruct (withinAlertRange name val) as [st|] eqn:Hst.
  - destruct (ingest_cases name val u st w Hst Hnf)
      as (w' & Hi & _ & Hs & [(_ & _ & Ht)|(_ & _ & Ht)]).
    + exists w', []. rewrite app_nil_r. by repeat split.
    + exists w'. eexists. split; [exact Hi|]. split; [exact Hs|]. exact Ht.
  - assert (Hnf2 : no_fault 2 (oracle w) = true).
    { apply no_fault_S in Hnf as [Hf1 Hnf]. apply no_fault_S in Hnf as [Hf2 _].
      apply no_fault_S. split; [exact Hf1|]. apply no_fault_S. by split. }
    destruct (record_reading_ok name val u w Hnf2)
      as (w2 & Hrec & _ & Hs & Ht & _).
    exists w2, []. rewrite app_nil_r. unfold ingest.
    rewrite (bind_Return _ _ _ _ _ Hrec). unfold alert_branch. rewrite Hst.
    by repeat split.
Qed.

Lemma upsert_row_keeps_id proposed t old :
  List.NoDup (map sn_name t) -> In old t -> sn_name old = sn_name proposed ->
  sn_id (snd (upsert_row proposed t)) = sn_id old.
Proof.
  induction t as [|r rest IH]; intros Hnd Hin Hname; [destruct Hin|].
  cbn [map] in Hnd. apply List.NoDup_cons_iff in Hnd as [Hnotin Hnd].
  cbn [upsert_row].
  destruct (String.eqb_spec (sn_name r) (sn_name proposed)) as [E|E].
  - destruct Hin as [->|Hin]; [reflexivity|].
    exfalso. apply Hnotin. apply in_map_iff. exists old. split; [congruence|exact Hin].
  - destruct Hin as [->|Hin]; [congruence|].
    specialize (IH Hnd Hin Hname).
    by destruct (upsert_row proposed rest) as [rest' out].
Qed.

(** X10.  When none of its queries throws, [POST /api/reading] answers 201
    with the snapshot it has just stored: the name, the number and the unit
    of the request and the time of the upsert.  A sensor already known
    keeps its [id]; a new one takes the next value of the sequence.  The
    first broadcast of the call is [sensor-updated] with that same row. *)
Theorem reading_answered_with_its_snapshot
  (req : request_body) (name : string) (w : World) :
  body_name req = Some name -> name <> "" -> body_value req <> JUndefined ->
  names_unique w ->
  no_fault 4 (oracle w) = true ->
  let w' := snd (post_reading req w) in
  exists latest rest,
    fst (post_reading req w)
      = Return {| status_code := 201; json := row_json latest |}
    /\ snapshot_fields latest
       = (name, toNumber (body_value req), or_null (body_unit req))
    /\ sn_updated_at latest = (clock w + elapsed 2 (oracle w))%Z
    /\ In latest (sensors w')
    /\ (forall old, In old (sensors w) -> sn_name old = name ->
                    sn_id latest = sn_id old)
    /\ (~ In name (map sn_name (sensors w)) ->
        sn_id latest = (sensors_seq w + 1)%Z)
    /\ emitted (trace_since w w') = sensor_updated latest :: rest.
Proof.
  intros Hn Hne Hv Hu Hnf w'.
  destruct (ingest_no_fault name (toNumber (body_value req))
              (or_null (body_unit req)) w Hnf) as (w1 & rest & Hi & Hs & Ht).
  set (p := snapshot_of name (toNumber (body_value req))
                        (or_null (body_unit req)) w) in *.
  pose proof (post_reading_Return _ _ _ _ _ Hn Hne Hv Hi) as Hpost.
  destruct (upsert_row_snd p (sensors w)) as (Hin & Hname & Hval & Hunit & Hat).
  exists (snd (upsert_row p (sensors w))), (emitted rest).
  unfold w'. rewrite Hpost. cbn [fst snd].
  split; [reflexivity|].
  split; [unfold snapshot_fields; by rewrite Hname, Hval, Hunit|].
  split; [by rewrite Hat|]. split; [by rewrite Hs|].
  split; [|split].
  - intros old Hold Hnm.
    apply (upsert_row_keeps_id p (sensors w) old);
      [by apply NoDup_ListNoDup|exact Hold|exact Hnm].
  - intros Hnew. rewrite upsert_row_new; [reflexivity|].
    destruct (mem_string (sn_name p) _) eqn:E; [|reflexivity].
    apply mem_string_In in E. contradiction.
  - rewrite (trace_since_app _ _ _ Ht). reflexivity.
Qed.

Lemma reading_answered_with_its_snapshot_witness :
  exists latest rest,
    fst (post_reading (temperature_request 15) scenario_1)
      = Return {| status_code := 201; json := row_json latest |}
    /\ snapshot_fields latest
       = ("Temperature Sensor 1", toNumber (JNumber (Fin 15)), Some "°C")
    /\ emitted (trace_since scenario_1
                  (snd (post_reading (temperature_request 15) scenario_1)))
       = sensor_updated latest :: rest.
Proof.
  destruct (reading_answered_with_its_snapshot (temperature_request 15)
              "Temperature Sensor 1" scenario_1)
    as (latest & rest & H1 & H2 & _ & _ & _ & _ & H3);
    [reflexivity|discriminate|discriminate| |by vm_compute|].
  - vm_compute. repeat constructor. intros H. inversion H.
  - exists latest, rest. by repeat split.
Defined.

(** ** The routes that read *)

#[global] Instance recorded_asc_total : Total recorded_asc.
Proof. intros a b. unfold recorded_asc. lia. Qed.

#[global] Instance recorded_asc_trans : Transitive recorded_asc.
Proof. intros a b c. unfold recorded_asc. lia. Qed.

Example hours_of_examples :
  hours_of None = Fin 24
  /\ hours_of (Some "48") = Fin 48
  /\ hours_of (Some "0") = Fin 24
  /\ hours_of (Some "abc") = Fin 24
  /\ hours_of (Some "") = Fin 24
  /\ hours_of (Some "100000") = Fin 720
  /\ hours_of (Some "Infinity") = Fin 720
  /\ hours_of (Some "-5") = Fin 1
  /\ hours_of (Some "-Infinity") = Fin 1
  /\ is_number (hours_of (Some "1.5")) (3 # 2).
Proof. by vm_compute. Qed.

Lemma hours_of_bounds (hours : option string) :
  exists h, hours_of hours = Fin h /\ 1 <= h <= 720.
Proof.
  unfold hours_of. destruct (Number (query_value hours)) as [x| | |];
    cbn [or_number].
  - destruct (Qle_bool (Qabs x) UNDERFLOW); cbn [Math_min Math_max];
      eexists; (split; [reflexivity|by apply clamp_between]).
  - exists 24. by vm_compute.
  - exists 720. by vm_compute.
  - exists 1. by vm_compute.
Qed.

(** X11.  The window of [GET /api/readings] is always a number between 1
    and 720 hours, so what is spliced into the statement is never anything
    else: an absent, empty, non-numeric or zero [hours] gives 24, a number
    between 1 and 720 gives itself, what is smaller gives 1 (also
    [-Infinity]) and what is larger gives 720 (also [Infinity]). *)
Theorem hours_window_is_clamped (hours : option string) :
  exists h,
    hours_of hours = Fin h
    /\ 1 <= h <= 720
    /\ match Number (query_value hours) with
       | Fin x =>
           if Qle_bool (Qabs x) UNDERFLOW then h == 24
           else (x <= 1 -> h == 1) /\ (1 <= x <= 720 -> h == x)
                /\ (720 <= x -> h == 720)
       | NaN => h == 24
       | PosInfinity => h == 720
       | NegInfinity => h == 1
       end.
Proof.
  unfold hours_of. destruct (Number (query_value hours)) as [x| | |];
    cbn [or_number].
  - destruct (Qle_bool (Qabs x) UNDERFLOW); cbn [Math_min Math_max].
    + eexists. split; [reflexivity|]. split; [by apply clamp_between|].
      by vm_compute.
    + eexists. split; [reflexivity|]. split; [by apply clamp_between|].
      split; [|split].
      * intros Hx. rewrite (Q.min_r 720 x) by lra. apply Q.max_l. exact Hx.
      * intros [H1 H2]. rewrite (Q.min_r 720 x) by lra. apply Q.max_r. exact H1.
      * intros Hx. rewrite (Q.min_l 720 x) by lra. apply Q.max_r. lra.
  - exists 24. by vm_compute.
  - exists 720. by vm_compute.
  - exists 1. by vm_compute.
Qed.

Lemma trace_since_same w w' : trace w' = trace w -> trace_since w w' = [].
Proof.
  intros H. apply trace_since_app. by rewrite app_nil_r.
Qed.

Lemma in_window_spec now h r :
  in_window now h r = true
  <-> inject_Z now - h * 3600000 <= inject_Z (rd_recorded_at r).
Proof. unfold in_window. apply Qle_bool_iff. Qed.

(** X12.  [GET /api/readings] reads and never writes or broadcasts.  When
    its query throws the answer is 500.  Otherwise it is 200 with exactly
    the readings of the window (of the sensor asked for, when one is), each
    once, oldest first; whatever [hours] says, every reading of the last
    hour is listed and none older than 720 hours is. *)
Theorem readings_listing (hours sensor : option string) (w : World) :
  let out := get_readings hours sensor w in
  let now := clock (advance w) in
  same_tables w (snd out)
  /\ emitted (trace_since w (snd out)) = []
  /\ if next_fails (oracle w)
     then fst out = Return {| rows_status := 500;
                              rows_body := rows_error "Internal server error" |}
     else exists h rows,
       hours_of hours = Fin h
       /\ fst out = Return {| rows_status := 200;
                              rows_body := rows_json (map item_of rows) |}
       /\ StronglySorted recorded_asc rows
       /\ rows ≡ₚ List.filter (fun r => in_window now h r
                                        && of_sensor (or_null sensor) r)
                              (sensor_data w)
       /\ (forall r, r ∈ sensor_data w -> of_sensor (or_null sensor) r = true ->
                     (now - rd_recorded_at r <= 3600000)%Z -> r ∈ rows)
       /\ (forall r, r ∈ rows ->
                     (now - rd_recorded_at r <= 720 * 3600000)%Z).
Proof.
  intros out now. subst out.
  destruct (hours_of_bounds hours) as (h & Hh & [Hlo Hhi]).
  unfold get_readings. rewrite Hh.
  unfold try_catch, bind, select_readings, pool_query, internal_error, effect_, ret.
  destruct (next_fails (oracle w)); cbn [fst snd].
  - split; [by repeat split|]. split; [|reflexivity].
    erewrite trace_since_app by (cbn; reflexivity). reflexivity.
  - split; [by repeat split|]. split; [by rewrite trace_since_same|].
    set (l := List.filter _ _).
    pose proof (merge_sort_Permutation recorded_asc l) as Hperm.
    exists h, (merge_sort recorded_asc l).
    split; [reflexivity|]. split; [reflexivity|].
    split; [apply StronglySorted_merge_sort; apply _|].
    split; [exact Hperm|]. split.
    + intros r Hr Hs Hrecent. rewrite Hperm. apply list_elem_of_In.
      apply filter_In. split; [by apply list_elem_of_In|].
      rewrite Hs, andb_true_r. apply in_window_spec.
      unfold Z.sub in Hrecent.
      rewrite Zle_Qle, inject_Z_plus, inject_Z_opp in Hrecent.
      change (inject_Z 3600000) with 3600000 in Hrecent. fold now. lra.
    + intros r Hr. rewrite Hperm in Hr. apply list_elem_of_In in Hr.
      apply filter_In in Hr as [_ Hr]. apply andb_true_iff in Hr as [Hr _].
      apply in_window_spec in Hr. fold now in Hr.
      unfold Z.sub. rewrite Zle_Qle, inject_Z_plus, inject_Z_opp.
      change (inject_Z (720 * 3600000)) with (720 * 3600000). lra.
Qed.

(** X13.  [GET /api/sensors] and [GET /api/alerts] read and never write or
    broadcast; each answers 500 when its query throws.  Otherwise
    [/api/sensors] lists every snapshot once, in the order of the names,
    and [/api/alerts] lists the 200 most recent alerts (all of them when
    there are fewer), most recent first. *)
Theorem sensors_and_alerts_listings (collation : Collation) (w : World) :
  (forall a b, name_le a b = true \/ name_le b a = true) ->
  (forall a b c, name_le a b = true -> name_le b c = true -> name_le a c = true) ->
  let s := get_sensors w in
  let a := get_alerts w in
  same_tables w (snd s) /\ same_tables w (snd a)
  /\ emitted (trace_since w (snd s)) = []
  /\ emitted (trace_since w (snd a)) = []
  /\ if next_fails (oracle w)
     then fst s = Return {| rows_status := 500;
                            rows_body := rows_error "Internal server error" |}
          /\ fst a = Return {| rows_status := 500;
                               rows_body := rows_error "Internal server error" |}
     else (exists rows,
              fst s = Return {| rows_status := 200; rows_body := rows_json rows |}
              /\ rows ≡ₚ sensors w /\ StronglySorted by_name rows)
          /\ (exists recent older,
                 fst a = Return {| rows_status := 200;
                                   rows_body := rows_json recent |}
                 /\ recent ++ older ≡ₚ alerts w
                 /\ length recent = Nat.min 200 (length (alerts w))
                 /\ StronglySorted triggered_desc recent
                 /\ forall x y, x ∈ recent -> y ∈ older -> triggered_desc x y).
Proof.
  intros Htotal Htrans s a. subst s a.
  assert (Total by_name) as Htot by (intros x y; apply Htotal).
  assert (Transitive by_name) as Htra by (intros x y z; apply Htrans).
  unfold get_sensors, get_alerts, internal_error, try_catch, bind,
    getLatestSensors, select_recent_alerts, pool_query, effect_, ret.
  destruct (next_fails (oracle w)); cbn [fst snd].
  - split; [by repeat split|]. split; [by repeat split|].
    erewrite trace_since_app by (cbn; reflexivity). by repeat split.
  - split; [by repeat split|]. split; [by repeat split|].
    rewrite trace_since_same by reflexivity.
    split; [reflexivity|]. split; [reflexivity|]. split.
    + eexists. split; [reflexivity|].
      split; [apply merge_sort_Permutation|].
      apply StronglySorted_merge_sort; apply _.
    + exists (take 200 (order_by_triggered_at_desc (alerts w))),
             (drop 200 (order_by_triggered_at_desc (alerts w))).
      split; [reflexivity|]. apply (limit_desc_spec 200 (alerts w)).
Qed.

Lemma sensors_and_alerts_listings_witness :
  exists rows,
    fst (@get_sensors bytewise scenario_1)
      = Return {| rows_status := 200; rows_body := rows_json rows |}
    /\ rows ≡ₚ sensors scenario_1.
Proof.
  destruct (sensors_and_alerts_listings bytewise scenario_1
              String.leb_total string_leb_trans)
    as (_ & _ & _ & _ & H).
  change (next_fails (oracle scenario_1)) with false in H.
  destruct H as [(rows & H1 & H2 & _) _]. exists rows. by split.
Defined.

(** ** Base addresses *)

Lemma all_slashes_spec s : all_slashes s = true <-> exists k, s = slashes k.
Proof.
  induction s as [|c rest IH]; cbn [all_slashes].
  - split; [by exists O|reflexivity].
  - rewrite andb_true_iff, IH. split.
    + intros [Hc [k ->]]. apply Ascii.eqb_eq in Hc as ->. by exists (S k).
    + intros [[|k] Hk]; [discriminate|]. cbn in Hk. injection Hk as -> ->.
      split; [reflexivity|by exists k].
Qed.

Lemma strip_trailing_slashes_empty s :
  strip_trailing_slashes s = "" <-> all_slashes s = true.
Proof.
  destruct s as [|c rest]; [by split|]. cbn [strip_trailing_slashes].
  destruct (all_slashes (String c rest)); by split.
Qed.

Lemma strip_trailing_slashes_decompose s :
  exists k, s = (strip_trailing_slashes s ++ slashes k)%string.
Proof.
  induction s as [|c rest IH]; [by exists O|]. cbn [strip_trailing_slashes].
  destruct (all_slashes (String c rest)) eqn:E.
  - apply all_slashes_spec in E as [k ->]. by exists k.
  - destruct IH as [k IH]. exists k. cbn. by rewrite <- IH.
Qed.

Lemma strip_trailing_slashes_end s t :
  strip_trailing_slashes s <> (t ++ "/")%string.
Proof.
  revert t. induction s as [|c rest IH]; intros t.
  - by destruct t.
  - cbn [strip_trailing_slashes]. destruct (all_slashes (String c rest)) eqn:E;
      [by destruct t|].
    destruct t as [|a t']; cbn.
    + intros [= -> H]. apply strip_trailing_slashes_empty in H.
      cbn [all_slashes] in E. by rewrite H in E.
    + intros [= _ H]. by apply (IH t').
Qed.

(** X14.  [GET /healthz] fails only with the database: it answers 500
    exactly when its query throws and otherwise 200 with the time of the
    database, whatever happens to the AI service, and it writes and logs
    nothing.  The AI service is reported missing exactly when [PY_AI_URL]
    is unset, empty or made of slashes only; otherwise it is asked at the
    address without its trailing slashes followed by ["/ping"]. *)
Theorem healthz_fails_only_with_the_database
  (PY_AI_URL : option string) (node_fetch : option (string -> fetch_result))
  (w : World) :
  let out := healthz PY_AI_URL node_fetch w in
  let url := default "" PY_AI_URL in
  same_tables w (snd out) /\ trace (snd out) = trace w
  /\ (if next_fails (oracle w)
      then fst out = Return {| health_status := 500;
                               health_body := health_error "query failed" |}
      else fst out = Return {| health_status := 200;
                               health_body :=
                                 health_ok (clock (advance w))
                                           (ai_ping PY_AI_URL node_fetch) |})
  /\ (ai_ping PY_AI_URL node_fetch = ai_missing
      <-> node_fetch <> None /\ all_slashes url = true)
  /\ (node_fetch = None -> ai_ping PY_AI_URL node_fetch = ai_failed)
  /\ forall fetch, node_fetch = Some fetch -> all_slashes url = false ->
       exists base k,
         url = (base ++ slashes k)%string
         /\ (forall t, base <> (t ++ "/")%string)
         /\ ai_ping PY_AI_URL node_fetch
            = ai_of_reply (fetch (base ++ "/ping")%string).
Proof.
  intros out url. subst out.
  split; [|split; [|split; [|split; [|split]]]].
  - unfold healthz, try_catch, bind, pool_query, ret.
    destruct (next_fails (oracle w)); by repeat split.
  - unfold healthz, try_catch, bind, pool_query, ret.
    by destruct (next_fails (oracle w)).
  - unfold healthz, try_catch, bind, pool_query, ret.
    by destruct (next_fails (oracle w)).
  - unfold ai_ping. fold url. destruct node_fetch as [fetch|].
    + destruct (String.eqb_spec (strip_trailing_slashes url) "") as [E|E].
      * apply strip_trailing_slashes_empty in E. by split.
      * split.
        -- destruct (fetch _) as [|[] ? []]; discriminate.
        -- intros [_ H]. apply strip_trailing_slashes_empty in H. contradiction.
    + split; [discriminate|]. by intros [H _].
  - by intros ->.
  - intros fetch -> Hs. unfold ai_ping. fold url.
    destruct (strip_trailing_slashes_decompose url) as [k Hk].
    exists (strip_trailing_slashes url), k. split; [exact Hk|].
    split; [apply strip_trailing_slashes_end|].
    destruct (String.eqb_spec (strip_trailing_slashes url) "") as [E|E].
    + apply strip_trailing_slashes_empty in E. congruence.
    + by destruct (fetch _) as [|[] ? []].
Qed.

Lemma healthz_fails_only_with_the_database_witness :
  let fetch := fun url => if String.eqb url "http://ai:8000/ping"
                          then fetch_response true 200 (Some "{}")
                          else fetch_rejects in
  exists base k,
    "http://ai:8000//" = (base ++ slashes k)%string
    /\ ai_ping (Some "http://ai:8000//") (Some fetch)
       = ai_of_reply (fetch (base ++ "/ping")%string).
Proof.
  intros fetch.
  destruct (proj2 (proj2 (proj2 (proj2 (proj2
              (healthz_fails_only_with_the_database
                 (Some "http://ai:8000//") (Some fetch) scenario_0)))))
              fetch eq_refl eq_refl) as (base & k & H1 & _ & H2).
  exists base, k. split; [exact H1|exact H2].
Defined.

(** ** The announcer of the dashboard *)

Section Announcer.
Import IntelligenceAnnouncer.

(** X15.  [API_BASE] is never empty and never ends with a slash, so the
    address built from it has exactly one slash before [api]: a value of
    [VITE_API_BASE] with something else than slashes in it loses its
    trailing slashes and nothing more, and one that is unset, empty or made
    of slashes only gives way to ["http://localhost:5000"]. *)
Theorem API_BASE_has_no_trailing_slash (VITE_API_BASE : option string) :
  API_BASE VITE_API_BASE <> ""
  /\ (forall s, API_BASE VITE_API_BASE <> (s ++ "/")%string)
  /\ (all_slashes (default "" VITE_API_BASE) = true ->
      API_BASE VITE_API_BASE = "http://localhost:5000")
  /\ (all_slashes (default "" VITE_API_BASE) = false ->
      exists k, default "" VITE_API_BASE
                = (API_BASE VITE_API_BASE ++ slashes k)%string).
Proof.
  assert (Hd : forall s, "http://localhost:5000" <> (s ++ "/")%string).
  { intros s H.
    apply (strip_trailing_slashes_end "http://localhost:5000" s). exact H. }
  unfold API_BASE. destruct VITE_API_BASE as [e|]; cbn [default from_option id].
  - destruct (String.eqb_spec e "") as [->|He].
    { split; [done|]. split; [exact Hd|]. split; [done|discriminate]. }
    destruct (String.eqb_spec (strip_trailing_slashes e) "") as [E|E].
    + apply strip_trailing_slashes_empty in E.
      split; [done|]. split; [exact Hd|]. split; [done|intros H; congruence].
    + split; [exact E|]. split; [apply strip_trailing_slashes_end|].
      split; [|intros _; apply strip_trailing_slashes_decompose].
      intros H. apply strip_trailing_slashes_empty in H. contradiction.
  - split; [done|]. split; [exact Hd|]. split; [done|discriminate].
Qed.

Lemma API_BASE_has_no_trailing_slash_witness :
  exists k, "https://api.example.org//"
            = (API_BASE (Some "https://api.example.org//") ++ slashes k)%string.
Proof.
  apply (proj2 (proj2 (proj2 (API_BASE_has_no_trailing_slash
                                (Some "https://api.example.org//"))))).
  reflexivity.
Defined.

Lemma key_never_empty f x : (f ++ ":" ++ x)%string <> "".
Proof. by destruct f. Qed.

Lemma announce_cases f on p n x last :
  (announce f on p n x last = (last, None)
   /\ (on = false \/ x = "" \/ p = true
       \/ ((n - t last < MIN_INTERVAL)%Z /\ key last = (f ++ ":" ++ x)%string)))
  \/ (announce f on p n x last
      = ({| t := n; key := (f ++ ":" ++ x)%string |}, Some x)
      /\ on = true /\ x <> "" /\ p = false
      /\ (key last = (f ++ ":" ++ x)%string -> (MIN_INTERVAL <= n - t last)%Z)).
Proof.
  unfold announce. destruct on; cbn [negb orb]; [|left; auto].
  destruct (String.eqb_spec x "") as [->|Hx]; cbn [orb]; [left; auto|].
  destruct p; [left; auto 6|].
  destruct (Z.ltb_spec (n - t last) MIN_INTERVAL) as [Hlt|Hge]; cbn [andb].
  - destruct (String.eqb_spec (key last) (f ++ ":" ++ x)) as [E|E].
    + left. auto 8.
    + right. repeat split; auto. intros; contradiction.
  - right. repeat split; auto.
Qed.

Lemma announce_all_spaced calls last :
  let spoken := snd (announce_all calls last) in
  (forall n k, head spoken = Some (n, k) -> k = key last ->
               (MIN_INTERVAL <= n - t last)%Z)
  /\ forall (i : nat) n1 n2 k,
       spoken !! i = Some (n1, k) -> spoken !! S i = Some (n2, k) ->
       (MIN_INTERVAL <= n2 - n1)%Z.
Proof.
  revert last. induction calls as [|c rest IH]; intros last; cbn [announce_all].
  - cbn. split; [discriminate|]. intros i ? ? ? H. by destruct i.
  - destruct (announce_cases (facility c) (tts c) (paused c) (now c) (text c) last)
      as [[-> _]|(-> & _ & _ & _ & Hgap)].
    + specialize (IH last). destruct (announce_all rest last) as [final more].
      exact IH.
    + specialize (IH {| t := now c; key := (facility c ++ ":" ++ text c)%string |}).
      destruct (announce_all rest _) as [final more]. cbn [snd] in *.
      destruct IH as [IHhead IHrest]. split.
      * cbn [head]. intros n k [= <- <-] Hk. apply Hgap. by symmetry.
      * intros [|i] n1 n2 k; cbn [lookup list_lookup].
        -- intros [= <- <-] H2.
           apply (IHhead n2 (facility c ++ ":" ++ text c)%string);
             [|reflexivity].
           destruct more as [|m more']; [discriminate H2|exact H2].
        -- apply IHrest.
Qed.

(** X16.  The announcer never says the same line for the same facility
    twice in a row less than [MIN_INTERVAL] (three minutes) apart, whatever
    the order, the times and the props of the calls of [announce]; a call
    that says nothing leaves the ref as it was, so the silence is counted
    from the last line said.  On a fresh ref a call speaks exactly when
    [tts] is on, the text is not empty and speech is not paused.  The ref
    holds one line only: the same line is said again at once when another
    one was said in between. *)
Theorem announcer_spaces_repeats (calls : list call) :
  let spoken := snd (announce_all calls lastVoiceRef_initial) in
  (forall (i : nat) n1 n2 k,
      spoken !! i = Some (n1, k) -> spoken !! S i = Some (n2, k) ->
      (MIN_INTERVAL <= n2 - n1)%Z)
  /\ (forall f on p n x last,
         snd (announce f on p n x last) = None ->
         fst (announce f on p n x last) = last)
  /\ (forall f on p n x,
         snd (announce f on p n x lastVoiceRef_initial) = Some x
         <-> on = true /\ x <> "" /\ p = false)
  /\ snd (announce_all
            [ {| facility := "Plant"; tts := true; paused := false; now := 1000;
                 text := "A" |};
              {| facility := "Plant"; tts := true; paused := false; now := 2000;
                 text := "B" |};
              {| facility := "Plant"; tts := true; paused := false; now := 3000;
                 text := "A" |} ] lastVoiceRef_initial)
     = [(1000%Z, "Plant:A"); (2000%Z, "Plant:B"); (3000%Z, "Plant:A")].
Proof.
  split; [apply announce_all_spaced|]. split; [|split; [|reflexivity]].
  - intros f on p n x last.
    destruct (announce_cases f on p n x last) as [[-> _]|[-> _]];
      [reflexivity|discriminate].
  - intros f on p n x.
    destruct (announce_cases f on p n x lastVoiceRef_initial)
      as [[-> H]|(-> & H1 & H2 & H3 & _)].
    + split; [discriminate|]. intros (-> & Hx & ->).
      destruct H as [H|[H|[H|[_ H]]]]; try done.
      cbn in H. symmetry in H. by apply key_never_empty in H.
    + by split.
Qed.

Lemma announcer_spaces_repeats_witness :
  let calls :=
    [ {| facility := "Plant"; tts := true; paused := false; now := 1000;
         text := "A" |};
      {| facility := "Plant"; tts := true; paused := false; now := 2000;
         text := "A" |};
      {| facility := "Plant"; tts := true; paused := false; now := 181000;
         text := "A" |} ] in
  snd (announce_all calls lastVoiceRef_initial)
    = [(1000%Z, "Plant:A"); (181000%Z, "Plant:A")]
  /\ (MIN_INTERVAL <= 181000 - 1000)%Z.
Proof.
  intros calls. split; [reflexivity|].
  apply (proj1 (announcer_spaces_repeats calls) O 1000%Z 181000%Z "Plant:A");
    reflexivity.
Defined.

End Announcer.

(** ** The origins that CORS lets in *)

Lemma split_on_nonempty sep s : split_on sep s <> [].
Proof.
  destruct s as [|c rest]; [done|]. cbn.
  destruct (Ascii.eqb c sep); [done|]. by destruct (split_on sep rest).
Qed.

Lemma split_on_single s : no_comma s = true -> split_on "," s = [s].
Proof.
  induction s as [|c rest IH]; [reflexivity|]. cbn [no_comma split_on].
  intros [Hc Hr]%andb_true_iff. apply negb_true_iff in Hc. rewrite Hc.
  by rewrite (IH Hr).
Qed.

Lemma split_on_cons e s :
  no_comma e = true ->
  split_on "," (e ++ "," ++ s) = e :: split_on "," s.
Proof.
  induction e as [|c rest IH]; [reflexivity|]. cbn [no_comma].
  intros [Hc Hr]%andb_true_iff. apply negb_true_iff in Hc.
  cbn. rewrite Hc. change (rest ++ String "," s)%string
    with (rest ++ "," ++ s)%string. by rewrite (IH Hr).
Qed.

(** Split undoes join. *)
Lemma split_on_join es :
  es <> [] -> Forall (fun e => no_comma e = true) es ->
  split_on "," (join_commas es) = es.
Proof.
  induction es as [|e rest IH]; [done|]. intros _ Hes.
  apply Forall_cons in Hes as [He Hrest].
  destruct rest as [|e' rest']; [by apply split_on_single|].
  change (join_commas (e :: e' :: rest'))
    with (e ++ "," ++ join_commas (e' :: rest'))%string.
  rewrite (split_on_cons _ _ He), IH; [reflexivity|done|exact Hrest].
Qed.

Lemma strip_stops codes fuel s :
  find (fun c => String.prefix c s) codes = None -> strip codes fuel s = s.
Proof. intros H. destruct fuel; cbn [strip]; [reflexivity|]. by rewrite H. Qed.

Lemma strip_spaces k fuel o :
  strip whitespace (k + fuel) (spaces k ++ o) = strip whitespace fuel o.
Proof.
  induction k as [|k IH]; [reflexivity|].
  change (strip whitespace (S k + fuel) (spaces (S k) ++ o))
    with (match find (fun c => String.prefix c (String " " (spaces k ++ o)))
                     whitespace with
          | Some c => strip whitespace (k + fuel)
                            (drop_string (String.length c)
                                         (String " " (spaces k ++ o)))
          | None => String " " (spaces k ++ o)
          end).
  assert (E : find (fun c => String.prefix c (String " " (spaces k ++ o)))
                   whitespace = Some " ").
  { generalize (spaces k ++ o)%string. intros x. by destruct x; vm_compute. }
  rewrite E. exact IH.
Qed.

Lemma rev_string_acc s acc :
  rev_string s acc = (rev_string s "" ++ acc)%string.
Proof.
  revert acc. induction s as [|c rest IH]; intros acc; [reflexivity|].
  cbn [rev_string]. rewrite (IH (String c acc)), (IH (String c "")).
  generalize (rev_string rest ""). intros r.
  induction r as [|a r IHr]; [reflexivity|]. cbn. by rewrite IHr.
Qed.

Lemma string_app_nil (s : string) : (s ++ "")%string = s.
Proof. induction s as [|c s IH]; [reflexivity|]. cbn. by rewrite IH. Qed.

Lemma string_app_assoc (a b c : string) :
  ((a ++ b) ++ c)%string = (a ++ b ++ c)%string.
Proof. induction a as [|x a IH]; [reflexivity|]. cbn. by rewrite IH. Qed.

Lemma rev_string_app a b :
  rev_string (a ++ b) "" = (rev_string b "" ++ rev_string a "")%string.
Proof.
  induction a as [|c a IH]; cbn [append rev_string].
  - by rewrite string_app_nil.
  - rewrite (rev_string_acc (a ++ b)), (rev_string_acc a), IH.
    by rewrite string_app_assoc.
Qed.

Lemma rev_string_involutive s : rev_string (rev_string s "") "" = s.
Proof.
  induction s as [|c s IH]; [reflexivity|]. cbn [rev_string].
  rewrite (rev_string_acc s), rev_string_app, IH. reflexivity.
Qed.

Lemma string_length_app (a b : string) :
  String.length (a ++ b) = (String.length a + String.length b)%nat.
Proof. induction a as [|c a IH]; [reflexivity|]. cbn. by rewrite IH. Qed.

Lemma spaces_length k : String.length (spaces k) = k.
Proof. induction k as [|k IH]; [reflexivity|]. cbn. by rewrite IH. Qed.

(** [trim] takes the spaces before a tidy string away and leaves the
    string. *)
Lemma trim_tidy k o : tidy o = true -> trim (spaces k ++ o) = o.
Proof.
  unfold tidy. intros [_ H]%andb_true_iff.
  destruct (find (fun c => String.prefix c o) whitespace) eqn:Hfront;
    [discriminate|].
  destruct (find _ (map _ whitespace)) eqn:Hback; [discriminate|].
  unfold trim. rewrite string_length_app, spaces_length, strip_spaces.
  rewrite (strip_stops _ _ _ Hfront), (strip_stops _ _ _ Hback).
  apply rev_string_involutive.
Qed.

Lemma no_comma_spaces k o : no_comma (spaces k ++ o) = no_comma o.
Proof. induction k as [|k IH]; [reflexivity|]. exact IH. Qed.

Lemma join_commas_empty e rest : join_commas (e :: rest) = "" -> e = "".
Proof.
  destruct rest as [|e' rest']; [done|].
  change (join_commas (e :: e' :: rest'))
    with (e ++ "," ++ join_commas (e' :: rest'))%string.
  by destruct e.
Qed.

Lemma allowedOrigins_written ps :
  ps <> [] ->
  Forall (fun p => tidy (snd p) = true /\ no_comma (snd p) = true) ps ->
  allowedOrigins (Some (written ps)) = map snd ps.
Proof.
  intros Hne Hps. unfold allowedOrigins, written.
  destruct (String.eqb_spec (join_commas (map (fun p => (spaces (fst p) ++ snd p)%string) ps)) "")
    as [E|_].
  - exfalso. destruct ps as [|[k o] rest]; [done|]. cbn [map fst snd] in E.
    apply join_commas_empty in E. apply Forall_cons in Hps as [[Ht _] _].
    cbn [snd] in Ht. destruct k; [|discriminate]. cbn in E. subst o.
    discriminate.
  - rewrite split_on_join.
    + rewrite map_map. clear Hne. induction Hps as [|[k o] rest [Ht _] _ IH];
        [reflexivity|].
      cbn [map fst snd] in *. by rewrite IH, trim_tidy.
    + by destruct ps.
    + apply Forall_map. eapply Forall_impl; [exact Hps|].
      intros [k o] [_ Hc]. cbn [fst snd] in *. by rewrite no_comma_spaces.
Qed.

(** X17.  A request without an [Origin] header passes CORS whatever is
    configured.  With [CORS_ORIGIN] unset or empty the one origin let in is
    ["http://localhost:5173"].  With [CORS_ORIGIN] written as a list of
    origins between commas, each after any number of spaces, the origins
    let in are exactly those of the list: the comparison is exact, nothing
    is let in by prefix or by case. *)
Theorem cors_lets_in_the_listed_origins (ps : list (nat * string)) :
  ps <> [] ->
  Forall (fun p => tidy (snd p) = true /\ no_comma (snd p) = true) ps ->
  allowedOrigins (Some (written ps)) = map snd ps
  /\ (forall o, origin_allowed (Some (written ps)) (Some o) = true
                <-> o = "" \/ In o (map snd ps))
  /\ (forall CORS_ORIGIN, origin_allowed CORS_ORIGIN None = true)
  /\ (forall o, origin_allowed None (Some o) = true
                <-> o = "" \/ o = "http://localhost:5173")
  /\ (forall o, origin_allowed (Some "") (Some o) = origin_allowed None (Some o)).
Proof.
  intros Hne Hps. pose proof (allowedOrigins_written ps Hne Hps) as Ha.
  split; [exact Ha|]. split; [|split; [|split]].
  - intros o. unfold origin_allowed. rewrite Ha, orb_true_iff.
    cbn [not_ default from_option id].
    rewrite mem_string_In.
    destruct (String.eqb_spec o "") as [->|E]; intuition (discriminate || auto).
  - reflexivity.
  - intros o. unfold origin_allowed. rewrite orb_true_iff, mem_string_In.
    cbn [not_ default from_option id].
    change (allowedOrigins None) with ["http://localhost:5173"].
    destruct (String.eqb_spec o "") as [->|E]; cbn [In];
      intuition (discriminate || auto).
  - reflexivity.
Qed.

Lemma cors_lets_in_the_listed_origins_witness :
  allowedOrigins (Some "https://a.example, https://b.example")
  = ["https://a.example"; "https://b.example"].
Proof.
  apply (proj1 (cors_lets_in_the_listed_origins
                  [(0%nat, "https://a.example"); (1%nat, "https://b.example")]
                  ltac:(discriminate)
                  ltac:(repeat constructor))).
Defined.

(** ** The accounts *)

Section AccountsProperties.
Import Accounts.
Variable hashPassword : string -> outcome string.
Variable comparePassword : string -> string -> outcome bool.
Variable generateToken : user_row -> outcome string.

(** X18.  [POST /api/login] gives a token only for a valid password: an
    answer 200 means that the table holds a row with the address of the
    request, that [comparePassword] returned [true] for the password of the
    request and the hash of that row, and that the token is the one
    [generateToken] made for that row; the role and the address of the
    answer are those of the row.  The handler always answers, never
    changes the table, and answers 400 without a query exactly when the
    address or the password is missing or empty. *)
Theorem login_gives_a_token_only_for_a_valid_password
  (email password : option string) (s : Store) :
  let out := login comparePassword generateToken email password s in
  users (snd out) = users s
  /\ (exists r, fst out = Return r)
  /\ (forall r, fst out = Return r ->
        (login_status r = 400%Z <-> not_ email || not_ password = true))
  /\ (not_ email || not_ password = true -> snd out = s)
  /\ forall r, fst out = Return r -> login_status r = 200%Z ->
       exists t user pw tok,
         users s = Some t /\ In user t
         /\ email = Some (us_email user)
         /\ password = Some pw
         /\ comparePassword pw (us_password_hash user) = Return true
         /\ generateToken user = Return tok
         /\ login_body r = login_token tok (us_role user) (us_email user).
Proof.
  unfold login. destruct (not_ email || not_ password) eqn:Hv; cbn [fst snd ret].
  { split; [reflexivity|]. split; [eauto|]. split; [|split; [reflexivity|]].
    - by intros r [= <-].
    - intros r [= <-]. discriminate. }
  apply orb_false_iff in Hv as [He Hp].
  destruct email as [em|]; [|discriminate]. destruct password as [pw|]; [|discriminate].
  cbn [default from_option id].
  unfold try_catch, bind, select_by_email, query, await, console_error, ret.
  destruct (faults s) as [|[] fs]; cbn [fst snd users];
    try (split; [reflexivity|]; split; [eauto|]; split;
         [by intros r [= <-]|split; [discriminate|by intros r [= <-]]]).
  all: destruct (users s) as [t|] eqn:Hu; cbn [fst snd users];
    try (split; [reflexivity|]; split; [eauto|]; split;
         [by intros r [= <-]|split; [discriminate|by intros r [= <-]]]).
  all: destruct (List.filter (fun u => String.eqb (us_email u) em) t)
         as [|user rest] eqn:Hf; cbn [fst snd users];
    try (split; [reflexivity|]; split; [eauto|]; split;
         [by intros r [= <-]|split; [discriminate|by intros r [= <-]]]).
  all: assert (Hin : In user t /\ us_email user = em)
         by (assert (H : In user (List.filter (fun u => String.eqb (us_email u) em) t))
               by (rewrite Hf; by left);
             apply filter_In in H as [H1 H2]; split; [exact H1|];
             by apply String.eqb_eq).
  all: destruct Hin as [Hin Hem].
  all: destruct (comparePassword pw (us_password_hash user)) as [[]|e] eqn:Hc;
    cbn [fst snd users negb];
    try (split; [reflexivity|]; split; [eauto|]; split;
         [by intros r [= <-]|split; [discriminate|by intros r [= <-]]]).
  all: destruct (generateToken user) as [tok|e] eqn:Hg; cbn [fst snd users];
    try (split; [reflexivity|]; split; [eauto|]; split;
         [by intros r [= <-]|split; [discriminate|by intros r [= <-]]]).
  all: split; [reflexivity|]; split; [eauto|]; split;
    [by intros r [= <-]|split; [discriminate|]].
  all: intros r [= <-] _; exists t, user, pw, tok; rewrite Hem; by repeat split.
Qed.

End AccountsProperties.

Lemma login_gives_a_token_only_for_a_valid_password_witness :
  let compare := fun pw h => Return (String.eqb h ("hash of " ++ pw)) in
  let token := fun u => Return ("token for " ++ Accounts.us_email u)%string in
  let row := {| Accounts.us_id := 1; Accounts.us_email := "admin@facility.com";
                Accounts.us_password_hash := "hash of admin123";
                Accounts.us_role := "admin" |} in
  let s := {| Accounts.users := Some [row]; Accounts.users_seq := 1;
              Accounts.faults := []; Accounts.console := [] |} in
  exists user tok,
    In user [row]
    /\ compare "admin123" (Accounts.us_password_hash user) = Return true
    /\ token user = Return tok.
Proof.
  intros compare token row s.
  destruct (proj2 (proj2 (proj2 (proj2
              (login_gives_a_token_only_for_a_valid_password compare token
                 (Some "admin@facility.com") (Some "admin123") s))))
              {| Accounts.login_status := 200;
                 Accounts.login_body :=
                   Accounts.login_token "token for admin@facility.com" "admin"
                                        "admin@facility.com" |}
              eq_refl eq_refl)
    as (t & user & pw & tok & [= <-] & Hin & _ & [= <-] & Hc & Hg & _).
  exists user, tok. by repeat split.
Defined.

Section EnsureUsers.
Import Accounts.
Variable hashPassword : string -> outcome string.

Lemma filter_email_none email t :
  List.filter (fun u => String.eqb (us_email u) email) t = [] ->
  existsb (fun u => String.eqb (us_email u) email) t = false
  /\ ~ In email (map us_email t).
Proof.
  induction t as [|u rest IH]; [by split; [|intros []]|].
  cbn [List.filter existsb map In].
  destruct (String.eqb_spec (us_email u) email) as [E|E]; [discriminate|].
  intros H. destruct (IH H) as [H1 H2]. split; [exact H1|]. by intros [?|?].
Qed.

Lemma filter_email_some email t u rest :
  List.filter (fun u => String.eqb (us_email u) email) t = u :: rest ->
  In email (map us_email t).
Proof.
  intros H.
  assert (Hin : In u (List.filter (fun u => String.eqb (us_email u) email) t))
    by (rewrite H; by left).
  apply filter_In in Hin as [Hin He]. apply String.eqb_eq in He as <-.
  by apply in_map.
Qed.

Lemma no_faults_S n fs :
  no_faults (S n) fs = true ->
  (forall rest, fs <> true :: rest) /\ no_faults n (tail fs) = true.
Proof.
  unfold no_faults. destruct fs as [|[] rest]; cbn [take tail forallb negb andb].
  - intros _. split; [done|]. by rewrite take_nil.
  - discriminate.
  - intros H. by split.
Qed.

(** One turn of the loop on a table that exists: it throws and leaves the
    table, or it returns; then the address was there and the table is left,
    or it was not and the new row is at the end. *)
Lemma ensure_default_cases email password role t s :
  users s = Some t ->
  exists o s',
    ensure_default hashPassword (email, password, role) s = (o, s')
    /\ ((exists e, o = Throw e /\ users s' = Some t
                   /\ (no_faults 2 (faults s) = true ->
                       hashPassword password = Throw e))
        \/ (o = Return tt /\ users s' = Some t
            /\ In email (map us_email t)
            /\ faults s' = tail (faults s))
        \/ (exists h,
               o = Return tt /\ ~ In email (map us_email t)
               /\ hashPassword password = Return h
               /\ users s' = Some (t ++ [ {| us_id := users_seq s + 1;
                                             us_email := email;
                                             us_password_hash := h;
                                             us_role := role |} ])
               /\ faults s' = tail (tail (faults s)))).
Proof.
  intros Hu. unfold ensure_default, bind, select_by_email, insert_user, query,
    await, ret.
  assert (Hfst : no_faults 2 (faults s) = true ->
                 forall rest, faults s <> true :: rest).
  { intros H. by apply no_faults_S in H as [H _]. }
  assert (Hsnd : no_faults 2 (faults s) = true ->
                 forall rest, tail (faults s) <> true :: rest).
  { intros H. apply no_faults_S in H as [_ H]. by apply no_faults_S in H as [H _]. }
  destruct (faults s) as [|[] fs] eqn:Hfs; cbn [users faults users_seq console tail].
  2: { do 2 eexists. split; [reflexivity|]. left. eexists.
       split; [reflexivity|]. split; [exact Hu|].
       intros H. by destruct (Hfst H fs). }
  all: rewrite Hu.
  all: destruct (List.filter (fun u => String.eqb (us_email u) email) t)
         as [|found others] eqn:Hf; cbn [length Nat.eqb].
  all: try (do 2 eexists; split; [reflexivity|]; right; left;
            split; [reflexivity|]; split; [reflexivity|];
            split; [exact (filter_email_some _ _ _ _ Hf)|reflexivity]).
  all: destruct (filter_email_none _ _ Hf) as [Hex Hnot].
  all: destruct (hashPassword password) as [h|e] eqn:Hh;
    cbn [users faults users_seq console tail].
  all: try (do 2 eexists; split; [reflexivity|]; left; eexists;
            split; [reflexivity|]; split; [reflexivity|]; by intros _).
  - rewrite Hex. do 2 eexists. split; [reflexivity|]. right. right.
    exists h. by repeat split.
  - destruct fs as [|[] fs']; cbn [users faults users_seq console tail].
    + rewrite Hex. do 2 eexists. split; [reflexivity|]. right. right.
      exists h. by repeat split.
    + do 2 eexists. split; [reflexivity|]. left. eexists.
      split; [reflexivity|]. split; [reflexivity|].
      intros H. by destruct (Hsnd H fs').
    + rewrite Hex. do 2 eexists. split; [reflexivity|]. right. right.
      exists h. by repeat split.
Qed.

Lemma no_faults_weaken n fs :
  no_faults (S n) fs = true -> no_faults n fs = true.
Proof.
  unfold no_faults. revert fs. induction n as [|n IH]; intros fs; [done|].
  destruct fs as [|f rest]; [done|].
  change (take (S (S n)) (f :: rest)) with (f :: take (S n) rest).
  change (take (S n) (f :: rest)) with (f :: take n rest).
  cbn [forallb]. intros [H1 H2]%andb_true_iff. by rewrite H1, (IH rest H2).
Qed.

(** The loop of [ensureUsers] over any list of defaults, on a table that
    exists. *)
Lemma ensure_loop (l : list (string * string * string)) t s :
  users s = Some t ->
  exists added,
    users (snd (for_of l (ensure_default hashPassword) s)) = Some (t ++ added)
    /\ Forall (fun u => exists password,
                 In (us_email u, password, us_role u) l
                 /\ hashPassword password = Return (us_password_hash u)) added
    /\ (List.NoDup (map us_email t) -> List.NoDup (map us_email (t ++ added)))
    /\ ((forall d, In d l -> In (fst (fst d)) (map us_email t)) -> added = [])
    /\ (no_faults (length l + length l) (faults s) = true ->
        (forall d, In d l -> exists h, hashPassword (snd (fst d)) = Return h) ->
        fst (for_of l (ensure_default hashPassword) s) = Return tt
        /\ forall d, In d l -> In (fst (fst d)) (map us_email (t ++ added))).
Proof.
  revert t s. induction l as [|[[email password] role] rest IH]; intros t s Hu.
  { exists []. cbn. rewrite app_nil_r. repeat split; auto. intros d []. }
  cbn [for_of]. unfold bind.
  destruct (ensure_default_cases email password role t s Hu)
    as (o & s' & -> & [(e & -> & Hu' & Hcause)
                      |[(-> & Hu' & Hthere & Hfs)
                       |(h & -> & Hnot & Hh & Hu' & Hfs)]]).
  - exists []. cbn [snd]. rewrite app_nil_r. split; [exact Hu'|].
    split; [constructor|]. split; [auto|]. split; [auto|].
    intros Hnf Hhash. exfalso. cbn [length] in Hnf.
    rewrite Nat.add_succ_r in Hnf. cbn [Nat.add] in Hnf.
    assert (H2 : no_faults 2 (faults s) = true).
    { clear -Hnf. induction (length rest + length rest)%nat as [|n IHn];
        [exact Hnf|]. apply IHn. by apply no_faults_weaken. }
    destruct (Hhash (email, password, role)) as [h Hh]; [by left|].
    cbn [fst snd] in Hh. rewrite (Hcause H2) in Hh. discriminate.
  - destruct (IH t s' Hu') as (added & H1 & H2 & H3 & H4 & H5).
    exists added. split; [exact H1|]. split.
    { eapply Forall_impl; [exact H2|]. intros u (p & Hp & Hq). exists p.
      split; [by right|exact Hq]. }
    split; [exact H3|]. split.
    { intros Hall. apply H4. intros d Hd. apply Hall. by right. }
    intros Hnf Hhash. cbn [length] in Hnf.
    rewrite Nat.add_succ_r in Hnf. cbn [Nat.add] in Hnf.
    apply no_faults_weaken, no_faults_S in Hnf as [_ Hnf]. rewrite <- Hfs in Hnf.
    destruct (H5 Hnf) as [Hret Hin]; [intros d Hd; apply Hhash; by right|].
    split; [exact Hret|]. intros d [<-|Hd]; [|by apply Hin].
    cbn [fst]. rewrite map_app, in_app_iff. by left.
  - destruct (IH _ s' Hu') as (added & H1 & H2 & H3 & H4 & H5).
    eexists (_ :: added). rewrite <- app_assoc in H1. split; [exact H1|]. split.
    { constructor.
      - exists password. cbn [us_email us_role us_password_hash].
        split; [by left|exact Hh].
      - eapply Forall_impl; [exact H2|]. intros u (p & Hp & Hq). exists p.
        split; [by right|exact Hq]. }
    split.
    { intros Hnd. rewrite <- app_assoc in H3. apply H3.
      rewrite map_app. cbn [map us_email].
      apply NoDup_ListNoDup, NoDup_app. split; [by apply NoDup_ListNoDup|].
      split; [|apply NoDup_singleton].
      intros x Hx [->|[]]%list_elem_of_In. apply Hnot.
      by apply list_elem_of_In. }
    split.
    { intros Hall. exfalso. apply Hnot. apply (Hall (email, password, role)).
      by left. }
    intros Hnf Hhash. cbn [length] in Hnf.
    rewrite Nat.add_succ_r in Hnf. cbn [Nat.add] in Hnf.
    apply no_faults_S in Hnf as [_ Hnf]. apply no_faults_S in Hnf as [_ Hnf].
    rewrite <- Hfs in Hnf.
    destruct (H5 Hnf) as [Hret Hin]; [intros d Hd; apply Hhash; by right|].
    split; [exact Hret|]. rewrite <- app_assoc in Hin.
    intros d [<-|Hd]; [|by apply Hin].
    cbn [fst]. rewrite map_app, in_app_iff. right. by left.
Qed.

(** X19.  [ensureUsers] adds the missing defaults and nothing else: the
    rows that were there stay as they are and in their places (a default
    account whose password or role was changed is not reset), every row
    added is one of the three defaults with the hash [hashPassword] made of
    its password, no address comes twice, and once the three addresses are
    there no run adds anything.  The [catch] on its promise lets no
    exception out.  When none of its queries throws and [hashPassword]
    returns, the three addresses are there at the end. *)
Theorem ensureUsers_adds_the_missing_defaults (s : Store) :
  let out := ensureUsers_caught hashPassword s in
  let before := default [] (users s) in
  fst out = Return tt
  /\ exists added,
       default [] (users (snd out)) = before ++ added
       /\ Forall (seeded_by hashPassword) added
       /\ (List.NoDup (map us_email before) ->
           List.NoDup (map us_email (before ++ added)))
       /\ ((forall d, In d defaults -> In (fst (fst d)) (map us_email before)) ->
           added = [])
       /\ (no_faults 7 (faults s) = true ->
           (forall d, In d defaults ->
                      exists h, hashPassword (snd (fst d)) = Return h) ->
           fst (ensureUsers hashPassword s) = Return tt
           /\ forall d, In d defaults ->
                In (fst (fst d)) (map us_email (before ++ added))).
Proof.
  intros out before. subst out.
  unfold ensureUsers_caught, try_catch, ensureUsers.
  unfold bind, create_users, query, console_error.
  destruct (faults s) as [|[] fs] eqn:Hfs; cbn [fst snd users].
  2: { split; [reflexivity|]. exists []. fold before. rewrite app_nil_r.
       split; [reflexivity|]. split; [constructor|]. split; [auto|].
       split; [auto|]. intros Hnf. apply no_faults_S in Hnf as [Hnf _].
       by destruct (Hnf fs). }
  all: match goal with
       | |- context [for_of defaults (ensure_default hashPassword) ?s1] =>
           destruct (ensure_loop defaults (default [] (users s)) s1 eq_refl)
             as (added & H1 & H2 & H3 & H4 & H5);
           destruct (for_of defaults (ensure_default hashPassword) s1)
             as [[[]|e] s'];
           cbn [fst snd users] in *
       end.
  all: split; [reflexivity|]; exists added; rewrite H1;
    cbn [default from_option id].
  all: split; [reflexivity|]; split; [exact H2|]; split; [exact H3|];
    split; [exact H4|].
  all: intros Hnf Hhash; apply no_faults_S in Hnf as [_ Hnf];
    cbn [tail] in Hnf; destruct (H5 Hnf Hhash) as [Hret Hin];
    first [discriminate Hret|by split].
Qed.

End EnsureUsers.

Lemma ensureUsers_adds_the_missing_defaults_witness :
  let hash := fun pw => Return ("hash of " ++ pw)%string in
  let s := {| Accounts.users := None; Accounts.users_seq := 0;
              Accounts.faults := []; Accounts.console := [] |} in
  exists added,
    default [] (Accounts.users (snd (Accounts.ensureUsers_caught hash s)))
      = [] ++ added
    /\ In "viewer@facility.com" (map Accounts.us_email ([] ++ added)).
Proof.
  intros hash s.
  destruct (ensureUsers_adds_the_missing_defaults hash s)
    as (_ & added & H1 & _ & _ & _ & H5).
  exists added. split; [exact H1|].
  apply (proj2 (H5 eq_refl ltac:(intros [[e p] r] _; by eexists))
               ("viewer@facility.com", "viewer123", "viewer")).
  cbn. auto.
Defined.

(** ** Failures and answers *)

Lemma spends_ret {A : Type} (a : A) : spends 0 (ret a).
Proof.
  intros w. exists []. cbn. split; [reflexivity|]. split; [lia|constructor].
Qed.

Lemma spends_effect_ x : spends 0 (effect_ x).
Proof.
  intros w. exists []. cbn. split; [reflexivity|]. split; [lia|constructor].
Qed.

Lemma spends_Date_now : spends 0 Date_now.
Proof.
  intros w. exists []. cbn. split; [reflexivity|]. split; [lia|constructor].
Qed.

Lemma spends_mono {A : Type} n n' (m : M A) :
  (n <= n')%nat -> spends n m -> spends n' m.
Proof.
  intros Hle Hm w. destruct (Hm w) as (used & H1 & H2 & H3).
  exists used. split; [exact H1|]. split; [lia|exact H3].
Qed.

Lemma spends_bind {A B : Type} n1 n2 (m : M A) (k : A -> M B) :
  spends n1 m -> (forall a, spends n2 (k a)) -> spends (n1 + n2) (bind m k).
Proof.
  intros Hm Hk w. destruct (Hm w) as (u1 & H1 & L1 & A1). unfold bind.
  destruct (m w) as [[a|e] w1]; cbn [fst snd] in *.
  - destruct (Hk a w1) as (u2 & H2 & L2 & A2). exists (u1 ++ u2).
    split; [by rewrite H1, H2, app_assoc|].
    split; [rewrite length_app; lia|].
    destruct (fst (k a w1)) as [b|e]; cbn in *.
    + by apply Forall_app.
    + destruct A2 as (pre & t & -> & Hpre & Ht). exists (u1 ++ pre), t.
      split; [by rewrite app_assoc|]. split; [by apply Forall_app|exact Ht].
  - exists u1. split; [exact H1|]. split; [lia|exact A1].
Qed.

Lemma spends_pool_query {A : Type} (run : Z -> World -> A * World) :
  (forall now w, oracle (snd (run now w)) = oracle w) ->
  spends 1 (pool_query run).
Proof.
  intros Hrun w. unfold pool_query.
  destruct (oracle w) as [|t rest] eqn:Ho; cbn [next_fails].
  - specialize (Hrun (clock (advance w)) (advance w)).
    destruct (run (clock (advance w)) (advance w)) as [a w']. cbn [fst snd] in *.
    exists []. rewrite Hrun. cbn [advance set_clock_oracle oracle]. rewrite Ho.
    cbn. split; [reflexivity|]. split; [lia|constructor].
  - destruct (fails t) eqn:Hf.
    + exists [t]. cbn [fst snd advance set_clock_oracle oracle]. rewrite Ho.
      split; [reflexivity|]. split; [cbn; lia|]. exists [], t.
      split; [reflexivity|]. split; [constructor|exact Hf].
    + specialize (Hrun (clock (advance w)) (advance w)).
      destruct (run (clock (advance w)) (advance w)) as [a w']. cbn [fst snd] in *.
      exists [t]. rewrite Hrun. cbn [advance set_clock_oracle oracle]. rewrite Ho.
      split; [reflexivity|]. split; [cbn; lia|]. by repeat constructor.
Qed.

Lemma spends_insert_alerts name val st :
  status_check st = true -> spends 1 (insert_alerts name val st).
Proof.
  intros Hst w. unfold insert_alerts.
  pose proof (spends_pool_query
    (fun now w =>
       let row := {| al_id := alerts_seq w + 1; al_sensor_name := name;
                     al_value := val; al_status := st;
                     al_triggered_at := now |} in
       if status_check st
       then (true, log (sql_insert_alerts row)
                       (write_alerts (fun t => t ++ [row]) 1 w))
       else (false, write_alerts (fun t => t) 1 w))) as Hq.
  destruct (Hq ltac:(intros now v; cbn; by destruct (status_check st)) w)
    as (used & H1 & H2 & H3).
  unfold pool_query in *. rewrite Hst in *.
  destruct (next_fails (oracle w)); cbn [fst snd] in *; by exists used.
Qed.

Lemma spends_alert_branch name val : spends 2 (alert_branch name val).
Proof.
  unfold alert_branch.
  destruct (withinAlertRange name val) as [st|] eqn:Hw;
    [|apply (spends_mono 0); [lia|apply spends_ret]].
  apply (spends_bind 1 1); [by apply spends_pool_query|].
  intros rows. apply (spends_bind 0 1).
  { unfold shouldInsert. destruct rows; [apply spends_ret|].
    apply (spends_bind 0 0); [apply spends_Date_now|].
    intros now. destruct (_ && _); apply spends_ret. }
  intros [|]; [|apply (spends_mono 0); [lia|apply spends_ret]].
  apply (spends_bind 1 0).
  { apply spends_insert_alerts. by apply (status_check_withinAlertRange name val). }
  intros _. apply (spends_bind 0 0); [apply spends_Date_now|].
  intros now. apply spends_effect_.
Qed.

Lemma spends_ingest name val u : spends 4 (ingest name val u).
Proof.
  unfold ingest. apply (spends_bind 2 2).
  - unfold record_reading. apply (spends_bind 1 1); [by apply spends_pool_query|].
    intros _. apply (spends_bind 1 0).
    + apply spends_pool_query. intros now w. cbn.
      by destruct (upsert_row _ (sensors w)).
    + intros latest. apply (spends_bind 0 0); [apply spends_effect_|].
      intros _. apply spends_ret.
  - intros latest. apply (spends_bind 2 0); [apply spends_alert_branch|].
    intros _. apply spends_ret.
Qed.

(** X20.  [POST /api/reading] with a name that is a string and a value
    makes at most four queries and answers 201 or 500.  It answers 201 only
    when none of the queries it made threw; a query that throws is the
    last one it makes and the answer is 500.  For a value that is [null],
    a boolean, a number or a string, on which [Number] does not throw, it
    answers 500 only when a query threw. *)
Theorem reading_succeeds_only_without_a_failed_query
  (req : request_body) (name : string) (w : World) :
  body_name req = Some name -> name <> "" -> body_value req <> JUndefined ->
  let out := post_reading req w in
  exists used r,
    oracle w = used ++ oracle (snd out)
    /\ (length used <= 4)%nat
    /\ fst out = Return r
    /\ (status_code r = 201%Z \/ status_code r = 500%Z)
    /\ (status_code r = 201%Z -> Forall (fun t => fails t = false) used)
    /\ (Exists (fun t => fails t = true) used ->
        status_code r = 500%Z
        /\ exists pre t,
             used = pre ++ [t] /\ Forall (fun t => fails t = false) pre
             /\ fails t = true)
    /\ (primitive (body_value req) = true -> status_code r = 500%Z ->
        Exists (fun t => fails t = true) used).
Proof.
  intros Hn Hne Hv out. subst out.
  destruct (spends_ingest name (toNumber (body_value req))
              (or_null (body_unit req)) w) as (used & H1 & H2 & H3).
  destruct (ingest name _ _ w) as [[latest|e] w1] eqn:Hi; cbn [fst snd] in *.
  - rewrite (post_reading_Return _ _ _ _ _ Hn Hne Hv Hi). cbn [fst snd].
    exists used. eexists. split; [exact H1|]. split; [exact H2|].
    split; [reflexivity|]. cbn [status_code].
    split; [by left|]. split; [done|]. split; [|done].
    intros He. exfalso. apply List.Exists_exists in He as (t & Hin & Ht).
    cbn [accounts_for] in H3. rewrite List.Forall_forall in H3.
    specialize (H3 t Hin). congruence.
  - rewrite (post_reading_Throw _ _ _ _ _ Hn Hne Hv Hi). cbn [fst snd log oracle].
    exists used. eexists. split; [exact H1|]. split; [exact H2|].
    split; [reflexivity|]. cbn [status_code].
    split; [by right|]. split; [done|]. split; [done|].
    intros _ _. cbn [accounts_for] in H3. destruct H3 as (pre & t & -> & _ & Ht).
    apply List.Exists_exists. exists t. split; [|exact Ht].
    apply in_or_app. right. by left.
Qed.

Lemma reading_succeeds_only_without_a_failed_query_witness :
  let w := initial 1000 [ {| delay := 5; fails := false |};
                          {| delay := 5; fails := true |};
                          {| delay := 5; fails := false |} ] [] in
  exists used r,
    oracle w = used ++ oracle (snd (post_reading (temperature_request 30) w))
    /\ fst (post_reading (temperature_request 30) w) = Return r.
Proof.
  intros w.
  destruct (reading_succeeds_only_without_a_failed_query
              (temperature_request 30) "Temperature Sensor 1" w)
    as (used & r & H1 & _ & H2 & _); [reflexivity|discriminate|discriminate|].
  by exists used, r.
Defined.

(** ** The alerts stored and the alerts broadcast *)

Lemma alert_inserts_app t1 t2 :
  alert_inserts (t1 ++ t2) = alert_inserts t1 ++ alert_inserts t2.
Proof.
  induction t1 as [|x t1 IH]; [reflexivity|].
  destruct x; cbn; rewrite ?IH; reflexivity.
Qed.

Lemma stored_and_kept_refl w : stored_and_kept w w.
Proof. exists []. cbn. by rewrite !app_nil_r. Qed.

Lemma stored_and_kept_trans w1 w2 w3 :
  stored_and_kept w1 w2 -> stored_and_kept w2 w3 -> stored_and_kept w1 w3.
Proof.
  intros (t1 & H1 & A1 & E1) (t2 & H2 & A2 & E2). exists (t1 ++ t2).
  rewrite H2, H1, A2, A1, alert_inserts_app, alert_events_app, E1, E2, map_app.
  by rewrite <- !app_assoc.
Qed.

Lemma stored_as_broadcast_refl w : stored_as_broadcast w w.
Proof. exists []. cbn. by rewrite app_nil_r. Qed.

Lemma stored_as_broadcast_trans w1 w2 w3 :
  stored_as_broadcast w1 w2 -> stored_as_broadcast w2 w3 ->
  stored_as_broadcast w1 w3.
Proof.
  intros (t1 & H1 & E1) (t2 & H2 & E2). exists (t1 ++ t2).
  rewrite H2, H1, alert_inserts_app, alert_events_app, E1, E2, map_app.
  by rewrite <- !app_assoc.
Qed.

Lemma stored_and_kept_weaken w w' :
  stored_and_kept w w' -> stored_as_broadcast w w'.
Proof. intros (t & H & _ & E). by exists t. Qed.

Lemma ingest_stored_and_kept name val u :
  preserves stored_and_kept (ingest name val u).
Proof.
  intros w. destruct (ingest name val u w) as [o w'] eqn:H.
  apply ingest_ingested in H. cbn [snd].
  destruct H as [? ? Ht _ _ Ha|? ? ? Ht _ _ _ _ Ha
                |? ? ? ? ? Ht _ _ _ _ _ _ Ha _
                |? ? ? ? ? Ht _ _ _ _ _ _ Ha _ _ _].
  - exists []. cbn. by rewrite !app_nil_r.
  - eexists. split; [exact Ht|]. cbn. by rewrite app_nil_r.
  - eexists. split; [exact Ht|]. cbn. by rewrite app_nil_r.
  - eexists. split; [exact Ht|]. by cbn.
Qed.

Lemma pick_candidate_stored_and_kept name thr :
  preserves stored_and_kept (pick_candidate name thr).
Proof.
  intros w. destruct (pick_candidate_returns name thr w) as (c & w1 & -> & H).
  destruct H as (_ & _ & Ha & _ & _ & _ & _ & _ & Ht).
  exists []. cbn [snd alert_inserts alert_events map].
  rewrite !app_nil_r. by split.
Qed.

Ltac stored_leaf :=
  first [ apply ingest_stored_and_kept
        | apply pick_candidate_stored_and_kept
        | by (cbn;
              repeat match goal with
                     | |- context [upsert_row ?p ?t] => destruct (upsert_row p t)
                     end;
              unfold stored_and_kept;
              first [ by (exists []; cbn; rewrite !app_nil_r)
                    | by (eexists [_]; split; [reflexivity|];
                          cbn; rewrite ?app_nil_r) ]) ].

Lemma simulateOnce_stored_and_kept : preserves stored_and_kept simulateOnce.
Proof.
  unfold simulateOnce.
  apply (preserves_for_of _ stored_and_kept_refl stored_and_kept_trans).
  intros [name thr]. unfold simulate_sensor.
  frame stored_and_kept_refl stored_and_kept_trans stored_leaf.
Qed.

Lemma step_stored_and_kept (collation : Collation) r w :
  r <> DELETE_api_alerts_clear -> stored_and_kept w (step r w).
Proof.
  intros Hr. destruct r as [req| |id| |ENABLE_SIM]; [| done | | |]; cbn [step].
  - revert w. change (preserves stored_and_kept (post_reading req)).
    unfold post_reading.
    frame stored_and_kept_refl stored_and_kept_trans stored_leaf.
  - revert w. change (preserves stored_and_kept (on_connection id)).
    unfold on_connection, getLatestSensors, select_recent_alerts, socket_emit.
    frame stored_and_kept_refl stored_and_kept_trans stored_leaf.
  - apply simulateOnce_stored_and_kept.
  - revert w. change (preserves stored_and_kept (boot ENABLE_SIM)).
    unfold boot, ensureSchema, create_if_not_exists, seedSensorsIfEmpty,
      count_sensors, upsert_sensors, insert_sensor_data.
    frame stored_and_kept_refl stored_and_kept_trans
          ltac:(first [apply simulateOnce_stored_and_kept|stored_leaf]).
Qed.

Lemma step_stored_as_broadcast (collation : Collation) r w :
  stored_as_broadcast w (step r w).
Proof.
  destruct r as [req| |id| |];
    try (apply stored_and_kept_weaken, step_stored_and_kept; discriminate).
  cbn [step]. unfold delete_alerts_clear, try_catch, bind, delete_alerts,
    pool_query, io_emit, effect_, ret.
  destruct (next_fails (oracle w)); cbn [snd]; eexists;
    (split; [cbn; rewrite <- ?app_assoc; reflexivity|reflexivity]).
Qed.

(** X21.  What is broadcast as [sensor-alert] and what is stored in
    [alerts] are the same alerts in the same order, along every run: no
    alert is broadcast without its row and no row is stored without its
    broadcast.  In a run from an empty store without
    [DELETE /api/alerts/clear] the table of alerts is therefore the history
    of the alert broadcasts. *)
Theorem stored_alerts_are_the_broadcast_alerts
  (collation : Collation) (rs : list request) (w : World) :
  stored_as_broadcast w (run rs w)
  /\ ((forall r, r ∈ rs -> r <> DELETE_api_alerts_clear) ->
      stored_and_kept w (run rs w)
      /\ (alerts w = [] -> trace w = [] ->
          map to_msg (alerts (run rs w)) = alert_events (trace (run rs w)))).
Proof.
  split.
  - unfold run. apply (preserves_fold_left _ stored_as_broadcast_refl
                         stored_as_broadcast_trans).
    intros v r. apply step_stored_as_broadcast.
  - intros Hrs.
    assert (H : stored_and_kept w (run rs w)).
    { revert w. induction rs as [|r rs IH]; intros w; unfold run in *;
        cbn [fold_left]; [apply stored_and_kept_refl|].
      eapply stored_and_kept_trans.
      - apply (step_stored_and_kept collation r w), Hrs, elem_of_cons. by left.
      - apply IH. intros r' Hr'. apply Hrs, elem_of_cons. by right. }
    split; [exact H|]. intros Ha Ht. destruct H as (t & H1 & H2 & H3).
    rewrite H1, H2, Ha, Ht. cbn [app]. by rewrite H3.
Qed.

Lemma stored_alerts_are_the_broadcast_alerts_witness :
  let rs := [POST_api_reading (temperature_request 30);
             POST_api_reading (temperature_request 15)] in
  map to_msg (alerts (@run bytewise rs scenario_0))
  = alert_events (trace (@run bytewise rs scenario_0)).
Proof.
  intros rs.
  apply (proj2 (proj2 (stored_alerts_are_the_broadcast_alerts bytewise rs
                         scenario_0)
                  ltac:(intros r Hr; apply elem_of_cons in Hr as [->|Hr];
                        [discriminate|];
                        apply list_elem_of_singleton in Hr as ->; discriminate)));
    reflexivity.
Defined.

(** ** The cooldown *)

(** X22.  The cooldown is counted from the last alert raised, not from the
    last reading: a reading that raises no alert leaves the alerts as they
    are, so the next out-of-range reading of a sensor is compared with the
    same prior alert, and it is raised once two minutes have passed since
    the most recent alert of the sensor, whatever came in between and
    however close its value is. *)
Theorem cooldown_counts_from_the_last_alert
  (req1 req2 : request_body) (name st2 : string) (w : World) :
  let w1 := snd (post_reading req1 w) in
  alert_suppressed w w1 ->
  body_name req2 = Some name -> name <> "" -> body_value req2 <> JUndefined ->
  withinAlertRange name (toNumber (body_value req2)) = Some st2 ->
  no_fault 4 (oracle w1) = true ->
  (forall last, most_recent name (alerts w) last ->
     (ALERT_COOLDOWN_MS
      <= clock w1 + elapsed 3 (oracle w1) - al_triggered_at last)%Z) ->
  let w2 := snd (post_reading req2 w1) in
  let raised := alert_of name (toNumber (body_value req2)) st2 w1 in
  alerts w2 = alerts w ++ [raised]
  /\ alert_events (trace_since w1 w2) = [to_msg raised].
Proof.
  intros w1 [Ha _] Hn2 Hne Hv2 Hst2 Hnf1 Hcool w2 raised.
  pose proof (post_reading_gate_decides req2 name st2 w1 Hn2 Hne Hv2 Hst2 Hnf1)
    as [_ Hraise]. fold w2 in Hraise. rewrite <- Ha.
  apply Hraise. intros (last & Hlast & _ & _ & Hwithin).
  apply last_alert_rows_most_recent in Hlast. rewrite Ha in Hlast.
  specialize (Hcool last Hlast). lia.
Qed.

Lemma cooldown_counts_from_the_last_alert_witness :
  let calm := {| delay := 0; fails := false |} in
  let late := {| delay := 120000; fails := false |} in
  let w := snd (post_reading (temperature_request 30)
                  (initial 1000 [calm; calm; calm; calm;
                                 calm; calm; calm; late; calm; calm; calm] [])) in
  let w1 := snd (post_reading (temperature_request (302 # 10)) w) in
  let w2 := snd (post_reading (temperature_request (301 # 10)) w1) in
  map al_triggered_at (alerts w2) = [1000%Z; 121000%Z].
Proof.
  intros calm late w w1 w2.
  assert (Hw : alerts w
               = [{| al_id := 1; al_sensor_name := "Temperature Sensor 1";
                     al_value := 30; al_status := "high";
                     al_triggered_at := 1000 |}]) by (by vm_compute).
  destruct (cooldown_counts_from_the_last_alert
              (temperature_request (302 # 10)) (temperature_request (301 # 10))
              "Temperature Sensor 1" "high" w)
    as (H2 & _);
    [split; by vm_compute|reflexivity|discriminate|discriminate
    |by vm_compute|by vm_compute| |].
  - intros last (Hin & _). rewrite Hw in Hin. destruct Hin as [<-|[]].
    by vm_compute.
  - fold w1 w2 in H2. rewrite H2. by vm_compute.
Defined.

(** ** The walk of the simulator *)





